(** * Codon-usage "First-Classness" scripts: a shallow embedding

  The development follows the Python scripts of the repository:

  - [fc_checker.py]: RSCU vector, intra/inter dispersion ratio, cohort
    median, shuffled-orbit null model;
  - [simple_null_test.py]: the stand-alone null-model test;
  - [paired_fc_analysis.py]: per-family RSCU and the "FC compliance"
    metrics;
  - [agg_codon_by_taxid.py]: one-pass (Taxid, Organelle) aggregation;
  - [cds_to_species_hardwired.py]: chunked per-species aggregation;
  - [fix_hive_header.py]: the header repair;
  - [orbit_by_orbit_analysis.py]: the coefficient of variation of a
    codon family.

  Numbers.  Codon counts are integers ([Z]).  The scripts compute with
  IEEE doubles.  Two readings are kept apart.  In the modules [np],
  [fc_checker], [simple_null_test], [paired_fc_analysis] and
  [orbit_by_orbit_analysis] every double is read as the real number it
  stands for ([R], exact arithmetic), and a NaN (or any non-finite
  value) is the [None] of an [option]: this is the reading for
  equations between two runs and for formulas that hold up to rounding.
  In the modules [np64], [fc_checker64] and [paired_fc_analysis64] the
  same functions compute with binary64 numbers ([float]) and numpy's
  order of additions: this is the reading for what a test on a computed
  double decides.  The columns of [cds_to_species_hardwired] are int64
  (integers with wrap-around) or float64.  Python dictionaries that are
  iterated
  are association lists in insertion order; dictionaries that are only
  looked up by key are [gmap]s. *)

From Stdlib Require Import Floats Uint63.
From Stdlib Require Import Reals Lra Lia ZArith List Permutation Ascii.
From stdpp Require Import gmap strings list fin_maps sorting.
Import ListNotations.

(** ** The 64 codons *)

Inductive base : Type := ntU | ntC | ntA | ntG.

Definition codon : Type := (base * base * base)%type.

#[global] Instance base_eq_dec : EqDecision base.
Proof. solve_decision. Defined.

(** The string ["UCAG"] the scripts iterate over. *)
Definition UCAG : list base := [ntU; ntC; ntA; ntG].

(** [CODON_ORDER = [a + b + c for a in "UCAG" for b in "UCAG" for c in "UCAG"]] *)
Definition CODON_ORDER : list codon :=
flat_map (fun a => flat_map (fun b => map (fun c => (a, b, c)) UCAG) UCAG) UCAG.

Definition UUU : codon := (ntU, ntU, ntU).

(** The RNA name of a codon. *)
Definition rna_letter (b : base) : ascii :=
  match b with ntU => "U" | ntC => "C" | ntA => "A" | ntG => "G" end%char.

Definition rna_name (c : codon) : string :=
  String (rna_letter c.1.1) (String (rna_letter c.1.2) (String (rna_letter c.2) EmptyString)).

(** ** numpy reductions on Python lists *)

Module np.
Local Open Scope R_scope.

Definition sum (l : list R) : R := foldr Rplus 0 l.

(** [np.mean(l)] *)
Definition mean (l : list R) : R := sum l / INR (length l).

(** [np.std(l, ddof=ddof)]: the squared deviations from the mean are
    summed, divided by [max(N - ddof, 0)], and the root is taken. *)
Definition std (ddof : nat) (l : list R) : R :=
  sqrt (sum (map (fun x => (x - mean l) * (x - mean l)) l)
        / INR (length l - ddof)).

Definition Rleb (x y : R) : bool := if Rle_dec x y then true else false.

Fixpoint insert_sorted (x : R) (l : list R) : list R :=
  match l with
  | [] => [x]
  | y :: l' => if Rleb x y then x :: y :: l' else y :: insert_sorted x l'
  end.

Definition sort (l : list R) : list R := foldr insert_sorted [] l.

(** [np.median(l)]: the middle of the sorted values, the mean of the
    two middle ones when the length is even. *)
Definition median (l : list R) : R :=
  let s := sort l in
  let n := length s in
  if Nat.even n
  then (nth (n / 2 - 1) s 0 + nth (n / 2) s 0) / 2
  else nth (n / 2) s 0.
End np.

(** ** numpy reductions on doubles

    [float] is IEEE binary64 with round-to-nearest-even, the arithmetic
    of Python's [float] and of numpy's [float64].  [np.add.reduce] on a
    contiguous array of doubles adds pairwise: fewer than 8 values one
    after the other; up to 128 values in 8 running sums that are added
    as a tree, the remaining values one after the other; more than 128
    values in two halves, the first a multiple of 8 long. *)

Module np64.
Local Open Scope float_scope.

(** The double of an integer, exact for integers below 2^53 in
    absolute value. *)
Definition of_int (z : Z) : float :=
  if (z <? 0)%Z then - PrimFloat.of_uint63 (Uint63.of_Z (- z))
  else PrimFloat.of_uint63 (Uint63.of_Z z).

Definition of_len (n : nat) : float := of_int (Z.of_nat n).

(** [for (...) res += a[i]] *)
Definition loop_sum (res : float) (a : list float) : float :=
  foldl PrimFloat.add res a.

(** [r[j] += a[i + j]] for the 8 running sums. *)
Fixpoint add_lanes (r a : list float) : list float :=
  match r, a with
  | x :: r', y :: a' => (x + y) :: add_lanes r' a'
  | _, _ => r
  end.

(** The loop over the whole blocks of 8 values; what is left over is
    returned with the running sums. *)
Fixpoint blocks (fuel : nat) (r rest : list float) : list float * list float :=
  match fuel with
  | O => (r, rest)
  | S fuel' =>
      if (8 <=? length rest)%nat
      then blocks fuel' (add_lanes r (take 8 rest)) (drop 8 rest)
      else (r, rest)
  end.

(** The branch for 8 to 128 values. *)
Definition block_sum (a : list float) : float :=
  let '(r, rest) := blocks (length a) (take 8 a) (drop 8 a) in
  let r_ j := nth j r 0 in
  loop_sum (((r_ 0%nat + r_ 1%nat) + (r_ 2%nat + r_ 3%nat))
            + ((r_ 4%nat + r_ 5%nat) + (r_ 6%nat + r_ 7%nat))) rest.

Fixpoint pairwise_sum (fuel : nat) (a : list float) : float :=
  let n := length a in
  if (n <? 8)%nat then loop_sum 0 a
  else if (n <=? 128)%nat then block_sum a
  else
    match fuel with
    | O => loop_sum 0 a
    | S fuel' =>
        let n2 := (n / 2 - (n / 2) mod 8)%nat in
        pairwise_sum fuel' (take n2 a) + pairwise_sum fuel' (drop n2 a)
    end.

(** [np.sum(a)] *)
Definition sum (a : list float) : float := pairwise_sum (length a) a.

(** [np.mean(a)] *)
Definition mean (a : list float) : float := sum a / of_len (length a).

(** [np.std(a, ddof=ddof)]: the mean, the squared deviations, their sum
    divided by [max(N - ddof, 0)], the root. *)
Definition std (ddof : nat) (a : list float) : float :=
  let arrmean := mean a in
  PrimFloat.sqrt (sum (map (fun x => (x - arrmean) * (x - arrmean)) a)
                  / of_len (length a - ddof)).
End np64.

(** ** Insertion-ordered dictionaries of lists

  [groups.setdefault(k, []).append(v)] on a [dict] whose values are
  lists: the key keeps the position of its first insertion. *)

Section Groups.
Context {K V : Type} `{EqDecision K}.

Fixpoint setdefault_append (k : K) (v : V) (groups : list (K * list V))
  : list (K * list V) :=
  match groups with
  | [] => [(k, [v])]
  | (k', vs) :: rest =>
      if decide (k = k') then (k', vs ++ [v]) :: rest
      else (k', vs) :: setdefault_append k v rest
  end.

(** [groups.values()] *)
Definition values (groups : list (K * list V)) : list (list V) :=
  map snd groups.

(** [d[k]] for a dictionary given by its items; [dflt] stands for the
    [KeyError] case. *)
Fixpoint dict_get (dflt : V) (items : list (K * V)) (k : K) : V :=
  match items with
  | [] => dflt
  | (k', v) :: rest => if decide (k = k') then v else dict_get dflt rest k
  end.

(** The dictionary after the loop [for t in items:
    groups.setdefault(key(t), []).append(val(t))]. *)
Definition grouped {T : Type} (key : T -> K) (val : T -> V)
  (groups : list (K * list V)) (items : list T) : list (K * list V) :=
  foldl (fun g t => setdefault_append (key t) (val t) g) groups items.

(** The items that go to the key [k], in their order. *)
Definition with_key {T : Type} (key : T -> K) (k : K) (items : list T) : list T :=
  List.filter (fun t => bool_decide (key t = k)) items.
End Groups.

(** ** fc_checker.py *)

Module fc_checker.
Local Open Scope R_scope.

(** [load_map].  A row of the map file is the text of its codon cell
    and the integer that [astype(int)] makes of its orbit cell, [None]
    for a cell on which it raises (empty, or not a number).  The file
    must have 64 rows with 64 distinct codon texts; the result is the
    dictionary codon text -> int(orbit), in file order.  [None] is the
    [ValueError] of either step. *)
Definition load_map (rows : list (string * option Z)) : option (list (string * Z)) :=
  if decide (length rows = 64%nat /\ NoDup (map fst rows))
  then mapM (fun r => pair r.1 <$> r.2) rows
  else None.

(** [DEGEN = {c: ORBIT[c] for c in CODON_ORDER}] of [main]: the labels
    in codon order, [None] for the [KeyError] of a codon that is not a
    key of [ORBIT]. *)
Definition main_DEGEN (ORBIT : list (string * Z)) : option (list Z) :=
  mapM (fun name => (list_to_map ORBIT : gmap string Z) !! name)
       (map rna_name CODON_ORDER).

(** [to_rscu(counts, degen)].  [None] is the vector [np.full(64, nan)].
    [read_cutg] hands over rows of 64 counts; the default of [nth] stands
    for the [IndexError] of a shorter row. *)
Definition to_rscu (counts : list Z) (degen : codon -> Z) : option (list R) :=
  let total := foldr Z.add 0%Z counts in
  if (total =? 0)%Z then None
  else
    let freq := map (fun c => IZR c / IZR total) counts in
    Some (map (fun i => nth i freq 0 * IZR (degen (nth i CODON_ORDER UUU)))
              (seq 0 64)).

(** The dictionary [groups] built by the loop of [sigma_ratio]. *)
Definition build_groups (rscu : list R) (orbit : codon -> Z)
  : list (Z * list R) :=
  foldl (fun groups vc => setdefault_append (orbit vc.2) vc.1 groups)
        [] (combine rscu CODON_ORDER).

(** [[x - np.mean(v) for v in groups.values() for x in v]] *)
Definition intra {K} (groups : list (K * list R)) : list R :=
  flat_map (fun v => map (fun x => x - np.mean v) v) (values groups).

(** [[np.mean(v) for v in groups.values() for _ in v]] *)
Definition inter {K} (groups : list (K * list R)) : list R :=
  flat_map (fun v => map (fun _ => np.mean v) v) (values groups).

(** [sigma_ratio(rscu, orbit)]; [None] is the returned [np.nan]. *)
Definition sigma_ratio (rscu : list R) (orbit : codon -> Z) : option R :=
  let groups := build_groups rscu orbit in
  let den := np.std 1 (inter groups) in
  if Req_dec_T den 0 then None
  else Some (np.std 1 (intra groups) / den).

(** One turn of the row loop of [main]: a row whose RSCU vector holds a
    NaN is skipped ([continue]), a ratio is appended only when
    [math.isfinite] accepts it. *)
Definition main_row (orbit : codon -> Z) (ratios : list R) (row : list Z)
  : list R :=
  match to_rscu row orbit with
  | None => ratios
  | Some rscu =>
      match sigma_ratio rscu orbit with
      | Some r => ratios ++ [r]
      | None => ratios
      end
  end.

(** The list [ratios] after all rows of all tables. *)
Definition main_ratios (orbit : codon -> Z) (rows : list (list Z)) : list R :=
  foldl (main_row orbit) [] rows.

(** [med]; [None] is the [sys.exit("No valid rows ...")]. *)
Definition main_median (orbit : codon -> Z) (rows : list (list Z)) : option R :=
  match main_ratios orbit rows with
  | [] => None
  | ratios => Some (np.median ratios)
  end.

(** *** The shuffled-orbit null model of [main]

    The generator [np.random.default_rng(2025)] is a state [g] of an
    arbitrary type; [rng.shuffle(xs)] returns the next state and the
    shuffled list. *)

Section NullModel.
Context {rng : Type} (shuffle : rng -> list Z -> rng * list Z).

(** The body of the [for _ in range(args.null)] loop after the shuffle:
    the value appended to [null] for the shuffled labels. *)
Definition null_trial (base_orbits : list Z) : option R :=
  let fake := combine CODON_ORDER base_orbits in
  let groups :=
    foldl (fun groups c => setdefault_append (dict_get 0%Z fake c) 1 groups)
          [] CODON_ORDER in
  let d := np.std 1 (inter groups) in
  if Req_dec_T d 0 then None
  else Some (np.std 1 (intra groups) / d).

(** [n] turns of the loop; [base_orbits] is shuffled in place, so each
    turn starts from the list the previous one left. *)
Fixpoint null_loop (n : nat) (g : rng) (base_orbits : list Z)
  (null : list (option R)) : list (option R) :=
  match n with
  | O => null
  | S n' =>
      let '(g', shuffled) := shuffle g base_orbits in
      null_loop n' g' shuffled (null ++ [null_trial shuffled])
  end.

(** [[n for n in null if math.isfinite(n)]] *)
Definition finite_only (null : list (option R)) : list R :=
  omap (fun n : option R => n) null.

(** [sum(n <= med for n in null)] *)
Definition count_le (med : R) (null : list R) : nat :=
  length (List.filter (fun n => np.Rleb n med) null).

(** [z = (med - np.mean(null)) / np.std(null)]; [None] when the value is
    not a finite number (empty [null], or zero spread). *)
Definition z_score (med : R) (null : list R) : option R :=
  match null with
  | [] => None
  | _ => if Req_dec_T (np.std 0 null) 0 then None
         else Some ((med - np.mean null) / np.std 0 null)
  end.

(** [p = (sum(n <= med for n in null) + 1) / (len(null) + 1)] *)
Definition p_value (med : R) (null : list R) : R :=
  (INR (count_le med null) + 1) / (INR (length null) + 1).

(** The block under [if args.null:] of [main] for [N = args.null]: the
    pair (Z, P) that is printed.  [g0] is the state of
    [default_rng(2025)]. *)
Definition main_null (g0 : rng) (ORBIT : list (codon * Z)) (med : R) (N : nat)
  : option R * R :=
  let null := finite_only (null_loop N g0 (map snd ORBIT) []) in
  (z_score med null, p_value med null).
End NullModel.

(** *** [read_cutg]

    A row of the table is the list of its cells, a cell being the number
    that [pd.to_numeric(..., errors="coerce")] finds in it, if any.  The
    counts of the row are the last 64 cells with [fillna(0)]: the columns
    are taken by position ([df.iloc]) and then named ["species"] +
    [CODON_ORDER], whatever the header calls them.  (For a table with
    fewer than 64 columns [range(df.shape[1] - 64, ...)] starts below 0;
    such tables are outside this definition.) *)
Definition read_cutg_row (row : list (option Z)) : list Z :=
  map (default 0%Z) (drop (length row - 64) row).
End fc_checker.


(** ** fc_checker.py on doubles

    The functions of [fc_checker] with the arithmetic of the program.
    Counts and labels are Python integers; [counts / total] and
    [freq[i] * degen[...]] are one division and one multiplication of
    doubles each. *)

Module fc_checker64.
Local Open Scope float_scope.

(** [to_rscu(counts, degen)]; [None] is the vector [np.full(64, nan)]. *)
Definition to_rscu (counts : list Z) (degen : codon -> Z) : option (list float) :=
  let total := foldr Z.add 0%Z counts in
  if (total =? 0)%Z then None
  else
    let freq := map (fun c => np64.of_int c / np64.of_int total) counts in
    Some (map (fun i => nth i freq 0 * np64.of_int (degen (nth i CODON_ORDER UUU)))
              (seq 0 64)).

Definition build_groups (rscu : list float) (orbit : codon -> Z)
  : list (Z * list float) :=
  foldl (fun groups vc => setdefault_append (orbit vc.2) vc.1 groups)
        [] (combine rscu CODON_ORDER).

Definition intra (groups : list (Z * list float)) : list float :=
  flat_map (fun v => map (fun x => x - np64.mean v) v) (values groups).

Definition inter (groups : list (Z * list float)) : list float :=
  flat_map (fun v => map (fun _ => np64.mean v) v) (values groups).

(** [den] of [sigma_ratio]. *)
Definition den (rscu : list float) (orbit : codon -> Z) : float :=
  np64.std 1 (inter (build_groups rscu orbit)).

(** [sigma_ratio(rscu, orbit)]; the result is a double, NaN included. *)
Definition sigma_ratio (rscu : list float) (orbit : codon -> Z) : float :=
  if den rscu orbit =? 0 then nan
  else np64.std 1 (intra (build_groups rscu orbit)) / den rscu orbit.

(** One turn of the row loop of [main]. *)
Definition main_row (orbit : codon -> Z) (ratios : list float) (row : list Z)
  : list float :=
  match to_rscu row orbit with
  | None => ratios
  | Some rscu =>
      let r := sigma_ratio rscu orbit in
      if is_finite r then ratios ++ [r] else ratios
  end.

(** The list [ratios] after all rows of all tables. *)
Definition main_ratios (orbit : codon -> Z) (rows : list (list Z)) : list float :=
  foldl (main_row orbit) [] rows.
End fc_checker64.

(** ** simple_null_test.py *)

Module simple_null_test.
Local Open Scope R_scope.

(** [real_orbits]: the orbit label (degeneracy) of each codon, in
    [CODON_ORDER]. *)
Definition real_orbits : list Z :=
  [2;2;6;6;6;6;6;6;2;2;3;3;2;2;3;1;
   6;6;6;6;4;4;4;4;2;2;2;2;6;6;6;6;
   3;3;3;1;4;4;4;4;2;2;2;2;6;6;6;6;
   4;4;4;4;4;4;4;4;2;2;2;2;4;4;4;4]%Z.

(** [OBSERVED = 4.810] *)
Definition OBSERVED : R := 4810 / 1000.

(** [enumerate(xs)] *)
Definition enumerate {T : Type} (xs : list T) : list (nat * T) :=
  combine (seq 0 (length xs)) xs.

(** The body of [for row in sample_data] for one row: the ratio that is
    appended to [trial_ratios], or [None] when the row adds nothing
    (zero total, fewer than two values, or a ratio that is not finite). *)
Definition row_ratio (fake_orbits : list Z) (row : list Z) : option R :=
  let total := foldr Z.add 0%Z row in
  if (total =? 0)%Z then None
  else
    let freq := map (fun c => IZR c / IZR total) row in
    let rscu := zip_with (fun f o => f * IZR o) freq fake_orbits in
    let groups :=
      foldl (fun groups io => setdefault_append io.2 (nth io.1 rscu 0) groups)
            [] (enumerate fake_orbits) in
    let multi := List.filter (fun vs => (1 <? length vs)%nat) (values groups) in
    let intra_vals := flat_map (fun vs => map (fun v => v - np.mean vs) vs) multi in
    let inter_vals := flat_map (fun vs => repeat (np.mean vs) (length vs)) multi in
    if (1 <? length intra_vals)%nat && (1 <? length inter_vals)%nat
    then if Req_dec_T (np.std 1 inter_vals) 0 then None
         else Some (np.std 1 intra_vals / np.std 1 inter_vals)
    else None.

Section Run.
Context {rng : Type} (shuffle : rng -> list Z -> rng * list Z).

(** [trials] turns of [for trial in range(1000)]: every turn shuffles a
    fresh copy of [real_orbits] and appends the median of the trial's
    ratios when there is at least one. *)
Fixpoint trial_loop (trials : nat) (g : rng) (sample_data : list (list Z))
  (null_ratios : list R) : list R :=
  match trials with
  | O => null_ratios
  | S n =>
      let '(g', fake_orbits) := shuffle g real_orbits in
      let trial_ratios := omap (row_ratio fake_orbits) sample_data in
      trial_loop n g' sample_data
        (match trial_ratios with
         | [] => null_ratios
         | _ => null_ratios ++ [np.median trial_ratios]
         end)
  end.

(** [(null_ratios >= OBSERVED).mean()]; [None] is the NaN of an empty
    array. *)
Definition p_value (null_ratios : list R) : option R :=
  match null_ratios with
  | [] => None
  | _ => Some (INR (length (List.filter (fun n => np.Rleb OBSERVED n) null_ratios))
               / INR (length null_ratios))
  end.

(** [(OBSERVED - null_mean) / null_std] *)
Definition z_score (null_ratios : list R) : option R :=
  match null_ratios with
  | [] => None
  | _ => if Req_dec_T (np.std 0 null_ratios) 0 then None
         else Some ((OBSERVED - np.mean null_ratios) / np.std 0 null_ratios)
  end.

(** The whole script for the rows [sample_data] that [df.sample] drew
    and the state [g0] of [default_rng(2025)]: the printed (Z, P). *)
Definition run (g0 : rng) (sample_data : list (list Z)) : option R * option R :=
  let null_ratios := trial_loop 1000 g0 sample_data [] in
  (z_score null_ratios, p_value null_ratios).
End Run.

(** What [df[codon_cols].sample(sample_size)] may return for the table
    [df]: [min(1000, len(df))] of its rows, in any order. *)
Definition is_sample (df sample_data : list (list Z)) : Prop :=
  length sample_data = Nat.min 1000 (length df)
  /\ exists rest, sample_data ++ rest ≡ₚ df.
End simple_null_test.

(** ** paired_fc_analysis.py *)

Module paired_fc_analysis.
Local Open Scope R_scope.

(** [codon.replace('T', 'U')] *)
Fixpoint convert_dna_to_rna (codon : string) : string :=
  match codon with
  | EmptyString => EmptyString
  | String c rest =>
      String (if decide (c = "T"%char) then "U"%char else c)
             (convert_dna_to_rna rest)
  end.

Section Compliance.
(** [row] gives the count of a column, [orbit_map] is the dictionary
    RNA codon -> orbit id. *)
Context {orbit_id : Type} `{EqDecision orbit_id}.
Context (row : string -> Z) (orbit_map : gmap string orbit_id).

(** The dictionary [orbit_codons] after the first loop. *)
Definition orbit_codons (codon_cols : list string) : list (orbit_id * list string) :=
  foldl (fun groups codon =>
           match orbit_map !! convert_dna_to_rna codon with
           | Some orbit => setdefault_append orbit codon groups
           | None => groups
           end) [] codon_cols.

(** [family_total = sum(row[c] for c in codons)] *)
Definition family_total (codons : list string) : Z :=
  foldr Z.add 0%Z (map row codons).

(** The list [rscus] of one family. *)
Definition family_rscus (codons : list string) : list R :=
  map (fun codon =>
         let expected := IZR (family_total codons) / INR (length codons) in
         if Rlt_dec 0 expected then IZR (row codon) / expected else 0)
      codons.

(** One turn of [for orbit, codons in orbit_codons.items()] on the pair
    ([intra_dispersions], [orbit_means]), in exact arithmetic. *)
Definition family_step (acc : list R * list R) (codons : list string)
  : list R * list R :=
  if (1 <? length codons)%nat && (0 <? family_total codons)%Z
  then (acc.1 ++ [np.std 0 (family_rscus codons)],
        acc.2 ++ [np.mean (family_rscus codons)])
  else acc.
End Compliance.
End paired_fc_analysis.

(** ** paired_fc_analysis.py on doubles

    [calculate_fc_compliance] with the arithmetic of the program: the
    counts are integers, [family_total / len(codons)] and
    [row[codon] / expected] are divisions of doubles. *)

Module paired_fc_analysis64.
Local Open Scope float_scope.

(** The result dictionary of [calculate_fc_compliance]. *)
Record fc_metrics : Type := {
  sigma_intra : float;
  sigma_inter : float;
  fc_ratio : float;
  n_orbits : nat
}.

Section Compliance.
Context {orbit_id : Type} `{EqDecision orbit_id}.
Context (row : string -> Z) (orbit_map : gmap string orbit_id).

(** The list [rscus] of one family. *)
Definition family_rscus (codons : list string) : list float :=
  map (fun codon =>
         let expected := np64.of_int (paired_fc_analysis.family_total row codons)
                         / np64.of_len (length codons) in
         if 0 <? expected then np64.of_int (row codon) / expected else 0)
      codons.

(** One turn of [for orbit, codons in orbit_codons.items()] on the pair
    ([intra_dispersions], [orbit_means]). *)
Definition family_step (acc : list float * list float) (codons : list string)
  : list float * list float :=
  if (1 <? length codons)%nat && (0 <? paired_fc_analysis.family_total row codons)%Z
  then (acc.1 ++ [np64.std 0 (family_rscus codons)],
        acc.2 ++ [np64.mean (family_rscus codons)])
  else acc.

Definition calculate_fc_compliance (codon_cols : list string) : fc_metrics :=
  let '(intra_dispersions, orbit_means) :=
    foldl family_step ([], [])
          (values (paired_fc_analysis.orbit_codons orbit_map codon_cols)) in
  let s_intra :=
    match intra_dispersions with
    | [] => nan
    | _ => np64.mean intra_dispersions
    end in
  let s_inter :=
    if (1 <? length orbit_means)%nat then np64.std 0 orbit_means else nan in
  {| sigma_intra := s_intra;
     sigma_inter := s_inter;
     fc_ratio := if 0 <? s_inter then s_intra / s_inter else nan;
     n_orbits := length orbit_means |}.
End Compliance.
End paired_fc_analysis64.

(** ** agg_codon_by_taxid.py *)

Module agg_codon_by_taxid.
Local Open Scope Z_scope.

(** [bases = "TCAG"] *)
Definition bases : list ascii := ["T"; "C"; "A"; "G"]%char.

(** [[a + b + c for a in bases for b in bases for c in bases]] *)
Definition _codon_columns : list string :=
  flat_map (fun a => flat_map (fun b =>
    map (fun c => String a (String b (String c EmptyString))) bases) bases) bases.

(** A row of the [csv.DictReader]: the two key fields and, for a column
    name [c], the integer [int(row[c])]. *)
Record in_row : Type := {
  Taxid : string;
  Organelle : string;
  cell : string -> Z
}.

Arguments _codon_columns : simpl never.

Definition key_of (row : in_row) : string * string := (Taxid row, Organelle row).

(** [acc[c]] *)
Definition acc_get (acc : gmap string Z) (c : string) : Z := default 0 (acc !! c).

(** [{c: 0 for c in codon_cols}] *)
Definition new_acc (codon_cols : list string) : gmap string Z :=
  list_to_map (map (fun c => (c, 0)) codon_cols).

(** The statements of the loop body that follow the outer [setdefault]:
    [acc.setdefault("#CDS", 0)], the 64 additions and the [#CDS]
    increment. *)
Definition update_acc (codon_cols : list string) (row : in_row)
  (acc : gmap string Z) : gmap string Z :=
  let acc1 := match acc !! "#CDS"%string with
              | Some _ => acc
              | None => <["#CDS"%string := 0]> acc
              end in
  let acc2 := foldl (fun a c => <[c := acc_get a c + cell row c]> a) acc1 codon_cols in
  <["#CDS"%string := acc_get acc2 "#CDS" + 1]> acc2.

(** [counts.setdefault(key, {...})] followed by the update of the
    accumulator found or created. *)
Fixpoint counts_step (codon_cols : list string) (row : in_row)
  (counts : list ((string * string) * gmap string Z))
  : list ((string * string) * gmap string Z) :=
  match counts with
  | [] => [(key_of row, update_acc codon_cols row (new_acc codon_cols))]
  | (k, acc) :: rest =>
      if decide (key_of row = k)
      then (k, update_acc codon_cols row acc) :: rest
      else (k, acc) :: counts_step codon_cols row rest
  end.

(** The dictionary [counts] after the aggregation loop. *)
Definition aggregate (rows : list in_row)
  : list ((string * string) * gmap string Z) :=
  foldl (fun counts row => counts_step _codon_columns row counts) [] rows.

(** A row handed to the [csv.DictWriter]; [o_codons] holds the 64 codon
    fields in the order of [codon_cols]. *)
Record out_row : Type := {
  o_Taxid : string;
  o_Organelle : string;
  o_codons : list Z;
  o_CDS : Z;
  o_Codons : Z
}.

Definition write_row (item : (string * string) * gmap string Z) : out_row :=
  let acc := item.2 in
  {| o_Taxid := item.1.1;
     o_Organelle := item.1.2;
     o_codons := map (acc_get acc) _codon_columns;
     o_CDS := acc_get acc "#CDS";
     o_Codons := foldr Z.add 0 (map (acc_get acc) _codon_columns) |}.

(** The rows [main] writes for the input rows. *)
Definition main (rows : list in_row) : list out_row :=
  map write_row (aggregate rows).

(** [fieldnames], the columns of the written table in their order. *)
Definition fieldnames : list string :=
  ["Taxid"; "Organelle"]%string ++ _codon_columns ++ ["#CDS"; "#Codons"]%string.

(** *** [_parse_int_with_suffix]

    A text is the list of its code points. *)

(** The code points of a text of one-byte characters. *)
Definition code_points (text : string) : list N :=
  map N_of_ascii (String.list_ascii_of_string text).

Section ParseInt.
(** What Python brings along: the value of a decimal digit outside
    ASCII (the code points of the Unicode category Nd, which [\d] and
    [int] accept), asked only for code points from 128 on, and
    [sys.get_int_max_str_digits()], 0 when there is no limit. *)
Context (decimal_value : N -> option Z) (int_max_str_digits : nat).

(** The value of a code point that [\d] matches. *)
Definition digit_value (c : N) : option Z :=
  if (c <? 128)%N
  then if (48 <=? c)%N && (c <=? 57)%N then Some (Z.of_N c - 48) else None
  else decimal_value c.

Definition is_digit (c : N) : bool :=
  match digit_value c with Some _ => true | None => false end.

(** The longest prefix of digits and what follows it. *)
Fixpoint span_digits (text : list N) : list N * list N :=
  match text with
  | [] => ([], [])
  | c :: rest =>
      if is_digit c
      then let '(num, tail) := span_digits rest in (c :: num, tail)
      else ([], text)
  end.

(** [re.fullmatch(r"(\d+)([kKmM]?)", text)]: the two groups, or [None]
    when there is no match. *)
Definition fullmatch (text : list N) : option (list N * list N) :=
  let '(num, tail) := span_digits text in
  match num, tail with
  | [], _ => None
  | _, [] => Some (num, [])
  | _, [c] =>
      if bool_decide (c ∈ code_points "kKmM") then Some (num, tail) else None
  | _, _ => None
  end.

(** [int(num)] for a text of digits; [None] is the [ValueError] for a
    text of more digits than the limit. *)
Definition int_of_digits (num : list N) : option Z :=
  if (0 <? int_max_str_digits)%nat && (int_max_str_digits <? length num)%nat
  then None
  else Some (foldl (fun n c => 10 * n + default 0 (digit_value c)) 0 num).

(** [_parse_int_with_suffix(text)]; [None] is the [ValueError]. *)
Definition _parse_int_with_suffix (text : list N) : option Z :=
  match fullmatch text with
  | None => None
  | Some (num, suf) =>
      match int_of_digits num with
      | None => None
      | Some n =>
          if bool_decide (suf ∈ [code_points "k"; code_points "K"]) then Some (n * 1000)
          else if bool_decide (suf ∈ [code_points "m"; code_points "M"])
               then Some (n * 1000000)
               else Some n
      end
  end.
End ParseInt.
End agg_codon_by_taxid.

(** ** cds_to_species_hardwired.py

    A data frame is the list of its rows.  A row has the [Species] cell
    ([None] for a missing value), the cells of the int64 columns and the
    cells of the float64 columns; a column is taken to have the same
    dtype in every chunk.  [groupby("Species").sum()] leaves out the
    rows without key and sums every numeric column per key over the rows
    in their order: an int64 column with wrap-around, a float64 column
    by compensated summation that skips NaN.  The grouped frame has one
    row per key; it is kept as a [gmap] from the key to the sums of the
    int64 and of the float64 columns. *)

Module cds_to_species_hardwired.

Record df_row : Type := {
  Species : option string;
  ints : list Z;
  floats : list float
}.

(** The value of an integer as an int64. *)
Definition wrap64 (z : Z) : Z := ((z + 2 ^ 63) mod 2 ^ 64 - 2 ^ 63)%Z.

Definition add64 (x y : Z) : Z := wrap64 (x + y).

(** One row added to the running sums of the int64 columns. *)
Definition add_rows (a b : list Z) : list Z := zip_with add64 a b.

(** The sums of the int64 columns over the rows of a group. *)
Definition sum_ints (group : list (list Z)) : list Z :=
  match group with
  | [] => []
  | first :: _ => foldl add_rows (map (fun _ => 0%Z) first) group
  end.

(** One value added to the running sum and compensation of a float64
    column. *)
Definition kahan_step (sc : float * float) (val : float) : float * float :=
  if is_nan val then sc
  else
    let y := (val - sc.2)%float in
    let t := (sc.1 + y)%float in
    let c := (t - sc.1 - y)%float in
    (t, if is_nan c then 0%float else c).

(** The sums of the float64 columns over the rows of a group. *)
Definition sum_floats (group : list (list float)) : list float :=
  match group with
  | [] => []
  | first :: _ =>
      map fst (foldl (zip_with kahan_step) (map (fun _ => (0, 0)%float) first) group)
  end.

(** The sums of one key. *)
Definition totals : Type := (list Z * list float)%type.

Definition group_sum (group : list df_row) : totals :=
  (sum_ints (map ints group), sum_floats (map floats group)).

(** The rows of every key, in their order; rows without key are left
    out. *)
Definition group_rows (frame : list df_row) : gmap string (list df_row) :=
  foldl (fun groups r =>
           match Species r with
           | Some k => <[k := default [] (groups !! k) ++ [r]]> groups
           | None => groups
           end) ∅ frame.

(** [frame.groupby("Species", as_index=False).sum()] *)
Definition groupby_sum (frame : list df_row) : gmap string totals :=
  group_sum <$> group_rows frame.

(** The rows of a grouped frame. *)
Definition frame_rows (m : gmap string totals) : list df_row :=
  map (fun kt => {| Species := Some kt.1; ints := kt.2.1; floats := kt.2.2 |})
      (map_to_list m).

(** [pd.concat([agg, batch_sum])] *)
Definition concat_frames (a b : gmap string totals) : list df_row :=
  frame_rows a ++ frame_rows b.

(** One turn of the chunk loop on [agg]; [None] is Python's [None]. *)
Definition chunk_step (agg : option (gmap string totals)) (chunk : list df_row)
  : option (gmap string totals) :=
  let batch_sum := groupby_sum chunk in
  match agg with
  | None => Some batch_sum
  | Some a => Some (groupby_sum (concat_frames a batch_sum))
  end.

(** [agg] after the loop over the chunks that [pd.read_csv(...,
    chunksize=CHUNK)] yields. *)
Definition aggregate_chunks (chunks : list (list df_row))
  : option (gmap string totals) :=
  foldl chunk_step None chunks.

(** The chunks of [n] rows each (the last one may be shorter) of a
    table. *)
Fixpoint chunks_of_aux (fuel n : nat) (rows : list df_row) : list (list df_row) :=
  match fuel, rows with
  | _, [] => []
  | O, _ => []
  | S fuel', _ => take n rows :: chunks_of_aux fuel' n (drop n rows)
  end.

Definition chunks_of (n : nat) (rows : list df_row) : list (list df_row) :=
  chunks_of_aux (length rows) n rows.

Definition CHUNK : nat := Z.to_nat 50000.

(** The merge of two partial results: the step of the chunk loop on two
    frames that are already grouped. *)
Definition merge (a b : gmap string totals) : gmap string totals :=
  groupby_sum (concat_frames a b).
End cds_to_species_hardwired.

(** ** orbit_by_orbit_analysis.py *)

Module orbit_by_orbit_analysis.
Local Open Scope R_scope.

(** A row of the table: the counts under the column names of its index. *)
Definition data_row : Type := gmap string Z.

(** [[data_row[codon] for codon in family_codons if codon in
    data_row.index]] *)
Definition counts (row : data_row) (family_codons : list string) : list Z :=
  omap (fun codon => row !! codon) family_codons.

(** [np.array(counts) / sum(counts)] *)
Definition freqs (row : data_row) (family_codons : list string) : list R :=
  map (fun c => IZR c / IZR (foldr Z.add 0%Z (counts row family_codons)))
      (counts row family_codons).

(** [calculate_within_orbit_variance(data_row, family_codons)]; [None]
    is the returned [np.nan]. *)
Definition calculate_within_orbit_variance (row : data_row)
  (family_codons : list string) : option R :=
  if (length family_codons <=? 1)%nat then None
  else if (length (counts row family_codons) <=? 1)%nat
          || (foldr Z.add 0%Z (counts row family_codons) =? 0)%Z
  then None
  else
    let mean_freq := np.mean (freqs row family_codons) in
    if Req_dec_T mean_freq 0 then None
    else Some (np.std 1 (freqs row family_codons) / mean_freq).
End orbit_by_orbit_analysis.

(** ** fix_hive_header.py *)

Module fix_hive_header.

(** The 64 DNA codons in the order of [FIXED_HEADER]. *)
Definition FIXED_CODONS : list string :=
  ["TTT"; "TTC"; "TTA"; "TTG"; "CTT"; "CTC"; "CTA"; "CTG";
   "ATT"; "ATC"; "ATA"; "ATG"; "GTT"; "GTC"; "GTA"; "GTG";
   "TAT"; "TAC"; "TAA"; "TAG"; "CAT"; "CAC"; "CAA"; "CAG";
   "AAT"; "AAC"; "AAA"; "AAG"; "GAT"; "GAC"; "GAA"; "GAG";
   "TCT"; "TCC"; "TCA"; "TCG"; "CCT"; "CCC"; "CCA"; "CCG";
   "ACT"; "ACC"; "ACA"; "ACG"; "GCT"; "GCC"; "GCA"; "GCG";
   "TGT"; "TGC"; "TGA"; "TGG"; "CGT"; "CGC"; "CGA"; "CGG";
   "AGT"; "AGC"; "AGA"; "AGG"; "GGT"; "GGC"; "GGA"; "GGG"]%string.

Definition FIXED_HEADER : list string :=
  ["Division"; "Assembly"; "Taxid"; "Species"; "Organelle";
   "Translation Table"; "# CDS"; "# Codons";
   "GC%"; "GC1%"; "GC2%"; "GC3%"]%string ++ FIXED_CODONS.

Section Main.
(** The cells of the frame that [pd.read_csv(..., skiprows=1,
    header=None, dtype=str)] returns, row by row; every row has as many
    cells as the frame has columns. *)
Context {cell : Type}.

(** [main] from the frame [body] on: the header and the rows that are
    written.  [None] stands for the two exits: no data row at all (the
    reader finds no columns), or a column count that is still not that
    of [FIXED_HEADER] after the extra column 76 was dropped. *)
Definition main (body : list (list cell)) : option (list string * list (list cell)) :=
  match body with
  | [] => None
  | first :: _ =>
      let ncols := length first in
      let body1 :=
        if (ncols =? length FIXED_HEADER + 1)%nat
        then map (fun row => take 76 row ++ drop 77 row) body
        else body in
      let ncols1 := if (ncols =? length FIXED_HEADER + 1)%nat then (ncols - 1)%nat else ncols in
      if (ncols1 =? length FIXED_HEADER)%nat then Some (FIXED_HEADER, body1) else None
  end.
End Main.
End fix_hive_header.

(** The orbit map file that [real_orbits] mirrors, as the dictionary
    [load_map] returns. *)
Definition standard_ORBIT : list (codon * Z) :=
  combine CODON_ORDER simple_null_test.real_orbits.

(** [ORBIT[c]] for the standard map. *)
Definition standard_orbit : codon -> Z := dict_get 0%Z standard_ORBIT.

(** ** Sample organisms *)

(** The organism with one occurrence of every codon. *)
Definition all_ones : list Z := repeat 1%Z 64.

(** The organism without any codon. *)
Definition all_zeros : list Z := repeat 0%Z 64.

(** The organism whose count of a codon is 12 divided by the codon's
    label: every RSCU value is 12/252. *)
Definition flat_counts : list Z :=
  map (fun l => (12 / l)%Z) simple_null_test.real_orbits.

(** The organism of the specification's scenario: AAA = AAG = 10,
    GUU = GUC = GUA = GUG = 5, every other codon 0 (total 40). *)
Definition Lys : list codon := [(ntA, ntA, ntA); (ntA, ntA, ntG)].
Definition Val : list codon :=
  [(ntG, ntU, ntU); (ntG, ntU, ntC); (ntG, ntU, ntA); (ntG, ntU, ntG)].

Definition lys_val_counts : list Z :=
  map (fun c => if bool_decide (c ∈ Lys) then 10%Z
                else if bool_decide (c ∈ Val) then 5%Z else 0%Z) CODON_ORDER.

(** An orbit map in which {AAA, AAG} is the only orbit with label 2 and
    {GUU, GUC, GUA, GUG} the only one with label 4; the other 58 codons
    share the label 58. *)
Definition lys_val_orbit (c : codon) : Z :=
  if bool_decide (c ∈ Lys) then 2%Z
  else if bool_decide (c ∈ Val) then 4%Z else 58%Z.

(** The same organism as a table row addressed by DNA column names. *)
Definition lys_val_row (column : string) : Z :=
  if bool_decide (column ∈ ["AAA"; "AAG"]%string) then 10%Z
  else if bool_decide (column ∈ ["GTT"; "GTC"; "GTA"; "GTG"]%string) then 5%Z
  else 0%Z.

(** The standard map as the dictionary RNA codon -> orbit id that
    [load_orbit_map] returns. *)
Definition standard_orbit_map : gmap string Z :=
  list_to_map (map (fun cl => (rna_name cl.1, cl.2)) standard_ORBIT).

(** The organism whose counts are 1, 2, ..., 64 in the order of the
    codon columns TTT, TTC, ..., GGG. *)
Definition ramp_row (column : string) : Z :=
  match list_find (fun c => bool_decide (c = column)) agg_codon_by_taxid._codon_columns with
  | Some (i, _) => Z.of_nat i + 1
  | None => 0
  end.

(** The organism with a single codon, one UUU. *)
Definition one_hot : list Z := 1%Z :: repeat 0%Z 63.

(** A table of 1001 organisms: 1000 without any codon and [one_hot]. *)
Definition sparse_table : list (list Z) := repeat all_zeros 1000 ++ [one_hot].

(** Two samples of 1000 rows that [df.sample] may draw from it. *)
Definition sample_without : list (list Z) := repeat all_zeros 1000.
Definition sample_with : list (list Z) := one_hot :: repeat all_zeros 999.

(** The RSCU vector of [one_hot] under the standard map: 2 at UUU, 0
    elsewhere. *)
Definition one_hot_rscu : list R := 2%R :: repeat 0%R 63.

(** ** Notions of the specification *)

(** The number of codons that share the orbit label of [c]. *)
Definition orbit_size (orbit : codon -> Z) (c : codon) : nat :=
  length (List.filter (fun c' => bool_decide (orbit c' = orbit c)) CODON_ORDER).

(** The counts are uniform within every orbit: codons with the same
    orbit label carry the same count. *)
Definition uniform_within_orbits (counts : list Z) (orbit : codon -> Z) : bool :=
  forallb (fun i => forallb (fun j =>
    implb (orbit (nth i CODON_ORDER UUU) =? orbit (nth j CODON_ORDER UUU))%Z
          (nth i counts 0 =? nth j counts 0)%Z) (seq 0 64)) (seq 0 64).

(** The dispersion ratio in the words of the specification.  The i-th
    RSCU value belongs to the i-th codon of [CODON_ORDER]; the group of a
    label holds the values of the codons that carry it. *)
Definition spec_members (rscu : list R) (orbit : codon -> Z) (label : Z) : list R :=
  map fst (List.filter (fun vc => bool_decide (orbit vc.2 = label))
                       (combine rscu CODON_ORDER)).

(** Each member's deviation from the mean of its group. *)
Definition spec_intra_set (rscu : list R) (orbit : codon -> Z) : list R :=
  map (fun vc => (vc.1 - np.mean (spec_members rscu orbit (orbit vc.2)))%R)
      (combine rscu CODON_ORDER).

(** The mean of each group, once per member codon of the group. *)
Definition spec_inter_set (rscu : list R) (orbit : codon -> Z) : list R :=
  map (fun vc => np.mean (spec_members rscu orbit (orbit vc.2)))
      (combine rscu CODON_ORDER).

(** sigma_intra / sigma_inter with ddof = 1, undefined when sigma_inter
    is zero. *)
Definition spec_fc_ratio (rscu : list R) (orbit : codon -> Z) : option R :=
  if Req_dec_T (np.std 1 (spec_inter_set rscu orbit)) 0 then None
  else Some (np.std 1 (spec_intra_set rscu orbit)
             / np.std 1 (spec_inter_set rscu orbit))%R.

(** The number of input rows that bear the key [k]. *)
Definition rows_with_key (k : string * string)
  (rows : list agg_codon_by_taxid.in_row) : nat :=
  length (List.filter (fun r => bool_decide (agg_codon_by_taxid.key_of r = k)) rows).

(** The state of the loop after the rows [seen]: the keys of [counts]
    are distinct, they are the keys of the rows seen, and every [#CDS]
    entry is the number of rows seen with its key. *)
Definition counts_ok (seen : list agg_codon_by_taxid.in_row)
  (counts : list ((string * string) * gmap string Z)) : Prop :=
  List.NoDup (map fst counts)
  /\ (forall r, In r seen -> In (agg_codon_by_taxid.key_of r) (map fst counts))
  /\ (forall k acc, In (k, acc) counts ->
        agg_codon_by_taxid.acc_get acc "#CDS"%string = Z.of_nat (rows_with_key k seen)).

(** Three input rows, two of them with the same key. *)
Definition sample_in_rows : list agg_codon_by_taxid.in_row :=
  [ {| agg_codon_by_taxid.Taxid := "9606"; agg_codon_by_taxid.Organelle := "genomic";
       agg_codon_by_taxid.cell := fun _ => 3%Z |};
    {| agg_codon_by_taxid.Taxid := "9606"; agg_codon_by_taxid.Organelle := "mitochondrion";
       agg_codon_by_taxid.cell := fun _ => 1%Z |};
    {| agg_codon_by_taxid.Taxid := "9606"; agg_codon_by_taxid.Organelle := "genomic";
       agg_codon_by_taxid.cell := fun _ => 4%Z |} ].

(** A table of five rows over three species and one row without
    species: the int64 columns [# CDS] and [# Codons], the float64
    column [GC%]. *)
Definition sample_frame : list cds_to_species_hardwired.df_row :=
  let row k i f := cds_to_species_hardwired.Build_df_row k i f in
  [row (Some "Homo sapiens"%string) [10; 1]%Z [40.5%float];
   row (Some "Mus musculus"%string) [7; 2]%Z [42.25%float];
   row (Some "Homo sapiens"%string) [5; 3]%Z [41.5%float];
   row None [4; 4]%Z [39%float];
   row (Some "Danio rerio"%string) [1; 1]%Z [36.75%float];
   row (Some "Mus musculus"%string) [2; 2]%Z [43%float]].

(** A table of four coding sequences of one species with their [# CDS],
    [# Codons] and [GC%]: 40.1, 40.1, 40.1 and 38.9 (the doubles nearest
    to these). *)
Definition gc_frame : list cds_to_species_hardwired.df_row :=
  let row i f := cds_to_species_hardwired.Build_df_row (Some "Homo sapiens"%string) i f in
  [row [1; 300]%Z [(401 / 10)%float]; row [1; 450]%Z [(401 / 10)%float];
   row [1; 600]%Z [(401 / 10)%float]; row [1; 150]%Z [(389 / 10)%float]].

(** The sums of the int64 columns of a grouped frame. *)
Definition int_totals (m : gmap string cds_to_species_hardwired.totals)
  : gmap string (list Z) := fst <$> m.

(** The sums of the float64 columns of a grouped frame. *)
Definition float_totals (m : gmap string cds_to_species_hardwired.totals)
  : gmap string (list float) := snd <$> m.

(** The rows of a frame that bear the key [k], in their order. *)
Definition rows_with (k : string) (frame : list cds_to_species_hardwired.df_row)
  : list cds_to_species_hardwired.df_row :=
  List.filter (fun r => bool_decide (cds_to_species_hardwired.Species r = Some k)) frame.

(** The rows of a key gathered so far, followed by further ones. *)
Definition app_opt (o : option (list cds_to_species_hardwired.df_row))
  (l : list cds_to_species_hardwired.df_row)
  : option (list cds_to_species_hardwired.df_row) :=
  match o, l with
  | None, [] => None
  | _, _ => Some (default [] o ++ l)
  end.

(** The int64 sums of a group, if it has a row. *)
Definition osum (group : list (list Z)) : option (list Z) :=
  match group with
  | [] => None
  | _ => Some (cds_to_species_hardwired.sum_ints group)
  end.

Definition olist (o : option (list Z)) : list (list Z) :=
  match o with
  | Some x => [x]
  | None => []
  end.

(** The ratio that one turn of the row loop of [fc_checker.main] appends
    for a row, if it appends one. *)
Definition appended_ratio (orbit : codon -> Z) (row : list Z) : option R :=
  match fc_checker.to_rscu row orbit with
  | None => None
  | Some rscu => fc_checker.sigma_ratio rscu orbit
  end.

(** The decimal text of a list of digits, and the number it denotes. *)
Definition digits_text (ds : list nat) : list N :=
  map (fun d => (48 + N.of_nat d)%N) ds.

Definition digits_number (ds : list nat) : Z :=
  foldl (fun n d => 10 * n + Z.of_nat d)%Z 0%Z ds.

(** The text after the digits: empty, or starting with a code point
    that is not a digit. *)
Definition no_leading_digit (decimal_value : N -> option Z) (tail : list N) : Prop :=
  match tail with
  | [] => True
  | c :: _ => agg_codon_by_taxid.is_digit decimal_value c = false
  end.

(** The factor that a suffix stands for. *)
Definition multiplier (suf : list N) : Z :=
  if bool_decide (suf ∈ [agg_codon_by_taxid.code_points "k";
                         agg_codon_by_taxid.code_points "K"]) then 1000%Z
  else if bool_decide (suf ∈ [agg_codon_by_taxid.code_points "m";
                              agg_codon_by_taxid.code_points "M"]) then 1000000%Z
  else 1%Z.

(** The suffixes that the pattern takes. *)
Definition suffixes : list (list N) :=
  [[]; agg_codon_by_taxid.code_points "k"; agg_codon_by_taxid.code_points "K";
   agg_codon_by_taxid.code_points "m"; agg_codon_by_taxid.code_points "M"].

(** The texts whose code points are all below 128. *)
Definition is_ascii (text : list N) : Prop := Forall (fun c => (c < 128)%N) text.

(** Whether [int] takes a text of [n] digits. *)
Definition within_limit (int_max_str_digits n : nat) : Prop :=
  int_max_str_digits = 0%nat \/ (n <= int_max_str_digits)%nat.

(** The sum of the column [c] over the input rows with the key [k]. *)
Definition column_total (k : string * string) (c : string)
  (rows : list agg_codon_by_taxid.in_row) : Z :=
  foldr Z.add 0%Z
    (map (fun r => agg_codon_by_taxid.cell r c) (with_key agg_codon_by_taxid.key_of k rows)).

(** The state of the aggregation loop, for the codon columns: every
    accumulator holds the column totals of the rows seen with its key. *)
Definition columns_ok (seen : list agg_codon_by_taxid.in_row)
  (counts : list ((string * string) * gmap string Z)) : Prop :=
  forall k acc c, In (k, acc) counts -> In c agg_codon_by_taxid._codon_columns ->
    agg_codon_by_taxid.acc_get acc c = column_total k c seen.

(** The DNA name of a codon, as the tables spell it. *)
Definition dna_letter (b : base) : ascii :=
  match b with ntU => "T" | ntC => "C" | ntA => "A" | ntG => "G" end%char.

Definition dna_name (c : codon) : string :=
  String (dna_letter c.1.1) (String (dna_letter c.1.2) (String (dna_letter c.2) EmptyString)).

(** The rows of the standard map file, and the same map with the
    codons spelled as DNA. *)
Definition standard_rows : list (string * option Z) :=
  map (fun cl => (rna_name cl.1, Some cl.2)) standard_ORBIT.

Definition dna_rows : list (string * option Z) :=
  map (fun cl => (dna_name cl.1, Some cl.2)) standard_ORBIT.

(** The codon whose column stands, in [fix_hive_header.FIXED_HEADER],
    at the place that the codon [c] has in [CODON_ORDER]: the header
    runs through the second base in the order T, A, C, G, then through
    the first base and the third in the order T, C, A, G. *)
Definition swapCA (b : base) : base :=
  match b with ntC => ntA | ntA => ntC | ntU => ntU | ntG => ntG end.

Definition header_codon (c : codon) : codon := (c.1.2, swapCA c.1.1, c.2).


(** A generator that leaves every list as it is. *)
Definition no_shuffle (g : unit) (xs : list Z) : unit * list Z := (g, xs).

(** * Properties *)

Section RSCU.
Local Open Scope R_scope.
Import fc_checker.

Lemma nth_map_seq {T : Type} (f : nat -> T) (d : T) (n i : nat) :
  (i < n)%nat -> nth i (map f (seq 0 n)) d = f i.
Proof.
  intros Hi. rewrite (nth_indep _ d (f 0%nat)) by now rewrite length_map, length_seq.
  rewrite map_nth. f_equal. now rewrite seq_nth.
Qed.

Lemma nth_freq (counts : list Z) (total : Z) (i : nat) :
  nth i (map (fun c => IZR c / IZR total) counts) 0
  = IZR (nth i counts 0%Z) / IZR total.
Proof.
  revert i; induction counts as [|c counts IH]; intros [|i]; simpl; auto;
    unfold Rdiv; now rewrite Rmult_0_l.
Qed.

Lemma to_rscu_nth (counts : list Z) (degen : codon -> Z) (i : nat) :
  foldr Z.add 0%Z counts <> 0%Z -> (i < 64)%nat ->
  exists rscu,
    to_rscu counts degen = Some rscu /\ length rscu = 64%nat /\
    nth i rscu 0
    = IZR (nth i counts 0%Z) / IZR (foldr Z.add 0%Z counts)
      * IZR (degen (nth i CODON_ORDER UUU)).
Proof.
  intros Htot Hi. unfold to_rscu.
  destruct (Z.eqb_spec (foldr Z.add 0%Z counts) 0) as [E|_]; [contradiction|].
  eexists; split; [reflexivity|]. split.
  - now rewrite length_map, length_seq.
  - rewrite nth_map_seq by assumption. now rewrite nth_freq.
Qed.

Lemma standard_orbit_UUU :
  standard_orbit (nth 0 CODON_ORDER UUU) = 2%Z
  /\ orbit_size standard_orbit (nth 0 CODON_ORDER UUU) = 18%nat.
Proof. split; vm_compute; reflexivity. Qed.

(** C3 (amended): for an organism with positive total, [to_rscu] gives
    codon i the value (count_i / total) * label(codon_i), where the label
    is the integer the orbit map assigns to the codon; this is the value
    (count_i / total) * orbit_size(codon_i) whenever that label equals the
    number of codons sharing it. *)
Theorem to_rscu_label_formula (counts : list Z) (degen : codon -> Z) (i : nat) :
  (0 < foldr Z.add 0 counts)%Z -> (i < 64)%nat ->
  exists rscu,
    to_rscu counts degen = Some rscu /\
    nth i rscu 0
    = IZR (nth i counts 0%Z) / IZR (foldr Z.add 0%Z counts)
      * IZR (degen (nth i CODON_ORDER UUU)) /\
    (Z.of_nat (orbit_size degen (nth i CODON_ORDER UUU))
       = degen (nth i CODON_ORDER UUU) ->
     nth i rscu 0
     = IZR (nth i counts 0%Z) / IZR (foldr Z.add 0%Z counts)
       * INR (orbit_size degen (nth i CODON_ORDER UUU))).
Proof.
  intros Htot Hi.
  destruct (to_rscu_nth counts degen i) as (rscu & E & _ & Hn); [lia | assumption |].
  exists rscu. split; [assumption|]. split; [assumption|].
  intros Hsz. now rewrite Hn, INR_IZR_INZ, Hsz.
Qed.

Lemma to_rscu_label_formula_witness :
  exists rscu,
    to_rscu all_ones standard_orbit = Some rscu /\
    nth 0 rscu 0
    = IZR (nth 0 all_ones 0%Z) / IZR (foldr Z.add 0%Z all_ones)
      * IZR (standard_orbit (nth 0 CODON_ORDER UUU)) /\
    (Z.of_nat (orbit_size standard_orbit (nth 0 CODON_ORDER UUU))
       = standard_orbit (nth 0 CODON_ORDER UUU) ->
     nth 0 rscu 0
     = IZR (nth 0 all_ones 0%Z) / IZR (foldr Z.add 0%Z all_ones)
       * INR (orbit_size standard_orbit (nth 0 CODON_ORDER UUU))).
Proof.
  apply (to_rscu_label_formula all_ones standard_orbit 0).
  - vm_compute. reflexivity.
  - lia.
Defined.

(** C3 as stated fails: under the standard orbit map the label 2 of UUU
    is shared by 18 codons, and the organism with one occurrence of every
    codon gets RSCU(UUU) = (1/64) * 2, not (1/64) * 18. *)
Lemma to_rscu_orbit_size_counterexample :
  ~ (forall (counts : list Z) (orbit : codon -> Z) (i : nat) (rscu : list R),
       (0 < foldr Z.add 0 counts)%Z -> (i < 64)%nat ->
       to_rscu counts orbit = Some rscu ->
       nth i rscu 0
       = IZR (nth i counts 0%Z) / IZR (foldr Z.add 0%Z counts)
         * INR (orbit_size orbit (nth i CODON_ORDER UUU))).
Proof.
  intros H.
  destruct (to_rscu_nth all_ones standard_orbit 0) as (rscu & E & _ & Hn);
    [vm_compute; discriminate | lia |].
  specialize (H all_ones standard_orbit 0%nat rscu).
  rewrite Hn in H.
  destruct standard_orbit_UUU as [-> ->] in H.
  change (nth 0 all_ones 0%Z) with 1%Z in H.
  change (foldr Z.add 0%Z all_ones) with 64%Z in H.
  assert (Hc : 1 / 64 * 2 = 1 / 64 * INR 18).
  { apply H; [lia | lia | assumption]. }
  rewrite INR_IZR_INZ in Hc. change (Z.of_nat 18) with 18%Z in Hc. lra.
Qed.

End RSCU.

(** ** Facts on the numpy reductions *)

Section NumpyFacts.
Local Open Scope R_scope.

Lemma sum_const (c : R) (l : list R) :
  Forall (fun x => x = c) l -> np.sum l = c * INR (length l).
Proof.
  unfold np.sum. induction 1 as [|x l Hx _ IH].
  - simpl. lra.
  - cbn [foldr]. rewrite IH, Hx. cbn [length]. rewrite S_INR. lra.
Qed.

Lemma mean_const (c : R) (l : list R) :
  l <> [] -> Forall (fun x => x = c) l -> np.mean l = c.
Proof.
  intros Hne Hl. unfold np.mean. rewrite (sum_const c) by assumption.
  assert (INR (length l) <> 0).
  { apply not_0_INR. destruct l; [congruence | discriminate]. }
  now field.
Qed.

(** A list all of whose values agree has no spread. *)
Lemma std_const (ddof : nat) (c : R) (l : list R) :
  Forall (fun x => x = c) l -> np.std ddof l = 0.
Proof.
  intros Hl. unfold np.std.
  assert (Hs : np.sum (map (fun x => (x - np.mean l) * (x - np.mean l)) l) = 0).
  { destruct l as [|y l'] eqn:E; [reflexivity|]. rewrite <- E in *.
    assert (Hm : np.mean l = c) by (apply mean_const; [subst; discriminate | assumption]).
    rewrite (sum_const 0); [lra|].
    apply List.Forall_map. eapply Forall_impl; [exact Hl|].
    intros x ->. simpl. rewrite Hm. lra. }
  rewrite Hs. unfold Rdiv. rewrite Rmult_0_l. apply sqrt_0.
Qed.

Lemma median_singleton (x : R) : np.median [x] = x.
Proof. reflexivity. Qed.
End NumpyFacts.

(** ** Facts on the dictionary of groups *)

Section GroupFacts.
Context {K V : Type} `{EqDecision K}.

(** Appending to a dictionary of lists keeps a property that holds of
    every stored value and of the new one, and leaves no list empty. *)
Lemma setdefault_append_Forall (P : V -> Prop) (k : K) (v : V)
  (groups : list (K * list V)) :
  P v ->
  Forall (fun kv => kv.2 <> [] /\ Forall P kv.2) groups ->
  Forall (fun kv => kv.2 <> [] /\ Forall P kv.2) (setdefault_append k v groups).
Proof.
  intros Hv. induction 1 as [|[k' vs] rest [Hne Hvs] Hrest IH]; simpl.
  - constructor; [|constructor]. split; [discriminate|]. simpl. now constructor.
  - destruct (decide (k = k')).
    + constructor; [|assumption]. split.
      * simpl. destruct vs; discriminate.
      * simpl in *. apply Forall_app. split; [assumption | now constructor].
    + constructor; [split; assumption | exact IH].
Qed.

Lemma foldl_setdefault_append_Forall {T : Type} (P : V -> Prop)
  (key : T -> K) (val : T -> V) (items : list T) (groups : list (K * list V)) :
  Forall (fun t => P (val t)) items ->
  Forall (fun kv => kv.2 <> [] /\ Forall P kv.2) groups ->
  Forall (fun kv => kv.2 <> [] /\ Forall P kv.2)
         (foldl (fun g t => setdefault_append (key t) (val t) g) groups items).
Proof.
  intros Hitems. revert groups.
  induction Hitems as [|t items Ht _ IH]; intros groups Hg; simpl; [assumption|].
  apply IH. now apply setdefault_append_Forall.
Qed.
End GroupFacts.

(** ** The cohort loop of fc_checker.py *)

Section Cohort.
Local Open Scope R_scope.
Import fc_checker.

Lemma inter_const_groups {K : Type} (c : R) (groups : list (K * list R)) :
  Forall (fun kv => kv.2 <> [] /\ Forall (fun x => x = c) kv.2) groups ->
  Forall (fun x => x = c) (inter groups).
Proof.
  unfold inter, values. induction 1 as [|[k vs] rest [Hne Hvs] _ IH]; simpl.
  - constructor.
  - apply Forall_app. split; [|exact IH].
    apply List.Forall_map. simpl in *.
    eapply Forall_impl; [exact Hvs|]. intros x _. now apply mean_const.
Qed.

(** A vector all of whose values agree has a constant inter set. *)
Lemma build_groups_const (c : R) (rscu : list R) (orbit : codon -> Z) :
  Forall (fun x => x = c) rscu ->
  Forall (fun x => x = c) (inter (build_groups rscu orbit)).
Proof.
  intros Hc. apply inter_const_groups. unfold build_groups.
  apply (foldl_setdefault_append_Forall (fun x => x = c)
           (fun vc : R * codon => orbit vc.2) (fun vc => vc.1)); [|constructor].
  revert Hc. generalize CODON_ORDER.
  induction rscu as [|x rscu IH]; intros cs Hc; [constructor|].
  destruct cs as [|c0 cs]; [constructor|]. simpl.
  inversion Hc; subst. constructor; [reflexivity | now apply IH].
Qed.

Lemma main_ratios_app (orbit : codon -> Z) (pre post : list (list Z)) :
  main_ratios orbit (pre ++ post)
  = foldl (main_row orbit) (main_ratios orbit pre) post.
Proof. unfold main_ratios. apply foldl_app. Qed.

(** A row that [main_row] skips leaves the list of ratios, and the
    median, as they are without it. *)
Lemma skipped_row_excluded (orbit : codon -> Z) (row : list Z)
  (pre post : list (list Z)) :
  (forall ratios, main_row orbit ratios row = ratios) ->
  main_ratios orbit (pre ++ row :: post) = main_ratios orbit (pre ++ post)
  /\ main_median orbit (pre ++ row :: post) = main_median orbit (pre ++ post).
Proof.
  intros Hskip.
  assert (E : main_ratios orbit (pre ++ row :: post) = main_ratios orbit (pre ++ post)).
  { rewrite !main_ratios_app. simpl. now rewrite Hskip. }
  split; [exact E|]. unfold main_median. now rewrite E.
Qed.

Lemma to_rscu_zero_total (orbit : codon -> Z) (row : list Z) :
  foldr Z.add 0%Z row = 0%Z -> to_rscu row orbit = None.
Proof. intros E. unfold to_rscu. now rewrite E. Qed.

(** C7: an organism whose counts sum to zero gets the NaN vector from
    [to_rscu], no FC ratio is computed for it, and the list of valid
    ratios and the reported median are what they are without it. *)
Theorem zero_total_organism_excluded (orbit : codon -> Z) (row : list Z)
  (pre post : list (list Z)) :
  foldr Z.add 0%Z row = 0%Z ->
  to_rscu row orbit = None
  /\ (forall ratios, main_row orbit ratios row = ratios)
  /\ main_ratios orbit (pre ++ row :: post) = main_ratios orbit (pre ++ post)
  /\ main_median orbit (pre ++ row :: post) = main_median orbit (pre ++ post).
Proof.
  intros Hz. pose proof (to_rscu_zero_total orbit row Hz) as E.
  assert (Hskip : forall ratios, main_row orbit ratios row = ratios).
  { intros ratios. unfold main_row. now rewrite E. }
  split; [exact E|]. split; [exact Hskip|].
  now apply skipped_row_excluded.
Qed.

Lemma zero_total_organism_excluded_witness :
  to_rscu all_zeros standard_orbit = None
  /\ (forall ratios, main_row standard_orbit ratios all_zeros = ratios)
  /\ main_ratios standard_orbit ([all_ones] ++ all_zeros :: [flat_counts])
     = main_ratios standard_orbit ([all_ones] ++ [flat_counts])
  /\ main_median standard_orbit ([all_ones] ++ all_zeros :: [flat_counts])
     = main_median standard_orbit ([all_ones] ++ [flat_counts]).
Proof.
  apply (zero_total_organism_excluded standard_orbit all_zeros [all_ones] [flat_counts]).
  reflexivity.
Defined.

Lemma map_seq_const {T : Type} (f : nat -> T) (c : T) (n : nat) :
  (forall i, (i < n)%nat -> f i = c) -> map f (seq 0 n) = repeat c n.
Proof.
  intros Hf. apply nth_ext with (d := c) (d' := c).
  - now rewrite length_map, length_seq, repeat_length.
  - intros i Hi. rewrite length_map, length_seq in Hi.
    rewrite nth_map_seq, nth_repeat by assumption. now apply Hf.
Qed.

(** The organism [flat_counts] is a real input with a constant RSCU
    vector: every value is 12/252. *)
Lemma to_rscu_flat_counts :
  to_rscu flat_counts standard_orbit = Some (repeat (12 / 252) 64).
Proof.
  unfold to_rscu.
  change (foldr Z.add 0%Z flat_counts) with 252%Z. cbn [Z.eqb Pos.eqb].
  f_equal. apply map_seq_const. intros i Hi. rewrite nth_freq.
  assert (Hz : (nth i flat_counts 0 * standard_orbit (nth i CODON_ORDER UUU) = 12)%Z).
  { assert (Hall : forallb (fun i => (nth i flat_counts 0
                      * standard_orbit (nth i CODON_ORDER UUU) =? 12)%Z) (seq 0 64) = true)
      by (vm_compute; reflexivity).
    rewrite forallb_forall in Hall. apply Z.eqb_eq, Hall, in_seq. lia. }
  apply (f_equal IZR) in Hz. rewrite mult_IZR in Hz.
  unfold Rdiv. rewrite Rmult_assoc, (Rmult_comm (/ 252)), <- Rmult_assoc, Hz.
  reflexivity.
Qed.
End Cohort.

(** ** The null model of fc_checker.py *)

Section NullModelFacts.
Local Open Scope R_scope.
Import fc_checker.
Context {rng : Type} (shuffle : rng -> list Z -> rng * list Z).

(** Every group of the null loop holds the constant 1.0 only, so the
    inter set has no spread and the trial value is NaN, whatever the
    shuffled labels are. *)
Lemma null_trial_nan (base_orbits : list Z) : null_trial base_orbits = None.
Proof.
  unfold null_trial.
  set (groups := foldl _ _ _).
  assert (Hg : Forall (fun kv : Z * list R => kv.2 <> [] /\ Forall (fun x => x = 1) kv.2) groups).
  { subst groups.
    apply (foldl_setdefault_append_Forall (fun x => x = 1)
             (dict_get 0%Z (combine CODON_ORDER base_orbits)) (fun _ : codon => 1));
      [|constructor].
    apply List.Forall_forall. reflexivity. }
  rewrite (std_const 1 1 (inter groups)) by now apply inter_const_groups.
  destruct (Req_dec_T 0 0) as [_|Hne]; [reflexivity | contradiction].
Qed.

Lemma finite_only_repeat_None (n : nat) : finite_only (repeat None n) = [].
Proof. induction n as [|n IH]; [reflexivity | exact IH]. Qed.



Lemma null_loop_all_nan (n : nat) (g : rng) (base_orbits : list Z)
  (null : list (option R)) :
  null_loop shuffle n g base_orbits null = null ++ repeat None n.
Proof.
  revert g base_orbits null. induction n as [|n IH]; intros g base_orbits null; simpl.
  - now rewrite app_nil_r.
  - destruct (shuffle g base_orbits) as [g' shuffled].
    rewrite IH, null_trial_nan, <- app_assoc. reflexivity.
Qed.

Lemma main_null_degenerate (g0 : rng) (ORBIT : list (codon * Z)) (med : R) (N : nat) :
  main_null shuffle g0 ORBIT med N = (None, 1).
Proof.
  unfold main_null. rewrite null_loop_all_nan. simpl.
  rewrite finite_only_repeat_None. unfold p_value, z_score. simpl.
  f_equal. field.
Qed.

(** C4 (fails on fc_checker.py): whatever the organisms, the labels and
    the generator are, each of the N trials of [main] records NaN: the
    value comes from the constant 1.0 and from no organism, so it is not
    the cohort median under the shuffled assignment; the filtered null
    list is empty, Z is NaN and P is 1. *)
Theorem fc_checker_null_records_nan (g0 : rng) (ORBIT : list (codon * Z))
  (med : R) (N : nat) :
  null_loop shuffle N g0 (map snd ORBIT) [] = repeat None N
  /\ finite_only (null_loop shuffle N g0 (map snd ORBIT) []) = []
  /\ main_null shuffle g0 ORBIT med N = (None, 1).
Proof.
  split; [apply null_loop_all_nan|].
  split; [|apply main_null_degenerate].
  rewrite null_loop_all_nan. apply finite_only_repeat_None.
Qed.

End NullModelFacts.


(** ** The structure of the dictionary of groups *)

Section GroupStructure.
Context {K V : Type} `{EqDecision K}.

Lemma dict_get_setdefault_append (k k' : K) (v : V) (groups : list (K * list V)) :
  dict_get [] (setdefault_append k v groups) k'
  = if decide (k' = k) then dict_get [] groups k' ++ [v] else dict_get [] groups k'.
Proof.
  induction groups as [|[k0 vs] rest IH]; simpl.
  - destruct (decide (k' = k)); reflexivity.
  - destruct (decide (k = k0)) as [->|Hne]; simpl.
    + destruct (decide (k' = k0)); reflexivity.
    + destruct (decide (k' = k0)) as [->|Hne'].
      * destruct (decide (k0 = k)); [congruence | reflexivity].
      * exact IH.
Qed.

Lemma In_keys_setdefault_append (k k' : K) (v : V) (groups : list (K * list V)) :
  In k' (map fst (setdefault_append k v groups)) <-> k' = k \/ In k' (map fst groups).
Proof.
  induction groups as [|[k0 vs] rest IH]; simpl.
  - intuition.
  - destruct (decide (k = k0)) as [->|Hne]; simpl.
    + intuition.
    + rewrite IH. intuition.
Qed.

Lemma NoDup_keys_setdefault_append (k : K) (v : V) (groups : list (K * list V)) :
  List.NoDup (map fst groups) -> List.NoDup (map fst (setdefault_append k v groups)).
Proof.
  induction groups as [|[k0 vs] rest IH]; simpl; intros Hnd.
  - constructor; [intros [] | constructor].
  - inversion Hnd as [|? ? Hnotin Hrest]; subst.
    destruct (decide (k = k0)) as [->|Hne]; simpl.
    + now constructor.
    + constructor; [|now apply IH].
      rewrite In_keys_setdefault_append. intros [E|Hin]; [congruence | contradiction].
Qed.

Section Fold.
Context {T : Type} (key : T -> K) (val : T -> V).

Lemma dict_get_grouped (k : K) (items : list T) (groups : list (K * list V)) :
  dict_get [] (grouped key val groups items) k
  = dict_get [] groups k ++ map val (with_key key k items).
Proof.
  unfold grouped, with_key. revert groups.
  induction items as [|t items IH]; intros groups; simpl.
  - now rewrite app_nil_r.
  - rewrite IH, dict_get_setdefault_append.
    destruct (decide (k = key t)) as [->|Hne].
    + rewrite bool_decide_eq_true_2 by reflexivity. simpl. now rewrite <- app_assoc.
    + rewrite bool_decide_eq_false_2 by congruence. reflexivity.
Qed.

Lemma In_keys_grouped (k : K) (items : list T) (groups : list (K * list V)) :
  In k (map fst (grouped key val groups items))
  <-> In k (map fst groups) \/ In k (map key items).
Proof.
  unfold grouped. revert groups.
  induction items as [|t items IH]; intros groups; simpl.
  - intuition.
  - rewrite IH, In_keys_setdefault_append. intuition.
Qed.

Lemma NoDup_keys_grouped (items : list T) (groups : list (K * list V)) :
  List.NoDup (map fst groups) -> List.NoDup (map fst (grouped key val groups items)).
Proof.
  unfold grouped. revert groups.
  induction items as [|t items IH]; intros groups Hnd; simpl; [assumption|].
  apply IH. now apply NoDup_keys_setdefault_append.
Qed.
End Fold.

(** A dictionary is the list of its keys, each with the value stored for
    it. *)
Lemma items_of_keys (groups : list (K * list V)) :
  List.NoDup (map fst groups) ->
  groups = map (fun k => (k, dict_get [] groups k)) (map fst groups).
Proof.
  induction groups as [|[k0 vs] rest IH]; simpl; intros Hnd; [reflexivity|].
  inversion Hnd as [|? ? Hnotin Hrest]; subst.
  rewrite decide_True by reflexivity. f_equal.
  rewrite (IH Hrest) at 1. apply map_ext_in. intros k Hk.
  destruct (decide (k = k0)) as [->|Hne]; [contradiction | reflexivity].
Qed.
End GroupStructure.

(** ** Grouping is a rearrangement of the items *)

Lemma flat_map_ext_in {X Y : Type} (f g : X -> list Y) (l : list X) :
  (forall a, In a l -> f a = g a) -> flat_map f l = flat_map g l.
Proof.
  induction l as [|a l IH]; intros Hfg; simpl; [reflexivity|].
  rewrite Hfg by now left. rewrite IH; [reflexivity|].
  intros b Hb. apply Hfg. now right.
Qed.

Section GroupPermutation.
Context {K T : Type} `{EqDecision K} (key : T -> K).

Lemma with_key_other (ks : list K) (t : T) (items : list T) :
  ~ In (key t) ks ->
  flat_map (fun k => with_key key k (t :: items)) ks
  = flat_map (fun k => with_key key k items) ks.
Proof.
  intros Hnotin. apply flat_map_ext_in. intros k Hk. unfold with_key. simpl.
  rewrite bool_decide_eq_false_2; [reflexivity|]. intros E. now subst.
Qed.

Lemma with_key_flat_map_cons (ks : list K) (t : T) (items : list T) :
  List.NoDup ks -> In (key t) ks ->
  flat_map (fun k => with_key key k (t :: items)) ks
  ≡ₚ t :: flat_map (fun k => with_key key k items) ks.
Proof.
  induction ks as [|k ks IH]; intros Hnd Hin; [destruct Hin|].
  inversion Hnd as [|? ? Hnotin Hrest]; subst. cbn [flat_map].
  destruct (decide (key t = k)) as [E|Hne].
  - rewrite with_key_other by now rewrite E.
    unfold with_key at 1. simpl. rewrite bool_decide_eq_true_2 by assumption.
    reflexivity.
  - destruct Hin as [E|Hin]; [congruence|].
    rewrite (IH Hrest Hin).
    unfold with_key at 1. simpl. rewrite bool_decide_eq_false_2 by assumption.
    fold (with_key key k items). symmetry. apply Permutation_middle.
Qed.

(** Listing the items key by key, for keys without repetition that cover
    the items, lists every item exactly once. *)
Lemma with_key_partition (ks : list K) (items : list T) :
  List.NoDup ks -> (forall t, In t items -> In (key t) ks) ->
  flat_map (fun k => with_key key k items) ks ≡ₚ items.
Proof.
  intros Hnd. induction items as [|t items IH]; intros Hcover.
  - clear. induction ks as [|k ks IH]; [reflexivity | exact IH].
  - rewrite with_key_flat_map_cons; [|assumption | apply Hcover; now left].
    constructor. apply IH. intros t' Ht'. apply Hcover. now right.
Qed.

Lemma with_key_key (k : K) (t : T) (items : list T) :
  In t (with_key key k items) -> key t = k.
Proof.
  unfold with_key. rewrite filter_In. intros [_ Hk]. now apply bool_decide_eq_true in Hk.
Qed.
End GroupPermutation.

(** ** The spread does not depend on the order of the values *)

Section StdPermutation.
Local Open Scope R_scope.

Lemma sum_Permutation (l l' : list R) : l ≡ₚ l' -> np.sum l = np.sum l'.
Proof.
  unfold np.sum. induction 1; simpl; lra.
Qed.

Lemma mean_Permutation (l l' : list R) : l ≡ₚ l' -> np.mean l = np.mean l'.
Proof.
  intros Hp. unfold np.mean.
  now rewrite (sum_Permutation _ _ Hp), (Permutation_length Hp).
Qed.

Lemma std_Permutation (ddof : nat) (l l' : list R) :
  l ≡ₚ l' -> np.std ddof l = np.std ddof l'.
Proof.
  intros Hp. unfold np.std.
  rewrite (mean_Permutation _ _ Hp), (Permutation_length Hp).
  f_equal. f_equal. apply sum_Permutation. now apply Permutation_map.
Qed.
End StdPermutation.

(** ** The dispersion ratio of fc_checker.py against the specification *)

Section GroupedTraversal.
Context {K T V W : Type} `{EqDecision K} (key : T -> K) (val : T -> V).

Lemma flat_map_map_l {X Y Z : Type} (f : Y -> list Z) (g : X -> Y) (l : list X) :
  flat_map f (map g l) = flat_map (fun x => f (g x)) l.
Proof. induction l as [|x l IH]; simpl; [reflexivity | now rewrite IH]. Qed.

Lemma map_flat_map {X Y Z : Type} (f : Y -> Z) (g : X -> list Y) (l : list X) :
  map f (flat_map g l) = flat_map (fun x => map f (g x)) l.
Proof. induction l as [|x l IH]; simpl; [reflexivity | now rewrite map_app, IH]. Qed.

(** Walking the dictionary group by group and applying to every member
    a function [h] of its group visits the items once each: the result
    is a rearrangement of the item-by-item list. *)
Lemma grouped_traversal (h : list V -> V -> W) (items : list T) :
  flat_map (fun vs => map (h vs) vs) (values (grouped key val [] items))
  ≡ₚ map (fun t => h (map val (with_key key (key t) items)) (val t)) items.
Proof.
  set (g := grouped key val [] items).
  assert (Hnd : List.NoDup (map fst g)) by (apply NoDup_keys_grouped; constructor).
  assert (Hget : forall k, dict_get [] g k = map val (with_key key k items)).
  { intros k. unfold g. now rewrite dict_get_grouped. }
  unfold values. rewrite (items_of_keys g Hnd) at 1.
  rewrite map_map. cbn [snd]. rewrite flat_map_map_l.
  rewrite (flat_map_ext_in _
             (fun k => map (fun t => h (map val (with_key key (key t) items)) (val t))
                           (with_key key k items))).
  - rewrite <- map_flat_map. apply Permutation_map.
    apply with_key_partition; [exact Hnd|].
    intros t Ht. unfold g. rewrite In_keys_grouped. right. now apply in_map.
  - intros k _. rewrite Hget, map_map. apply map_ext_in.
    intros t Ht. now rewrite (with_key_key key k t items Ht).
Qed.
End GroupedTraversal.

Section Refinement.
Local Open Scope R_scope.
Import fc_checker.

Lemma intra_spec (rscu : list R) (orbit : codon -> Z) :
  intra (build_groups rscu orbit) ≡ₚ spec_intra_set rscu orbit.
Proof.
  exact (grouped_traversal (fun vc : R * codon => orbit vc.2) (fun vc => vc.1)
           (fun vs x => x - np.mean vs) (combine rscu CODON_ORDER)).
Qed.

Lemma inter_spec (rscu : list R) (orbit : codon -> Z) :
  inter (build_groups rscu orbit) ≡ₚ spec_inter_set rscu orbit.
Proof.
  exact (grouped_traversal (fun vc : R * codon => orbit vc.2) (fun vc => vc.1)
           (fun vs _ => np.mean vs) (combine rscu CODON_ORDER)).
Qed.

Lemma sigma_ratio_spec_eq (rscu : list R) (orbit : codon -> Z) :
  sigma_ratio rscu orbit = spec_fc_ratio rscu orbit.
Proof.
  unfold sigma_ratio, spec_fc_ratio.
  now rewrite (std_Permutation 1 _ _ (intra_spec rscu orbit)),
              (std_Permutation 1 _ _ (inter_spec rscu orbit)).
Qed.

Lemma sigma_ratio_nonzero_den_spec (rscu : list R) (orbit : codon -> Z) :
  np.std 1 (spec_inter_set rscu orbit) <> 0 ->
  sigma_ratio rscu orbit
  = Some (np.std 1 (spec_intra_set rscu orbit) / np.std 1 (spec_inter_set rscu orbit))
  /\ np.std 1 (inter (build_groups rscu orbit)) <> 0.
Proof.
  intros Hne. split.
  - rewrite sigma_ratio_spec_eq. unfold spec_fc_ratio.
    destruct (Req_dec_T _ 0) as [E0|_]; [contradiction | reflexivity].
  - now rewrite (std_Permutation 1 _ _ (inter_spec rscu orbit)).
Qed.

End Refinement.

(** ** RSCU of uniformly used orbits *)

Section UniformOrbits.
Local Open Scope R_scope.
Import fc_checker paired_fc_analysis.

Lemma uniform_within_orbits_spec (counts : list Z) (orbit : codon -> Z) (i j : nat) :
  uniform_within_orbits counts orbit = true ->
  (i < 64)%nat -> (j < 64)%nat ->
  orbit (nth i CODON_ORDER UUU) = orbit (nth j CODON_ORDER UUU) ->
  nth i counts 0%Z = nth j counts 0%Z.
Proof.
  unfold uniform_within_orbits. rewrite forallb_forall.
  intros Hu Hi Hj Ho.
  specialize (Hu i). rewrite forallb_forall in Hu.
  assert (Hin : forall n, (n < 64)%nat -> In n (seq 0 64)) by (intros n Hn; apply in_seq; lia).
  specialize (Hu (Hin i Hi) j (Hin j Hj)).
  rewrite Ho, Z.eqb_refl in Hu. simpl in Hu. now apply Z.eqb_eq.
Qed.

Lemma foldr_Zadd_const (r : Z) (l : list Z) :
  Forall (fun x => x = r) l -> foldr Z.add 0%Z l = (Z.of_nat (length l) * r)%Z.
Proof.
  induction 1 as [|x l Hx _ IH]; [reflexivity|].
  cbn [foldr length]. rewrite IH, Hx. lia.
Qed.

(** The per-family RSCU of [calculate_fc_compliance] is 1 for every codon
    of a family that is used uniformly and has a positive total. *)
Lemma family_rscus_uniform (row : string -> Z) (codons : list string) (r : Z) :
  Forall (fun c => row c = r) codons ->
  (0 < family_total row codons)%Z ->
  Forall (fun x => x = 1) (family_rscus row codons).
Proof.
  intros Hu Hpos. unfold family_rscus.
  assert (Htot : family_total row codons = (Z.of_nat (length codons) * r)%Z).
  { unfold family_total. rewrite (foldr_Zadd_const r).
    - now rewrite length_map.
    - now apply List.Forall_map. }
  assert (Hlen : 0 < INR (length codons)).
  { apply lt_0_INR. destruct codons; [|simpl; lia].
    unfold family_total in Hpos. simpl in Hpos. lia. }
  assert (Hr : 0 < IZR r).
  { apply IZR_lt. rewrite Htot in Hpos. nia. }
  assert (Hexp : IZR (family_total row codons) / INR (length codons) = IZR r).
  { rewrite Htot, mult_IZR, <- INR_IZR_INZ. field. lra. }
  apply List.Forall_map. eapply Forall_impl; [exact Hu|].
  intros c Hc. simpl. rewrite Hexp, Hc.
  destruct (Rlt_dec 0 (IZR r)) as [_|Hn]; [field; lra | contradiction].
Qed.

(** The codons of the scenario and their positions in [CODON_ORDER]. *)
Lemma lys_val_positions :
  map (fun i => nth i CODON_ORDER UUU) [42; 43]%nat = Lys
  /\ map (fun i => nth i CODON_ORDER UUU) [48; 49; 50; 51]%nat = Val.
Proof. split; reflexivity. Qed.

(** In the scenario every one of the six codons gets RSCU 1/2 from
    [to_rscu], and 1 from the per-family RSCU. *)
Lemma lys_val_rscu :
  exists rscu,
    to_rscu lys_val_counts lys_val_orbit = Some rscu /\
    Forall (fun i => nth i rscu 0 = 1 / 2) [42; 43; 48; 49; 50; 51]%nat
    /\ family_rscus lys_val_row ["AAA"; "AAG"]%string = [1; 1] 
    /\ family_rscus lys_val_row ["GTT"; "GTC"; "GTA"; "GTG"]%string = [1; 1; 1; 1].
Proof.
  destruct (to_rscu_nth lys_val_counts lys_val_orbit 0) as (rscu & E & _ & _);
    [vm_compute; discriminate | lia |].
  exists rscu. split; [exact E|]. split.
  - repeat constructor;
      match goal with
      | |- nth ?i _ _ = _ =>
          destruct (to_rscu_nth lys_val_counts lys_val_orbit i) as (rscu' & E' & _ & Hn);
            [vm_compute; discriminate | lia |];
          replace rscu with rscu' by congruence; rewrite Hn
      end;
      change (foldr Z.add 0%Z lys_val_counts) with 40%Z.
    all: match goal with
         | |- IZR ?a / _ * IZR ?b = _ =>
             let a' := eval vm_compute in a in
             let b' := eval vm_compute in b in
             change a with a'; change b with b'
         end; lra.
  - assert (H2 : Forall (fun x => x = 1) (family_rscus lys_val_row ["AAA"; "AAG"]%string)).
    { apply (family_rscus_uniform _ _ 10%Z); [repeat constructor | vm_compute; reflexivity]. }
    assert (H4 : Forall (fun x => x = 1)
                   (family_rscus lys_val_row ["GTT"; "GTC"; "GTA"; "GTG"]%string)).
    { apply (family_rscus_uniform _ _ 5%Z); [repeat constructor | vm_compute; reflexivity]. }
    split.
    + unfold family_rscus in *. cbn [map] in *.
      repeat match goal with H : Forall _ (_ :: _) |- _ => inversion H; clear H; subst end.
      repeat (f_equal; try assumption).
    + unfold family_rscus in *. cbn [map] in *.
      repeat match goal with H : Forall _ (_ :: _) |- _ => inversion H; clear H; subst end.
      repeat (f_equal; try assumption).
Qed.

(** C2 (amended): for an organism with positive total whose counts are
    uniform within every orbit, [to_rscu] gives codon i the value
    (count_i / total) * label(codon_i), the same for all codons of an
    orbit; the value 1.0 for every codon of a uniformly used orbit is
    what the per-family RSCU of [calculate_fc_compliance] yields for a
    family with positive total.  For the scenario's organism [to_rscu]
    gives 1/2 for each of AAA, AAG, GUU, GUC, GUA, GUG, and the
    per-family RSCU gives 1 for each of them. *)
Theorem uniform_orbit_rscu (counts : list Z) (orbit : codon -> Z)
  (row : string -> Z) (codons : list string) (r : Z) :
  (0 < foldr Z.add 0 counts)%Z ->
  uniform_within_orbits counts orbit = true ->
  Forall (fun c => row c = r) codons ->
  (0 < family_total row codons)%Z ->
  (exists rscu,
     to_rscu counts orbit = Some rscu /\
     forall i, (i < 64)%nat ->
       nth i rscu 0
       = IZR (nth i counts 0%Z) / IZR (foldr Z.add 0%Z counts)
         * IZR (orbit (nth i CODON_ORDER UUU))
       /\ forall j, (j < 64)%nat ->
            orbit (nth i CODON_ORDER UUU) = orbit (nth j CODON_ORDER UUU) ->
            nth i rscu 0 = nth j rscu 0)
  /\ Forall (fun x => x = 1) (family_rscus row codons)
  /\ (exists rscu,
        to_rscu lys_val_counts lys_val_orbit = Some rscu /\
        Forall (fun i => nth i rscu 0 = 1 / 2) [42; 43; 48; 49; 50; 51]%nat
        /\ family_rscus lys_val_row ["AAA"; "AAG"]%string = [1; 1]
        /\ family_rscus lys_val_row ["GTT"; "GTC"; "GTA"; "GTG"]%string = [1; 1; 1; 1]).
Proof.
  intros Htot Hu Hrow Hfam.
  split; [|split; [now apply (family_rscus_uniform row codons r) | exact lys_val_rscu]].
  destruct (to_rscu_nth counts orbit 0) as (rscu & E & _ & _); [lia | lia |].
  exists rscu. split; [exact E|].
  assert (Hn : forall i, (i < 64)%nat ->
            nth i rscu 0 = IZR (nth i counts 0%Z) / IZR (foldr Z.add 0%Z counts)
                           * IZR (orbit (nth i CODON_ORDER UUU))).
  { intros i Hi. destruct (to_rscu_nth counts orbit i) as (rscu' & E' & _ & Hn');
      [lia | assumption |]. congruence. }
  intros i Hi. split; [now apply Hn|].
  intros j Hj Ho. rewrite (Hn i Hi), (Hn j Hj), Ho.
  now rewrite (uniform_within_orbits_spec counts orbit i j Hu Hi Hj Ho).
Qed.

Lemma uniform_orbit_rscu_witness :
  (exists rscu,
     to_rscu lys_val_counts lys_val_orbit = Some rscu /\
     forall i, (i < 64)%nat ->
       nth i rscu 0
       = IZR (nth i lys_val_counts 0%Z) / IZR (foldr Z.add 0%Z lys_val_counts)
         * IZR (lys_val_orbit (nth i CODON_ORDER UUU))
       /\ forall j, (j < 64)%nat ->
            lys_val_orbit (nth i CODON_ORDER UUU) = lys_val_orbit (nth j CODON_ORDER UUU) ->
            nth i rscu 0 = nth j rscu 0)
  /\ Forall (fun x => x = 1)
            (family_rscus lys_val_row ["GTT"; "GTC"; "GTA"; "GTG"]%string)
  /\ (exists rscu,
        to_rscu lys_val_counts lys_val_orbit = Some rscu /\
        Forall (fun i => nth i rscu 0 = 1 / 2) [42; 43; 48; 49; 50; 51]%nat
        /\ family_rscus lys_val_row ["AAA"; "AAG"]%string = [1; 1]
        /\ family_rscus lys_val_row ["GTT"; "GTC"; "GTA"; "GTG"]%string = [1; 1; 1; 1]).
Proof.
  apply (uniform_orbit_rscu lys_val_counts lys_val_orbit lys_val_row
           ["GTT"; "GTC"; "GTA"; "GTG"]%string 5%Z).
  - vm_compute. reflexivity.
  - vm_compute. reflexivity.
  - repeat constructor.
  - vm_compute. reflexivity.
Defined.

(** C2 as stated fails: the scenario's organism is uniform within every
    orbit and has total 40, yet [to_rscu] gives RSCU(AAA) = 10/40 * 2 =
    1/2, not 1. *)
Lemma uniform_orbit_rscu_counterexample :
  ~ (forall (counts : list Z) (orbit : codon -> Z) (rscu : list R) (i : nat),
       uniform_within_orbits counts orbit = true ->
       (0 < foldr Z.add 0 counts)%Z ->
       to_rscu counts orbit = Some rscu ->
       (i < 64)%nat ->
       nth i rscu 0 = 1).
Proof.
  intros H. destruct lys_val_rscu as (rscu & E & Hhalf & _).
  specialize (H lys_val_counts lys_val_orbit rscu 42%nat).
  inversion Hhalf as [|? ? H42 _]; subst.
  rewrite H42 in H.
  assert (1 / 2 = 1); [|lra].
  apply H; [vm_compute; reflexivity | vm_compute; reflexivity | exact E | lia].
Qed.
End UniformOrbits.

(** ** agg_codon_by_taxid.py: the written rows *)

Section TaxidAggregation.
Local Open Scope Z_scope.
Import agg_codon_by_taxid.

Lemma CDS_not_a_codon_column : ~ In "#CDS"%string _codon_columns.
Proof.
  rewrite <- list_elem_of_In.
  apply (bool_decide_eq_false_1 ("#CDS"%string ∈ _codon_columns)).
  vm_compute. reflexivity.
Qed.

Lemma codon_loop_other (row : in_row) (k : string) (cols : list string)
  (acc : gmap string Z) :
  ~ In k cols ->
  foldl (fun a c => <[c := acc_get a c + cell row c]> a) acc cols !! k = acc !! k.
Proof.
  revert acc. induction cols as [|c cols IH]; intros acc Hk; simpl; [reflexivity|].
  rewrite IH by (intros Hin; apply Hk; now right).
  apply lookup_insert_ne. intros ->. apply Hk. now left.
Qed.

(** One row adds one to the [#CDS] entry of its accumulator. *)
Lemma update_acc_CDS (row : in_row) (acc : gmap string Z) :
  acc_get (update_acc _codon_columns row acc) "#CDS"
  = acc_get acc "#CDS" + 1.
Proof.
  unfold update_acc.
  set (acc1 := match acc !! "#CDS"%string with Some _ => acc | None => _ end).
  set (acc2 := foldl _ acc1 _codon_columns).
  unfold acc_get at 1. rewrite lookup_insert_eq.
  change (acc_get acc2 "#CDS" + 1 = acc_get acc "#CDS" + 1). f_equal.
  unfold acc_get, acc2. rewrite codon_loop_other by exact CDS_not_a_codon_column.
  unfold acc1. destruct (acc !! "#CDS"%string) as [n|] eqn:E; [now rewrite E|].
  now rewrite lookup_insert_eq.
Qed.

Lemma new_acc_CDS : acc_get (new_acc _codon_columns) "#CDS" = 0.
Proof.
  unfold acc_get, new_acc.
  rewrite (proj1 (not_elem_of_list_to_map _ _)); [reflexivity|].
  rewrite <- list_fmap_compose. rewrite list_elem_of_In.
  intros Hin. apply in_map_iff in Hin as (c & Hc & Hin). simpl in Hc. subst c.
  now apply CDS_not_a_codon_column.
Qed.

Lemma rows_with_key_snoc (k : string * string) (seen : list in_row) (row : in_row) :
  rows_with_key k (seen ++ [row])
  = (rows_with_key k seen + if bool_decide (key_of row = k) then 1 else 0)%nat.
Proof.
  unfold rows_with_key. rewrite List.filter_app, length_app. simpl.
  destruct (bool_decide (key_of row = k)); reflexivity.
Qed.

Lemma rows_with_key_unseen (k : string * string) (seen : list in_row) :
  (forall r, In r seen -> key_of r <> k) -> rows_with_key k seen = 0%nat.
Proof.
  unfold rows_with_key. induction seen as [|r seen IH]; intros Hk; [reflexivity|].
  simpl. rewrite bool_decide_eq_false_2 by (apply Hk; now left).
  apply IH. intros r' Hr'. apply Hk. now right.
Qed.

Lemma In_keys_counts_step (row : in_row) (k : string * string)
  (counts : list ((string * string) * gmap string Z)) :
  In k (map fst (counts_step _codon_columns row counts))
  <-> k = key_of row \/ In k (map fst counts).
Proof.
  induction counts as [|[k0 acc] rest IH]; simpl.
  - intuition.
  - destruct (decide (key_of row = k0)) as [E|Hne]; simpl.
    + rewrite <- E. intuition.
    + rewrite IH. intuition.
Qed.

Lemma In_counts_step (row : in_row) (k : string * string) (acc : gmap string Z)
  (counts : list ((string * string) * gmap string Z)) :
  List.NoDup (map fst counts) ->
  In (k, acc) (counts_step _codon_columns row counts) ->
  (k <> key_of row /\ In (k, acc) counts)
  \/ (k = key_of row /\
      ((~ In k (map fst counts) /\ acc = update_acc _codon_columns row (new_acc _codon_columns))
       \/ exists acc0, In (k, acc0) counts /\ acc = update_acc _codon_columns row acc0)).
Proof.
  induction counts as [|[k0 acc0] rest IH]; simpl; intros Hnd Hin.
  - destruct Hin as [E|[]]. inversion E; subst. right. split; [reflexivity|]. left. tauto.
  - inversion Hnd as [|? ? Hnotin Hrest]; subst.
    destruct (decide (key_of row = k0)) as [E|Hne].
    + destruct Hin as [E'|Hin].
      * inversion E'; subst. right. split; [reflexivity|]. right. exists acc0. tauto.
      * left. split; [|now right]. intros Hk. apply Hnotin.
        rewrite <- E, <- Hk. exact (in_map fst _ _ Hin).
    + destruct Hin as [E'|Hin].
      * inversion E'; subst. left. split; [congruence | now left].
      * destruct (IH Hrest Hin) as [[Hk Hin']|[Hk [[Hn Ha]|(a0 & Hin' & Ha)]]].
        -- left. tauto.
        -- right. split; [exact Hk|]. left. split; [|exact Ha].
           intros [E'|Hin']; [congruence | contradiction].
        -- right. split; [exact Hk|]. right. exists a0. tauto.
Qed.

Lemma NoDup_keys_counts_step (row : in_row)
  (counts : list ((string * string) * gmap string Z)) :
  List.NoDup (map fst counts) ->
  List.NoDup (map fst (counts_step _codon_columns row counts)).
Proof.
  induction counts as [|[k0 acc] rest IH]; simpl; intros Hnd.
  - constructor; [intros [] | constructor].
  - inversion Hnd as [|? ? Hnotin Hrest]; subst.
    destruct (decide (key_of row = k0)) as [E|Hne]; simpl.
    + now constructor.
    + constructor; [|now apply IH].
      rewrite In_keys_counts_step. intros [E|Hin]; [congruence | contradiction].
Qed.

Lemma counts_ok_step (seen : list in_row) (row : in_row)
  (counts : list ((string * string) * gmap string Z)) :
  counts_ok seen counts ->
  counts_ok (seen ++ [row]) (counts_step _codon_columns row counts).
Proof.
  intros (Hnd & Hcover & Hcds). split; [|split].
  - now apply NoDup_keys_counts_step.
  - intros r Hr. rewrite In_keys_counts_step.
    apply in_app_or in Hr as [Hr|[->|[]]]; [right; now apply Hcover | now left].
  - intros k acc Hin. rewrite rows_with_key_snoc.
    destruct (In_counts_step row k acc counts Hnd Hin)
      as [[Hk Hin']|[Hk [[Hn Ha]|(a0 & Hin' & Ha)]]].
    + rewrite bool_decide_eq_false_2 by congruence.
      rewrite (Hcds k acc Hin'). lia.
    + rewrite bool_decide_eq_true_2 by congruence.
      rewrite Ha, update_acc_CDS, new_acc_CDS.
      rewrite rows_with_key_unseen; [reflexivity|].
      intros r Hr E. apply Hn. rewrite <- E. now apply Hcover.
    + rewrite bool_decide_eq_true_2 by congruence.
      rewrite Ha, update_acc_CDS, (Hcds k a0 Hin'). lia.
Qed.

Lemma counts_ok_loop (rest seen : list in_row)
  (counts : list ((string * string) * gmap string Z)) :
  counts_ok seen counts ->
  counts_ok (seen ++ rest)
    (foldl (fun counts row => counts_step _codon_columns row counts) counts rest).
Proof.
  revert seen counts. induction rest as [|row rest IH]; intros seen counts Hok; simpl.
  - now rewrite app_nil_r.
  - replace (seen ++ row :: rest) with ((seen ++ [row]) ++ rest)
      by now rewrite <- app_assoc.
    apply IH. now apply counts_ok_step.
Qed.

Lemma aggregate_ok (rows : list in_row) : counts_ok rows (aggregate rows).
Proof.
  apply (counts_ok_loop rows [] []). split; [constructor|]. split; [intros r []|intros k acc []].
Qed.

(** C10: in every row written by the (Taxid, Organelle) aggregator the
    [#Codons] field is the sum of the row's 64 codon fields, and the
    [#CDS] field is the number of input rows with the row's key. *)
Theorem written_row_totals (rows : list in_row) (out : out_row) :
  In out (main rows) ->
  o_Codons out = foldr Z.add 0 (o_codons out)
  /\ length (o_codons out) = 64%nat
  /\ o_CDS out = Z.of_nat (rows_with_key (o_Taxid out, o_Organelle out) rows).
Proof.
  unfold main. rewrite in_map_iff. intros ([[taxid org] acc] & <- & Hin).
  split; [reflexivity|]. split; [cbn [o_codons write_row]; rewrite length_map; reflexivity|].
  destruct (aggregate_ok rows) as (_ & _ & Hcds). simpl.
  exact (Hcds (taxid, org) acc Hin).
Qed.
(** The aggregator on the three sample rows: two rows are written, in
    the order in which their keys first occur. *)
Example main_sample_in_rows :
  map (fun o => (o_Taxid o, o_Organelle o, o_CDS o, o_Codons o)) (main sample_in_rows)
  = [("9606", "genomic", 2, 448); ("9606", "mitochondrion", 1, 64)]%string.
Proof. vm_compute. reflexivity. Qed.

Lemma written_row_totals_witness :
  let out := hd (write_row (("", "")%string, ∅)) (main sample_in_rows) in
  o_Codons out = foldr Z.add 0 (o_codons out)
  /\ length (o_codons out) = 64%nat
  /\ o_CDS out = Z.of_nat (rows_with_key (o_Taxid out, o_Organelle out) sample_in_rows).
Proof.
  apply (written_row_totals sample_in_rows).
  vm_compute. left. reflexivity.
Defined.
End TaxidAggregation.

(** ** cds_to_species_hardwired.py: chunked aggregation *)

Section ChunkedAggregation.
Local Open Scope Z_scope.
Import cds_to_species_hardwired.
#[local] Set Warnings "-inexact-float".

Implicit Types (a b m : gmap string totals) (frame : list df_row) (k : string).

(** *** int64 addition *)

Lemma wrap64_add_l (x y : Z) : wrap64 (wrap64 x + y) = wrap64 (x + y).
Proof.
  unfold wrap64. f_equal.
  set (H := 2 ^ 63). set (M := 2 ^ 64).
  replace ((x + H) mod M - H + y + H) with ((x + H) mod M + y) by lia.
  rewrite Zplus_mod_idemp_l. f_equal. lia.
Qed.

Lemma wrap64_idemp (x : Z) : wrap64 (wrap64 x) = wrap64 x.
Proof.
  pose proof (wrap64_add_l x 0) as H. now rewrite !Z.add_0_r in H.
Qed.

Lemma add64_comm (x y : Z) : add64 x y = add64 y x.
Proof. unfold add64. now rewrite Z.add_comm. Qed.

Lemma add64_wrap_l (x y : Z) : add64 (wrap64 x) y = add64 x y.
Proof. apply wrap64_add_l. Qed.

Lemma add64_wrap_r (x y : Z) : add64 x (wrap64 y) = add64 x y.
Proof. now rewrite add64_comm, add64_wrap_l, add64_comm. Qed.

Lemma add64_assoc (x y z : Z) : add64 (add64 x y) z = add64 x (add64 y z).
Proof.
  unfold add64 at 1 2. rewrite wrap64_add_l.
  unfold add64 at 1 2. rewrite (Z.add_comm x (wrap64 _)), wrap64_add_l.
  f_equal. ring.
Qed.

Lemma add_rows_comm (x y : list Z) : add_rows x y = add_rows y x.
Proof.
  unfold add_rows. revert y. induction x as [|a x IH]; intros [|b y]; simpl; try reflexivity.
  f_equal; [apply add64_comm | apply IH].
Qed.

Lemma add_rows_assoc (x y z : list Z) :
  add_rows (add_rows x y) z = add_rows x (add_rows y z).
Proof.
  unfold add_rows. revert y z.
  induction x as [|a x IH]; intros [|b y] [|c z]; simpl; try reflexivity.
  f_equal; [apply add64_assoc | apply IH].
Qed.

Lemma add_rows_wrap_r (x y : list Z) : add_rows x (map wrap64 y) = add_rows x y.
Proof.
  unfold add_rows. revert y. induction x as [|a x IH]; intros [|b y]; simpl; try reflexivity.
  f_equal; [apply add64_wrap_r | apply IH].
Qed.

Lemma add_rows_wrap_l (x y : list Z) : add_rows (map wrap64 x) y = add_rows x y.
Proof. now rewrite add_rows_comm, add_rows_wrap_r, add_rows_comm. Qed.

Lemma add_rows_wrapped (x y : list Z) : map wrap64 (add_rows x y) = add_rows x y.
Proof.
  unfold add_rows. revert y. induction x as [|a x IH]; intros [|b y]; simpl; try reflexivity.
  f_equal; [apply wrap64_idemp | apply IH].
Qed.

Lemma add_rows_zeros (x : list Z) : add_rows (map (fun _ => 0) x) x = map wrap64 x.
Proof. unfold add_rows. induction x as [|a x IH]; simpl; [reflexivity | now rewrite IH]. Qed.

(** *** The int64 sums of a group *)

Lemma foldl_add_rows (x y : list Z) (group : list (list Z)) :
  foldl add_rows (add_rows x y) group = add_rows x (foldl add_rows y group).
Proof.
  revert y. induction group as [|r group IH]; intros y; cbn [foldl]; [reflexivity|].
  now rewrite add_rows_assoc, IH.
Qed.

Lemma foldl_add_rows_wrapped (x : list Z) (group : list (list Z)) :
  map wrap64 x = x -> map wrap64 (foldl add_rows x group) = foldl add_rows x group.
Proof.
  revert x. induction group as [|r group IH]; intros x Hx; cbn [foldl]; [exact Hx|].
  apply IH, add_rows_wrapped.
Qed.

Lemma map_wrap64_idemp (x : list Z) : map wrap64 (map wrap64 x) = map wrap64 x.
Proof. rewrite map_map. apply map_ext. intros z. apply wrap64_idemp. Qed.

Lemma sum_ints_cons (r : list Z) (group : list (list Z)) :
  sum_ints (r :: group) = foldl add_rows (map wrap64 r) group.
Proof. unfold sum_ints. cbn [foldl]. now rewrite add_rows_zeros. Qed.

Lemma sum_ints_wrapped (group : list (list Z)) :
  map wrap64 (sum_ints group) = sum_ints group.
Proof.
  destruct group as [|r group]; [reflexivity|].
  rewrite sum_ints_cons. apply foldl_add_rows_wrapped, map_wrap64_idemp.
Qed.

Lemma sum_ints_app (g1 g2 : list (list Z)) :
  g1 <> [] -> g2 <> [] ->
  sum_ints (g1 ++ g2) = add_rows (sum_ints g1) (sum_ints g2).
Proof.
  destruct g1 as [|r1 g1]; [congruence|]. destruct g2 as [|r2 g2]; [congruence|].
  intros _ _. rewrite <- app_comm_cons, !sum_ints_cons, foldl_app. cbn [foldl].
  rewrite <- (add_rows_wrap_r _ r2). apply foldl_add_rows.
Qed.

Lemma osum_join_l (g1 g2 : list (list Z)) :
  osum (olist (osum g1) ++ g2) = osum (g1 ++ g2).
Proof.
  destruct g1 as [|r1 g1]; [reflexivity|].
  change (Some (sum_ints (sum_ints (r1 :: g1) :: g2)) = Some (sum_ints (r1 :: (g1 ++ g2)))).
  f_equal.
  rewrite (sum_ints_cons (sum_ints (r1 :: g1)) g2), sum_ints_wrapped.
  rewrite (sum_ints_cons r1 (g1 ++ g2)), foldl_app.
  now rewrite <- sum_ints_cons.
Qed.

Lemma osum_join_r (g1 g2 : list (list Z)) :
  osum (g1 ++ olist (osum g2)) = osum (g1 ++ g2).
Proof.
  destruct g2 as [|r2 g2]; [reflexivity|].
  destruct g1 as [|r1 g1].
  - change (Some (sum_ints [sum_ints (r2 :: g2)]) = Some (sum_ints (r2 :: g2))).
    f_equal. rewrite (sum_ints_cons (sum_ints (r2 :: g2)) []). cbn [foldl].
    apply sum_ints_wrapped.
  - change (Some (sum_ints ((r1 :: g1) ++ [sum_ints (r2 :: g2)]))
            = Some (sum_ints ((r1 :: g1) ++ r2 :: g2))).
    f_equal. rewrite !sum_ints_app by discriminate. f_equal.
    rewrite (sum_ints_cons (sum_ints (r2 :: g2)) []). cbn [foldl].
    apply sum_ints_wrapped.
Qed.

(** *** The rows of a key *)

Lemma lookup_group_from (groups : gmap string (list df_row)) frame k :
  foldl (fun groups r =>
           match Species r with
           | Some k => <[k := default [] (groups !! k) ++ [r]]> groups
           | None => groups
           end) groups frame !! k
  = app_opt (groups !! k) (rows_with k frame).
Proof.
  revert groups. induction frame as [|r frame IH]; intros groups; cbn [foldl].
  - unfold app_opt, rows_with. cbn [List.filter].
    destruct (groups !! k) as [g|]; [now rewrite app_nil_r | reflexivity].
  - rewrite IH. unfold rows_with. cbn [List.filter].
    destruct (Species r) as [k0|] eqn:E.
    + destruct (decide (k0 = k)) as [->|Hne].
      * rewrite lookup_insert_eq, bool_decide_eq_true_2 by reflexivity.
        unfold app_opt. destruct (groups !! k) as [g|]; cbn [default app];
          unfold Datatypes.id.
        -- now rewrite <- app_assoc.
        -- reflexivity.
      * rewrite lookup_insert_ne by congruence.
        rewrite bool_decide_eq_false_2 by congruence. reflexivity.
    + rewrite bool_decide_eq_false_2 by discriminate. reflexivity.
Qed.

Lemma lookup_group_rows frame k :
  group_rows frame !! k
  = match rows_with k frame with [] => None | g => Some g end.
Proof.
  unfold group_rows. rewrite lookup_group_from, lookup_empty.
  unfold app_opt. now destruct (rows_with k frame).
Qed.

(** Per key, the int64 sums of a grouped frame are the sums over the
    rows of the key. *)
Lemma lookup_int_totals frame k :
  int_totals (groupby_sum frame) !! k = osum (map ints (rows_with k frame)).
Proof.
  unfold int_totals, groupby_sum. rewrite !lookup_fmap, lookup_group_rows.
  now destruct (rows_with k frame).
Qed.

Lemma filter_unique_key {V : Type} (l : list (string * V)) k :
  NoDup l.*1 ->
  List.filter (fun kt : string * V => bool_decide (kt.1 = k)) l
  = match list_to_map (M := gmap string V) l !! k with
    | Some v => [(k, v)]
    | None => []
    end.
Proof.
  induction l as [|[k0 v] l IH]; intros Hnd; [reflexivity|].
  apply NoDup_cons in Hnd as [Hnotin Hnd]. cbn [List.filter list_to_map foldr fst].
  destruct (decide (k0 = k)) as [->|Hne].
  - rewrite bool_decide_eq_true_2, lookup_insert_eq by reflexivity.
    rewrite IH by assumption.
    rewrite (not_elem_of_list_to_map_1 _ _ Hnotin). reflexivity.
  - rewrite bool_decide_eq_false_2, lookup_insert_ne by congruence. now apply IH.
Qed.

Lemma rows_with_frame_rows m k :
  rows_with k (frame_rows m)
  = match m !! k with
    | Some t => [{| Species := Some k; ints := t.1; floats := t.2 |}]
    | None => []
    end.
Proof.
  unfold rows_with, frame_rows.
  assert (Hmap : forall l : list (string * totals),
            List.filter (fun r => bool_decide (Species r = Some k))
              (map (fun kt => {| Species := Some kt.1; ints := kt.2.1; floats := kt.2.2 |}) l)
            = map (fun kt => {| Species := Some kt.1; ints := kt.2.1; floats := kt.2.2 |})
                (List.filter (fun kt : string * totals => bool_decide (kt.1 = k)) l)).
  { induction l as [|[k0 t] l IH]; [reflexivity|]. cbn [map List.filter Species fst].
    destruct (decide (k0 = k)) as [->|Hne].
    - rewrite !bool_decide_eq_true_2 by reflexivity. cbn [map]. now rewrite IH.
    - rewrite !bool_decide_eq_false_2 by congruence. exact IH. }
  rewrite Hmap, filter_unique_key by apply NoDup_fst_map_to_list.
  rewrite list_to_map_to_list. now destruct (m !! k).
Qed.

Lemma ints_rows_with_frame_rows m k :
  map ints (rows_with k (frame_rows m)) = olist (int_totals m !! k).
Proof.
  rewrite rows_with_frame_rows. unfold int_totals, totals in *. rewrite lookup_fmap.
  destruct (m !! k); reflexivity.
Qed.

Lemma rows_with_app k (f1 f2 : list df_row) :
  rows_with k (f1 ++ f2) = rows_with k f1 ++ rows_with k f2.
Proof. apply List.filter_app. Qed.

(** Per key, the int64 sums after a merge. *)
Lemma lookup_int_totals_merge a b k :
  int_totals (merge a b) !! k
  = osum (olist (int_totals a !! k) ++ olist (int_totals b !! k)).
Proof.
  unfold merge, concat_frames.
  now rewrite lookup_int_totals, rows_with_app, map_app, !ints_rows_with_frame_rows.
Qed.

Lemma int_totals_merge_groupby (f1 f2 : list df_row) :
  int_totals (merge (groupby_sum f1) (groupby_sum f2)) = int_totals (groupby_sum (f1 ++ f2)).
Proof.
  apply map_eq. intros k.
  rewrite lookup_int_totals_merge, !lookup_int_totals, rows_with_app, map_app.
  now rewrite osum_join_l, osum_join_r.
Qed.

Lemma int_totals_merge_ext a a' b b' :
  int_totals a = int_totals a' -> int_totals b = int_totals b' ->
  int_totals (merge a b) = int_totals (merge a' b').
Proof.
  intros Ha Hb. apply map_eq. intros k.
  now rewrite !lookup_int_totals_merge, Ha, Hb.
Qed.

Lemma int_totals_merge_comm a b : int_totals (merge a b) = int_totals (merge b a).
Proof.
  apply map_eq. intros k. rewrite !lookup_int_totals_merge.
  destruct (int_totals a !! k) as [x|], (int_totals b !! k) as [y|];
    cbn [olist app osum]; try reflexivity.
  f_equal. rewrite !sum_ints_cons. cbn [foldl].
  now rewrite !add_rows_wrap_l, add_rows_comm.
Qed.

Lemma int_totals_merge_assoc a b c :
  int_totals (merge (merge a b) c) = int_totals (merge a (merge b c)).
Proof.
  apply map_eq. intros k. rewrite !lookup_int_totals_merge.
  now rewrite osum_join_l, osum_join_r, app_assoc.
Qed.

(** The chunk loop keeps the int64 sums of the rows read so far. *)
Lemma chunk_loop (chunks : list (list df_row)) (done : list df_row) a :
  int_totals a = int_totals (groupby_sum done) ->
  exists agg,
    foldl chunk_step (Some a) chunks = Some agg
    /\ int_totals agg = int_totals (groupby_sum (done ++ concat chunks)).
Proof.
  revert done a. induction chunks as [|chunk chunks IH]; intros done a Ha; cbn [foldl concat].
  - exists a. now rewrite app_nil_r.
  - unfold chunk_step at 2. fold (merge a (groupby_sum chunk)).
    destruct (IH (done ++ chunk) (merge a (groupby_sum chunk))) as (agg & Hagg & Htot).
    + rewrite <- int_totals_merge_groupby. now apply int_totals_merge_ext.
    + exists agg. split; [exact Hagg|]. now rewrite Htot, <- app_assoc.
Qed.

Lemma aggregate_chunks_int_totals (chunks : list (list df_row)) :
  chunks <> [] ->
  exists agg,
    aggregate_chunks chunks = Some agg
    /\ int_totals agg = int_totals (groupby_sum (concat chunks)).
Proof.
  destruct chunks as [|chunk chunks]; [congruence|]. intros _.
  unfold aggregate_chunks. cbn [foldl]. unfold chunk_step at 2.
  exact (chunk_loop chunks chunk (groupby_sum chunk) eq_refl).
Qed.

Lemma concat_chunks_of_aux (fuel n : nat) (rows : list df_row) :
  (0 < n)%nat -> (length rows <= fuel)%nat ->
  concat (chunks_of_aux fuel n rows) = rows.
Proof.
  intros Hn. revert rows. induction fuel as [|fuel IH]; intros rows Hlen.
  - destruct rows; [reflexivity | simpl in Hlen; lia].
  - destruct rows as [|r rows]; [reflexivity|].
    cbn [chunks_of_aux concat]. rewrite IH.
    + apply take_drop.
    + rewrite length_drop. simpl in *. lia.
Qed.

Lemma concat_chunks_of (n : nat) (rows : list df_row) :
  (0 < n)%nat -> concat (chunks_of n rows) = rows.
Proof. intros Hn. now apply concat_chunks_of_aux. Qed.

Lemma chunks_of_nonempty (n : nat) (rows : list df_row) :
  rows <> [] -> chunks_of n rows <> [].
Proof. unfold chunks_of. destruct rows; [congruence | discriminate]. Qed.

(** C9 (amended): however the rows of a table are cut into chunks, the
    chunk loop ends with a frame whose keys and whose sums of the int64
    columns (the counts, [# CDS], [# Codons]) are those of the one-pass
    aggregation of the whole table, wrap-around included; in particular
    two chunk sizes give the same keys and the same int64 sums.  On
    these sums the merge of partial results is commutative and
    associative. *)
Theorem chunked_aggregation_invariant (chunks : list (list df_row)) :
  chunks <> [] ->
  (exists agg,
     aggregate_chunks chunks = Some agg
     /\ int_totals agg = int_totals (groupby_sum (concat chunks))
     /\ forall k, int_totals agg !! k
                  = match rows_with k (concat chunks) with
                    | [] => None
                    | g => Some (sum_ints (map ints g))
                    end)
  /\ (forall (n n' : nat), (0 < n)%nat -> (0 < n')%nat ->
        int_totals <$> aggregate_chunks (chunks_of n (concat chunks))
        = int_totals <$> aggregate_chunks (chunks_of n' (concat chunks)))
  /\ (forall a b, int_totals (merge a b) = int_totals (merge b a))
  /\ (forall a b c, int_totals (merge (merge a b) c) = int_totals (merge a (merge b c))).
Proof.
  intros Hne.
  split.
  { destruct (aggregate_chunks_int_totals chunks Hne) as (agg & Hagg & Htot).
    exists agg. split; [exact Hagg|]. split; [exact Htot|].
    intros k. rewrite Htot, lookup_int_totals.
    now destruct (rows_with k (concat chunks)). }
  split; [|split; [apply int_totals_merge_comm | apply int_totals_merge_assoc]].
  intros n n' Hn Hn'.
  destruct (concat chunks) as [|r rows] eqn:E; [reflexivity|].
  destruct (aggregate_chunks_int_totals (chunks_of n (r :: rows)))
    as (agg & -> & Htot); [apply chunks_of_nonempty; discriminate|].
  destruct (aggregate_chunks_int_totals (chunks_of n' (r :: rows)))
    as (agg' & -> & Htot'); [apply chunks_of_nonempty; discriminate|].
  cbn [fmap option_fmap option_map]. f_equal.
  now rewrite Htot, Htot', !concat_chunks_of.
Qed.

Lemma chunked_aggregation_invariant_witness :
  (exists agg,
     aggregate_chunks (chunks_of 2 sample_frame) = Some agg
     /\ int_totals agg = int_totals (groupby_sum (concat (chunks_of 2 sample_frame)))
     /\ forall k, int_totals agg !! k
                  = match rows_with k (concat (chunks_of 2 sample_frame)) with
                    | [] => None
                    | g => Some (sum_ints (map ints g))
                    end)
  /\ (forall (n n' : nat), (0 < n)%nat -> (0 < n')%nat ->
        int_totals <$> aggregate_chunks (chunks_of n (concat (chunks_of 2 sample_frame)))
        = int_totals <$> aggregate_chunks (chunks_of n' (concat (chunks_of 2 sample_frame))))
  /\ (forall a b, int_totals (merge a b) = int_totals (merge b a))
  /\ (forall a b c, int_totals (merge (merge a b) c) = int_totals (merge a (merge b c))).
Proof.
  apply (chunked_aggregation_invariant (chunks_of 2 sample_frame)).
  vm_compute. discriminate.
Defined.

(** The sample table in chunks of two rows and in one chunk: the row
    without species is left out, the int64 sums agree. *)
Example aggregate_sample_frame :
  (fun m : gmap string totals =>
     (m !! "Homo sapiens", m !! "Mus musculus", m !! "Danio rerio")%string)
    <$> aggregate_chunks (chunks_of 2 sample_frame)
  = Some (Some ([15; 4], [82%float]), Some ([9; 4], [85.25%float]),
          Some ([1; 1], [36.75%float]))
  /\ size <$> aggregate_chunks (chunks_of 2 sample_frame) = Some 3%nat.
Proof. split; vm_compute; reflexivity. Qed.

(** The float64 sums do depend on the chunk size: for [gc_frame] the
    [GC%] total is 159.20000000000002 with chunks of one row and 159.2
    with chunks of two rows, so the chunk loop does not always end with
    the one-pass aggregation of the whole table. *)
Lemma chunked_aggregation_counterexample :
  (fun m : gmap string totals => m !! "Homo sapiens"%string)
    <$> aggregate_chunks (chunks_of 1 gc_frame)
  = Some (Some ([4; 1500], [159.20000000000002%float]))
  /\ (fun m : gmap string totals => m !! "Homo sapiens"%string)
       <$> aggregate_chunks (chunks_of 2 gc_frame)
     = Some (Some ([4; 1500], [159.2%float]))
  /\ aggregate_chunks (chunks_of 1 gc_frame) <> aggregate_chunks (chunks_of 2 gc_frame)
  /\ ~ (forall chunks : list (list df_row), chunks <> [] ->
          aggregate_chunks chunks = Some (groupby_sum (concat chunks))).
Proof.
  assert (Hdiff : aggregate_chunks (chunks_of 1 gc_frame)
                  <> aggregate_chunks (chunks_of 2 gc_frame)).
  { intros E.
    apply (f_equal (fun o : option (gmap string totals) =>
             match o with
             | Some m => match m !! "Homo sapiens"%string with
                         | Some (_, [x]) => PrimFloat.eqb x 159.2%float
                         | _ => false
                         end
             | None => false
             end)) in E.
    vm_compute in E. discriminate. }
  split; [vm_compute; reflexivity|]. split; [vm_compute; reflexivity|].
  split; [exact Hdiff|].
  intros Hall. apply Hdiff.
  rewrite (Hall (chunks_of 1 gc_frame)), (Hall (chunks_of 2 gc_frame))
    by (apply chunks_of_nonempty; discriminate).
  now rewrite !concat_chunks_of by lia.
Qed.
End ChunkedAggregation.

(** ** Values that differ have a spread *)

Section StdNonzero.
Local Open Scope R_scope.

Lemma sum_sq_nonneg (m : R) (l : list R) :
  0 <= np.sum (map (fun x => (x - m) * (x - m)) l).
Proof.
  unfold np.sum. induction l as [|x l IH]; simpl; [lra|].
  pose proof (Rle_0_sqr (x - m)) as Hx. unfold Rsqr in Hx. lra.
Qed.

Lemma sum_sq_pos (m a : R) (l : list R) :
  In a l -> a <> m -> 0 < np.sum (map (fun x => (x - m) * (x - m)) l).
Proof.
  intros Hin Hne. induction l as [|x l IH]; [destruct Hin|].
  change (0 < (x - m) * (x - m) + np.sum (map (fun x => (x - m) * (x - m)) l)).
  pose proof (sum_sq_nonneg m l) as Hl.
  pose proof (Rle_0_sqr (x - m)) as Hx. unfold Rsqr in Hx.
  destruct Hin as [->|Hin].
  - assert (0 < (a - m) * (a - m)); [|lra].
    apply Rsqr_pos_lt. lra.
  - specialize (IH Hin). lra.
Qed.

(** A list with two different values, longer than [ddof], has a
    non-zero standard deviation. *)
Lemma std_nonzero (ddof : nat) (a b : R) (l : list R) :
  In a l -> In b l -> a <> b -> (ddof < length l)%nat -> np.std ddof l <> 0.
Proof.
  intros Ha Hb Hab Hlen. unfold np.std.
  assert (Hs : 0 < np.sum (map (fun x => (x - np.mean l) * (x - np.mean l)) l)).
  { destruct (Req_dec_T a (np.mean l)) as [E|Hne].
    - apply (sum_sq_pos _ b); [assumption | congruence].
    - now apply (sum_sq_pos _ a). }
  assert (Hn : 0 < INR (length l - ddof)) by (apply lt_0_INR; lia).
  intros Hz. apply sqrt_eq_0 in Hz.
  - pose proof (Rdiv_lt_0_compat _ _ Hs Hn). lra.
  - apply Rlt_le. now apply Rdiv_lt_0_compat.
Qed.
End StdNonzero.

(** ** A vector with a defined ratio *)

Section DefinedRatio.
Local Open Scope R_scope.
Import fc_checker.

Lemma In_combine_nth {X Y : Type} (l1 : list X) (l2 : list Y) (d1 : X) (d2 : Y) (i : nat) :
  (i < length l1)%nat -> (i < length l2)%nat ->
  In (nth i l1 d1, nth i l2 d2) (combine l1 l2).
Proof.
  revert l2 i. induction l1 as [|x l1 IH]; intros [|y l2] [|i] H1 H2; simpl in *; try lia.
  - now left.
  - right. apply IH; lia.
Qed.

Lemma one_hot_rscu_members :
  spec_members one_hot_rscu standard_orbit 2 = 2 :: repeat 0 17
  /\ spec_members one_hot_rscu standard_orbit 4 = repeat 0 20.
Proof. split; vm_compute; reflexivity. Qed.

Lemma mean_zeros (n : nat) : np.mean (repeat 0 n) = 0.
Proof.
  unfold np.mean. rewrite (sum_const 0).
  - unfold Rdiv. now rewrite !Rmult_0_l.
  - apply List.Forall_forall. intros x Hx. now apply repeat_spec in Hx.
Qed.

Lemma mean_unit_then_zeros (v : R) (n : nat) :
  np.mean (v :: repeat 0 n) = v / INR (S n).
Proof.
  unfold np.mean. f_equal; [|now rewrite length_cons, repeat_length].
  change (np.sum (v :: repeat 0 n)) with (v + np.sum (repeat 0 n)).
  rewrite (sum_const 0); [lra|].
  apply List.Forall_forall. intros x Hx. now apply repeat_spec in Hx.
Qed.

(** The inter set of [one_hot_rscu] under the standard map holds 2/18 (the
    group of label 2) and 0 (the group of label 4). *)
Lemma one_hot_rscu_spread : np.std 1 (spec_inter_set one_hot_rscu standard_orbit) <> 0.
Proof.
  destruct one_hot_rscu_members as [H2 H4].
  apply (std_nonzero 1 (np.mean (spec_members one_hot_rscu standard_orbit 2))
                       (np.mean (spec_members one_hot_rscu standard_orbit 4))).
  - unfold spec_inter_set. apply in_map_iff.
    exists (nth 0 one_hot_rscu 0, nth 0 CODON_ORDER UUU). split; [reflexivity|].
    apply In_combine_nth; vm_compute; lia.
  - unfold spec_inter_set. apply in_map_iff.
    exists (nth 63 one_hot_rscu 0, nth 63 CODON_ORDER UUU). split; [reflexivity|].
    apply In_combine_nth; vm_compute; lia.
  - rewrite H2, H4, mean_zeros, mean_unit_then_zeros.
    assert (0 < INR 18) by (apply lt_0_INR; lia).
    intros E. apply (Rmult_eq_compat_r (INR 18)) in E.
    unfold Rdiv in E. rewrite Rmult_assoc, Rinv_l in E; lra.
  - unfold spec_inter_set. rewrite length_map, length_combine. vm_compute. lia.
Qed.

Lemma nth_repeat_zero {X : Type} (z : X) (n i : nat) : nth i (repeat z n) z = z.
Proof.
  destruct (nth_in_or_default i (repeat z n) z) as [Hin|E]; [|exact E].
  now apply repeat_spec in Hin.
Qed.

(** [one_hot_rscu] is the vector [to_rscu] returns for [one_hot]. *)
Lemma to_rscu_one_hot : to_rscu one_hot standard_orbit = Some one_hot_rscu.
Proof.
  destruct (to_rscu_nth one_hot standard_orbit 0) as (rscu & E & Hlen & _);
    [vm_compute; discriminate | lia |].
  rewrite E. f_equal. apply nth_ext with (d := 0) (d' := 0); [now rewrite Hlen|].
  intros i Hi. rewrite Hlen in Hi.
  destruct (to_rscu_nth one_hot standard_orbit i) as (rscu' & E' & _ & Hn);
    [vm_compute; discriminate | assumption |].
  replace rscu with rscu' by congruence. rewrite Hn.
  change (foldr Z.add 0%Z one_hot) with 1%Z.
  destruct i as [|i].
  - change (nth 0 one_hot 0%Z) with 1%Z.
    change (standard_orbit (nth 0 CODON_ORDER UUU)) with 2%Z.
    change (nth 0 one_hot_rscu 0) with 2. lra.
  - change (nth (S i) one_hot 0%Z) with (nth i (repeat 0%Z 63) 0%Z).
    change (nth (S i) one_hot_rscu 0) with (nth i (repeat 0 63) 0).
    rewrite !nth_repeat_zero. unfold Rdiv. now rewrite !Rmult_0_l.
Qed.

(** The cohort of the single organism [one_hot] has one valid ratio. *)
Lemma main_ratios_one_hot :
  main_ratios standard_orbit [one_hot]
  = [np.std 1 (spec_intra_set one_hot_rscu standard_orbit)
     / np.std 1 (spec_inter_set one_hot_rscu standard_orbit)].
Proof.
  unfold main_ratios. cbn [foldl]. unfold main_row.
  rewrite to_rscu_one_hot.
  destruct (sigma_ratio_nonzero_den_spec one_hot_rscu standard_orbit one_hot_rscu_spread)
    as [-> _]. reflexivity.
Qed.

(** Under the labels of [real_orbits] the cohort of the single organism
    [one_hot] has a median, while the value that the null loop of
    [fc_checker.main] records for the same labels is NaN. *)
Lemma null_trial_is_not_the_cohort_median :
  main_median standard_orbit [one_hot]
  = Some (np.std 1 (spec_intra_set one_hot_rscu standard_orbit)
          / np.std 1 (spec_inter_set one_hot_rscu standard_orbit))
  /\ null_trial simple_null_test.real_orbits = None.
Proof.
  split; [|apply null_trial_nan].
  unfold main_median. now rewrite main_ratios_one_hot.
Qed.

End DefinedRatio.

(** ** simple_null_test.py: the sample decides the result *)

Section GroupedValues.
Context {K T V : Type} `{EqDecision K} (key : T -> K) (val : T -> V).

(** The values of the dictionary, key by key. *)
Lemma values_grouped (items : list T) :
  values (grouped key val [] items)
  = map (fun k => map val (with_key key k items))
        (map fst (grouped key val [] items)).
Proof.
  set (g := grouped key val [] items).
  assert (Hnd : List.NoDup (map fst g)) by (apply NoDup_keys_grouped; constructor).
  unfold values. rewrite (items_of_keys g Hnd) at 1.
  rewrite map_map. cbn [snd]. apply map_ext. intros k.
  unfold g. now rewrite dict_get_grouped.
Qed.
End GroupedValues.

Section FilterFacts.
Context {X : Type}.

Lemma length_filter_Permutation (p : X -> bool) (l l' : list X) :
  l ≡ₚ l' -> length (List.filter p l) = length (List.filter p l').
Proof.
  induction 1 as [|x l l' _ IH|x y l|l l' l'' _ IH1 _ IH2]; simpl.
  - reflexivity.
  - destruct (p x); simpl; now rewrite IH.
  - destruct (p x), (p y); reflexivity.
  - now rewrite IH1.
Qed.

Lemma omap_all_None {Y : Type} (f : X -> option Y) (l : list X) :
  (forall x, In x l -> f x = None) -> omap f l = [].
Proof.
  induction l as [|x l IH]; intros Hf; [reflexivity|].
  cbn [omap list_omap]. rewrite (Hf x) by now left.
  apply IH. intros y Hy. apply Hf. now right.
Qed.

Lemma repeat_as_map {Y : Type} (c : Y) (l : list X) :
  repeat c (length l) = map (fun _ => c) l.
Proof. induction l as [|x l IH]; simpl; [reflexivity | now rewrite IH]. Qed.
End FilterFacts.

Section EnumerateFacts.
Context {K : Type} `{EqDecision K}.

(** The items of [enumerate] that carry the label [k] are as many as
    the occurrences of [k]. *)
Lemma with_key_combine (k : K) (idx : list nat) (labels : list K) :
  length idx = length labels ->
  map snd (with_key snd k (combine idx labels))
  = List.filter (fun x => bool_decide (x = k)) labels.
Proof.
  revert idx. induction labels as [|x labels IH]; intros [|i idx] Hlen;
    simpl in *; try reflexivity; try discriminate.
  unfold with_key in *. simpl.
  destruct (bool_decide (x = k)); simpl; rewrite IH by lia; reflexivity.
Qed.

Lemma In_combine_r (y : K) (idx : list nat) (labels : list K) :
  length idx = length labels -> In y labels -> exists i, In (i, y) (combine idx labels).
Proof.
  revert idx. induction labels as [|x labels IH]; intros [|i idx] Hlen Hin;
    simpl in *; try contradiction; try discriminate.
  destruct Hin as [->|Hin].
  - exists i. now left.
  - destruct (IH idx) as [j Hj]; [lia | assumption |]. exists j. now right.
Qed.
End EnumerateFacts.

Section OneHotRatio.
Local Open Scope R_scope.
Import simple_null_test.

Lemma real_orbits_facts :
  length real_orbits = 64%nat
  /\ In 2%Z real_orbits /\ In 6%Z real_orbits
  /\ forallb (fun k =>
        (2 <=? length (List.filter (fun x => bool_decide (x = k)) real_orbits))%nat
        && negb (k =? 0)%Z) real_orbits = true.
Proof.
  split; [reflexivity|]. split; [|split].
  - rewrite <- list_elem_of_In. apply (bool_decide_unpack _). vm_compute. exact I.
  - rewrite <- list_elem_of_In. apply (bool_decide_unpack _). vm_compute. exact I.
  - vm_compute. reflexivity.
Qed.

Lemma mean_all_zero (l : list R) : Forall (fun x => x = 0) l -> np.mean l = 0.
Proof.
  intros Hl. unfold np.mean. rewrite (sum_const 0) by assumption.
  unfold Rdiv. now rewrite !Rmult_0_l.
Qed.

Lemma nth_zero_counts (n i : nat) (labels : list Z) :
  nth i (zip_with (fun f o => f * IZR o)
           (map (fun c => IZR c / IZR 1) (repeat 0%Z n)) labels) 0 = 0.
Proof.
  revert i labels. induction n as [|n IH]; intros i labels.
  - now destruct i.
  - destruct labels as [|o labels]; [now destruct i|].
    destruct i as [|i]; simpl.
    + unfold Rdiv. now rewrite !Rmult_0_l.
    + apply IH.
Qed.

(** The shuffled labels are [l0 :: fake'], a rearrangement of
    [real_orbits]. *)
Context (l0 : Z) (fake' : list Z) (Hperm : l0 :: fake' ≡ₚ real_orbits).

Let fake : list Z := l0 :: fake'.
Let rscu : list R :=
  zip_with (fun f o => f * IZR o) (map (fun c => IZR c / IZR 1) one_hot) fake.
Let val : nat * Z -> R := fun io => nth io.1 rscu 0.
Let items : list (nat * Z) := enumerate fake.
Let items' : list (nat * Z) := combine (seq 1 (length fake')) fake'.
Let group_mean : nat * Z -> R :=
  fun t => np.mean (map val (with_key snd t.2 items)).

Lemma fake_label (k : Z) :
  In k fake ->
  (2 <= length (List.filter (fun x => bool_decide (x = k)) fake))%nat /\ k <> 0%Z.
Proof.
  intros Hin. destruct real_orbits_facts as (_ & _ & _ & Hall).
  rewrite forallb_forall in Hall.
  specialize (Hall k (Permutation_in _ Hperm Hin)).
  apply andb_true_iff in Hall as [Hlen Hnz].
  apply Nat.leb_le in Hlen. apply negb_true_iff, Z.eqb_neq in Hnz.
  split; [|exact Hnz].
  now rewrite (length_filter_Permutation _ _ _ Hperm).
Qed.

Lemma items_cons : items = (0%nat, l0) :: items'.
Proof. reflexivity. Qed.

Lemma val_head : val (0%nat, l0) = IZR l0.
Proof. unfold val, rscu, fake, one_hot. simpl. field. Qed.

Lemma val_tail (t : nat * Z) : In t items' -> val t = 0.
Proof.
  destruct t as [i x]. intros Hin. apply in_combine_l, in_seq in Hin.
  destruct i as [|i]; [lia|].
  change (nth i (zip_with (fun f o => f * IZR o)
                   (map (fun c => IZR c / IZR 1) (repeat 0%Z 63)) fake') 0 = 0).
  apply nth_zero_counts.
Qed.

Lemma tail_group_zero (k : Z) :
  Forall (fun x => x = 0) (map val (with_key snd k items')).
Proof.
  apply List.Forall_map, List.Forall_forall. intros t Ht.
  apply val_tail. unfold with_key in Ht. now apply filter_In in Ht.
Qed.

Lemma group_mean_other (t : nat * Z) : t.2 <> l0 -> group_mean t = 0.
Proof.
  intros Hne. unfold group_mean. rewrite items_cons. unfold with_key. simpl.
  rewrite bool_decide_eq_false_2 by congruence.
  apply mean_all_zero, tail_group_zero.
Qed.

Lemma group_mean_head : group_mean (0%nat, l0) <> 0.
Proof.
  unfold group_mean. rewrite items_cons. unfold with_key. cbn [List.filter snd].
  rewrite bool_decide_eq_true_2 by reflexivity.
  fold (with_key snd l0 items'). cbn [map]. rewrite val_head.
  unfold np.mean.
  change (np.sum (IZR l0 :: map val (with_key snd l0 items')))
    with (IZR l0 + np.sum (map val (with_key snd l0 items'))).
  rewrite (sum_const 0) by apply tail_group_zero. rewrite Rmult_0_l, Rplus_0_r.
  assert (Hl0 : IZR l0 <> 0).
  { apply not_0_IZR. apply (fake_label l0). now left. }
  assert (Hlen : INR (length (IZR l0 :: map val (with_key snd l0 items'))) <> 0).
  { apply not_0_INR. discriminate. }
  unfold Rdiv. apply Rmult_integral_contrapositive_currified; [exact Hl0|].
  now apply Rinv_neq_0_compat.
Qed.

Lemma items_length : length items = 64%nat.
Proof.
  unfold items, enumerate. rewrite length_combine, length_seq, Nat.min_id.
  unfold fake. rewrite (Permutation_length Hperm). reflexivity.
Qed.

(** The means of the groups are not all the same. *)
Lemma group_means_spread : np.std 1 (map group_mean items) <> 0.
Proof.
  assert (Hother : exists t, In t items /\ t.2 <> l0).
  { destruct real_orbits_facts as (_ & H2 & H6 & _).
    apply (Permutation_in _ (Permutation_sym Hperm)) in H2, H6.
    destruct (decide (l0 = 2%Z)) as [->|Hne].
    - destruct (In_combine_r 6%Z (seq 0 (length fake)) fake) as [i Hi];
        [now rewrite length_seq | exact H6 |].
      exists (i, 6%Z). split; [exact Hi | discriminate].
    - destruct (In_combine_r 2%Z (seq 0 (length fake)) fake) as [i Hi];
        [now rewrite length_seq | exact H2 |].
      exists (i, 2%Z). split; [exact Hi | simpl; congruence]. }
  destruct Hother as (t & Ht & Hne).
  apply (std_nonzero 1 (group_mean (0%nat, l0)) (group_mean t)).
  - apply in_map. rewrite items_cons. now left.
  - now apply in_map.
  - rewrite (group_mean_other t Hne). apply group_mean_head.
  - rewrite length_map, items_length. lia.
Qed.

Lemma groups_all_multi :
  List.filter (fun vs : list R => (1 <? length vs)%nat)
              (values (grouped snd val [] items))
  = values (grouped snd val [] items).
Proof.
  apply forallb_filter_id. rewrite values_grouped.
  apply forallb_forall. intros vs Hvs.
  apply in_map_iff in Hvs as (k & <- & Hk).
  apply In_keys_grouped in Hk as [[]|Hk].
  assert (Hin : In k fake).
  { apply in_map_iff in Hk as ([i x] & <- & Hix). now apply in_combine_r in Hix. }
  apply Nat.ltb_lt. rewrite length_map.
  rewrite <- (length_map snd), (with_key_combine k (seq 0 (length fake)) fake)
    by now rewrite length_seq.
  pose proof (fake_label k Hin) as [Hlen _]. lia.
Qed.

(** For every rearrangement of the labels the row [one_hot] has a
    finite ratio. *)
Lemma row_ratio_one_hot_cons : exists r, row_ratio (l0 :: fake') one_hot = Some r.
Proof.
  unfold row_ratio. change (foldr Z.add 0%Z one_hot) with 1%Z. cbn [Z.eqb].
  change (foldl _ [] (enumerate (l0 :: fake'))) with (grouped snd val [] items).
  rewrite groups_all_multi.
  set (intra_vals := flat_map _ _). set (inter_vals := flat_map _ _).
  assert (Hinter : inter_vals ≡ₚ map group_mean items).
  { unfold inter_vals.
    rewrite (flat_map_ext _ (fun vs => map (fun _ => np.mean vs) vs))
      by (intros vs; apply repeat_as_map).
    exact (grouped_traversal snd val (fun vs _ => np.mean vs) items). }
  assert (Hintra : intra_vals
            ≡ₚ map (fun t => val t - np.mean (map val (with_key snd t.2 items))) items).
  { exact (grouped_traversal snd val (fun vs x => x - np.mean vs) items). }
  rewrite (Permutation_length Hinter), (Permutation_length Hintra).
  rewrite !length_map, items_length. cbn [Nat.ltb Nat.leb andb].
  destruct (Req_dec_T (np.std 1 inter_vals) 0) as [E|_]; [|eauto].
  exfalso. apply group_means_spread. now rewrite <- (std_Permutation 1 _ _ Hinter).
Qed.
End OneHotRatio.

Section SampleDependence.
Local Open Scope R_scope.
Import simple_null_test.
Context {rng : Type} (shuffle : rng -> list Z -> rng * list Z).

(** [rng.shuffle] rearranges the list it is given. *)
Hypothesis shuffle_permutes : forall g xs, (shuffle g xs).2 ≡ₚ xs.

Lemma row_ratio_one_hot (fake : list Z) :
  fake ≡ₚ real_orbits -> exists r, row_ratio fake one_hot = Some r.
Proof.
  destruct fake as [|l0 fake']; intros Hperm.
  - apply Permutation_nil in Hperm. discriminate.
  - now apply row_ratio_one_hot_cons.
Qed.

Lemma row_ratio_all_zeros (fake : list Z) : row_ratio fake all_zeros = None.
Proof. reflexivity. Qed.

Lemma trial_ratios_without (fake : list Z) :
  omap (row_ratio fake) sample_without = [].
Proof.
  apply omap_all_None. intros row Hrow. apply repeat_spec in Hrow. subst row.
  apply row_ratio_all_zeros.
Qed.

Lemma trial_ratios_with (fake : list Z) :
  fake ≡ₚ real_orbits -> exists r, omap (row_ratio fake) sample_with = [r].
Proof.
  intros Hperm. destruct (row_ratio_one_hot fake Hperm) as [r Hr].
  exists r. unfold sample_with.
  change (omap (row_ratio fake) (one_hot :: repeat all_zeros 999))
    with (match row_ratio fake one_hot with
          | Some y => y :: omap (row_ratio fake) (repeat all_zeros 999)
          | None => omap (row_ratio fake) (repeat all_zeros 999)
          end).
  rewrite Hr, (omap_all_None (row_ratio fake) (repeat all_zeros 999)); [reflexivity|].
  intros row Hrow. apply repeat_spec in Hrow. subst row.
  apply row_ratio_all_zeros.
Qed.

Lemma trial_loop_without (n : nat) (g : rng) (null_ratios : list R) :
  trial_loop shuffle n g sample_without null_ratios = null_ratios.
Proof.
  revert g null_ratios. induction n as [|n IH]; intros g null_ratios; [reflexivity|].
  cbn [trial_loop]. destruct (shuffle g real_orbits) as [g' fake_orbits].
  now rewrite trial_ratios_without, IH.
Qed.

Lemma trial_loop_keeps (n : nat) (g : rng) (sample_data : list (list Z))
  (null_ratios : list R) :
  null_ratios <> [] -> trial_loop shuffle n g sample_data null_ratios <> [].
Proof.
  revert g null_ratios. induction n as [|n IH]; intros g null_ratios Hne; [exact Hne|].
  cbn [trial_loop]. destruct (shuffle g real_orbits) as [g' fake_orbits].
  apply IH. destruct (omap _ sample_data); [exact Hne|].
  destruct null_ratios; discriminate.
Qed.

Lemma trial_loop_with (n : nat) (g : rng) :
  trial_loop shuffle (S n) g sample_with [] <> [].
Proof.
  cbn [trial_loop]. pose proof (shuffle_permutes g real_orbits) as Hperm.
  destruct (shuffle g real_orbits) as [g' fake_orbits]. simpl in Hperm.
  destruct (trial_ratios_with fake_orbits Hperm) as [r ->].
  apply trial_loop_keeps. discriminate.
Qed.

Lemma sparse_table_samples :
  is_sample sparse_table sample_without /\ is_sample sparse_table sample_with.
Proof.
  unfold is_sample, sparse_table, sample_without, sample_with. split.
  - split; [now rewrite length_app, !repeat_length|].
    exists [one_hot]. reflexivity.
  - split; [now rewrite length_cons, length_app, !repeat_length|].
    exists [all_zeros].
    assert (E : repeat all_zeros 999 ++ [all_zeros] = repeat all_zeros 1000)
      by (symmetry; apply (repeat_cons 999 all_zeros)).
    rewrite <- app_comm_cons, E. apply Permutation_cons_append.
Qed.

(** C6 (fails on simple_null_test.py): for the table [sparse_table] of
    1001 organisms, two samples that the unseeded [df.sample] may draw
    give different results with the same generator state and the same
    number of trials: one run prints NaN for Z and P, the other a
    number for P. *)
Theorem simple_null_test_depends_on_sample (g0 : rng) :
  is_sample sparse_table sample_without
  /\ is_sample sparse_table sample_with
  /\ run shuffle g0 sample_without = (None, None)
  /\ (exists p, (run shuffle g0 sample_with).2 = Some p)
  /\ run shuffle g0 sample_without <> run shuffle g0 sample_with.
Proof.
  destruct sparse_table_samples as [Ha Hb].
  assert (Hwithout : run shuffle g0 sample_without = (None, None)).
  { unfold run. now rewrite trial_loop_without. }
  assert (Hwith : exists p, (run shuffle g0 sample_with).2 = Some p).
  { unfold run. cbn [snd]. pose proof (trial_loop_with 999 g0) as Hne.
    change (S 999) with 1000%nat in Hne.
    destruct (trial_loop shuffle 1000 g0 sample_with []); [congruence|].
    eexists. reflexivity. }
  repeat split; try assumption.
  - apply Ha.
  - apply Hb.
  - destruct Hwith as [p Hp]. rewrite Hwithout. intros E.
    rewrite <- E in Hp. discriminate.
Qed.
End SampleDependence.

Lemma simple_null_test_depends_on_sample_witness :
  simple_null_test.is_sample sparse_table sample_without
  /\ simple_null_test.is_sample sparse_table sample_with
  /\ simple_null_test.run no_shuffle tt sample_without = (None, None)
  /\ (exists p, (simple_null_test.run no_shuffle tt sample_with).2 = Some p)
  /\ simple_null_test.run no_shuffle tt sample_without
     <> simple_null_test.run no_shuffle tt sample_with.
Proof.
  apply (simple_null_test_depends_on_sample no_shuffle).
  intros g xs. reflexivity.
Defined.

(** ** paired_fc_analysis.py: the per-family statistic *)

Section PairedCompliance.
Local Open Scope R_scope.
Import paired_fc_analysis.
Context {orbit_id : Type} `{EqDecision orbit_id}.
Context (row : string -> Z) (orbit_map : gmap string orbit_id).

Lemma sum_scaled_counts (e : R) (codons : list string) :
  np.sum (map (fun c => IZR (row c) / e) codons)
  = IZR (foldr Z.add 0%Z (map row codons)) / e.
Proof.
  unfold np.sum. induction codons as [|c codons IH]; simpl.
  - unfold Rdiv. now rewrite Rmult_0_l.
  - rewrite IH, plus_IZR. unfold Rdiv. ring.
Qed.

(** The per-family RSCU values of a family with positive total average
    to 1. *)
Lemma family_rscus_mean (codons : list string) :
  (0 < family_total row codons)%Z -> np.mean (family_rscus row codons) = 1.
Proof.
  intros Hpos.
  assert (Hlen : 0 < INR (length codons)).
  { apply lt_0_INR. destruct codons; [|simpl; lia].
    unfold family_total in Hpos. simpl in Hpos. lia. }
  assert (HT : 0 < IZR (family_total row codons)) by now apply IZR_lt.
  set (e := IZR (family_total row codons) / INR (length codons)).
  assert (He : 0 < e) by now apply Rdiv_lt_0_compat.
  assert (E : family_rscus row codons = map (fun c => IZR (row c) / e) codons).
  { unfold family_rscus. apply map_ext. intros c. fold e.
    destruct (Rlt_dec 0 e) as [_|Hn]; [reflexivity | contradiction]. }
  unfold np.mean. rewrite E, sum_scaled_counts, length_map.
  fold (family_total row codons). unfold e. field. lra.
Qed.

Lemma family_step_means (acc : list R * list R) (codons : list string) :
  Forall (fun x => x = 1) acc.2 ->
  Forall (fun x => x = 1) (family_step row acc codons).2.
Proof.
  intros Hacc. unfold family_step.
  destruct (1 <? length codons)%nat; [|exact Hacc].
  destruct (Z.ltb_spec 0 (family_total row codons)) as [Hpos|_]; [|exact Hacc].
  simpl. apply Forall_app. split; [exact Hacc|].
  constructor; [now apply family_rscus_mean | constructor].
Qed.

Lemma orbit_means_all_one (families : list (list string)) (acc : list R * list R) :
  Forall (fun x => x = 1) acc.2 ->
  Forall (fun x => x = 1) (foldl (family_step row) acc families).2.
Proof.
  revert acc. induction families as [|codons families IH]; intros acc Hacc; simpl.
  - exact Hacc.
  - apply IH. now apply family_step_means.
Qed.
End PairedCompliance.

(** ** simple_null_test.py: the p-value has no correction *)

Lemma simple_null_test_p_value_zero : simple_null_test.p_value [1%R] = Some 0%R.
Proof.
  unfold simple_null_test.p_value, simple_null_test.OBSERVED, np.Rleb. cbn [List.filter].
  destruct (Rle_dec (4810 / 1000) 1) as [Hle|_]; [lra|].
  simpl. f_equal. lra.
Qed.

(** * Further properties of the scripts *)

(** ** np.median does not depend on the order of the values *)

Section MedianFacts.
Local Open Scope R_scope.

Lemma insert_sorted_Permutation (x : R) (l : list R) :
  np.insert_sorted x l ≡ₚ x :: l.
Proof.
  induction l as [|y l IH]; simpl; [reflexivity|].
  destruct (np.Rleb x y); [reflexivity|].
  rewrite IH. apply perm_swap.
Qed.

Lemma sort_Permutation (l : list R) : np.sort l ≡ₚ l.
Proof.
  unfold np.sort. induction l as [|x l IH]; simpl; [reflexivity|].
  now rewrite insert_sorted_Permutation, IH.
Qed.

Lemma insert_sorted_Sorted (x : R) (l : list R) :
  Sorted Rle l -> Sorted Rle (np.insert_sorted x l).
Proof.
  induction l as [|y l IH]; intros Hs; simpl.
  - repeat constructor.
  - unfold np.Rleb. destruct (Rle_dec x y) as [Hle|Hgt].
    + constructor; [assumption | now constructor].
    + inversion Hs as [|? ? Hs' Hhd]; subst. constructor; [now apply IH|].
      destruct l as [|z l]; simpl.
      * constructor. lra.
      * unfold np.Rleb. destruct (Rle_dec x z); constructor; [lra|].
        now inversion Hhd.
Qed.

Lemma sort_Sorted (l : list R) : Sorted Rle (np.sort l).
Proof.
  unfold np.sort. induction l as [|x l IH]; simpl; [constructor|].
  now apply insert_sorted_Sorted.
Qed.

#[local] Instance Rle_trans_inst : Transitive Rle.
Proof. intros x y z. apply Rle_trans. Qed.

#[local] Instance Rle_antisym_inst : AntiSymm (=) Rle.
Proof. intros x y. apply Rle_antisym. Qed.

Lemma sort_of_Permutation (l l' : list R) : l ≡ₚ l' -> np.sort l = np.sort l'.
Proof.
  intros Hp. apply (Sorted_unique Rle); try apply sort_Sorted.
  now rewrite !sort_Permutation.
Qed.

Lemma median_Permutation (l l' : list R) : l ≡ₚ l' -> np.median l = np.median l'.
Proof. intros Hp. unfold np.median. now rewrite (sort_of_Permutation l l' Hp). Qed.

Lemma nth_sort_nonneg (l : list R) (i : nat) :
  Forall (fun x => 0 <= x) l -> 0 <= nth i (np.sort l) 0.
Proof.
  intros Hl. destruct (nth_in_or_default i (np.sort l) 0) as [Hin|E]; [|rewrite E; lra].
  rewrite List.Forall_forall in Hl. apply Hl.
  apply (Permutation_in _ (sort_Permutation l)), Hin.
Qed.

Lemma median_nonneg (l : list R) : Forall (fun x => 0 <= x) l -> 0 <= np.median l.
Proof.
  intros Hl. unfold np.median.
  pose proof (nth_sort_nonneg l) as Hn.
  destruct (Nat.even _).
  - pose proof (Hn (length (np.sort l) / 2 - 1)%nat Hl).
    pose proof (Hn (length (np.sort l) / 2)%nat Hl). lra.
  - now apply Hn.
Qed.
End MedianFacts.

(** ** fc_checker.py: the list of ratios and its median *)

Section CohortFacts.
Local Open Scope R_scope.
Import fc_checker.

Lemma main_row_appended (orbit : codon -> Z) (ratios : list R) (row : list Z) :
  main_row orbit ratios row
  = ratios ++ match appended_ratio orbit row with Some r => [r] | None => [] end.
Proof.
  unfold main_row, appended_ratio.
  destruct (to_rscu row orbit) as [rscu|]; [|now rewrite app_nil_r].
  destruct (sigma_ratio rscu orbit); [reflexivity | now rewrite app_nil_r].
Qed.

Lemma main_loop_omap (orbit : codon -> Z) (rows : list (list Z)) (ratios : list R) :
  foldl (main_row orbit) ratios rows = ratios ++ omap (appended_ratio orbit) rows.
Proof.
  revert ratios. induction rows as [|row rows IH]; intros ratios;
    cbn [foldl omap list_omap].
  - now rewrite app_nil_r.
  - rewrite IH, main_row_appended, <- app_assoc.
    now destruct (appended_ratio orbit row).
Qed.

Lemma main_ratios_omap (orbit : codon -> Z) (rows : list (list Z)) :
  main_ratios orbit rows = omap (appended_ratio orbit) rows.
Proof. unfold main_ratios. now rewrite main_loop_omap. Qed.

Lemma length_omap_le {X Y : Type} (f : X -> option Y) (l : list X) :
  (length (omap f l) <= length l)%nat.
Proof.
  induction l as [|x l IH]; cbn [omap list_omap length]; [lia|].
  destruct (f x); simpl; lia.
Qed.

(** Reading several tables one after the other gives the ratios of the
    first followed by the ratios of the second, each organism adding at
    most one ratio. *)
Theorem main_ratios_tables (orbit : codon -> Z) (table1 table2 : list (list Z)) :
  main_ratios orbit (table1 ++ table2)
  = main_ratios orbit table1 ++ main_ratios orbit table2
  /\ (length (main_ratios orbit table1) <= length table1)%nat.
Proof.
  rewrite !main_ratios_omap. split; [apply omap_app | apply length_omap_le].
Qed.

(** The reported median does not depend on the order of the organisms:
    rearranged rows give a rearranged list of ratios and the same
    median (or the same exit when no row is valid). *)
Theorem main_median_row_order (orbit : codon -> Z) (rows rows' : list (list Z)) :
  rows ≡ₚ rows' ->
  main_ratios orbit rows ≡ₚ main_ratios orbit rows'
  /\ main_median orbit rows = main_median orbit rows'.
Proof.
  intros Hp.
  assert (Hr : main_ratios orbit rows ≡ₚ main_ratios orbit rows').
  { rewrite !main_ratios_omap. now apply omap_Permutation. }
  split; [exact Hr|]. unfold main_median.
  destruct (main_ratios orbit rows) as [|r rs] eqn:E.
  - apply Permutation_nil in Hr. now rewrite Hr.
  - destruct (main_ratios orbit rows') as [|r' rs'] eqn:E'.
    + symmetry in Hr. apply Permutation_nil in Hr. discriminate.
    + f_equal. now apply median_Permutation.
Qed.

Lemma main_median_row_order_witness :
  main_ratios standard_orbit [one_hot; all_zeros; flat_counts]
  ≡ₚ main_ratios standard_orbit [flat_counts; one_hot; all_zeros]
  /\ main_median standard_orbit [one_hot; all_zeros; flat_counts]
     = main_median standard_orbit [flat_counts; one_hot; all_zeros].
Proof.
  apply (main_median_row_order standard_orbit).
  symmetry. apply (Permutation_cons_append [one_hot; all_zeros] flat_counts).
Defined.

Lemma sigma_ratio_nonneg (rscu : list R) (orbit : codon -> Z) (r : R) :
  sigma_ratio rscu orbit = Some r -> 0 <= r.
Proof.
  unfold sigma_ratio. destruct (Req_dec_T _ 0) as [|Hne]; [discriminate|].
  intros [= <-].
  pose proof (sqrt_pos (np.sum (map (fun x => (x - np.mean (inter (build_groups rscu orbit)))
      * (x - np.mean (inter (build_groups rscu orbit)))) (inter (build_groups rscu orbit)))
      / INR (length (inter (build_groups rscu orbit)) - 1))) as Hden.
  fold (np.std 1 (inter (build_groups rscu orbit))) in Hden.
  apply Rmult_le_pos; [apply sqrt_pos|].
  apply Rlt_le, Rinv_0_lt_compat. lra.
Qed.

(** No ratio that enters the cohort is negative, and neither is the
    reported median. *)
Theorem main_ratios_nonneg (orbit : codon -> Z) (rows : list (list Z)) :
  Forall (fun r => 0 <= r) (main_ratios orbit rows)
  /\ match main_median orbit rows with
     | Some med => 0 <= med
     | None => main_ratios orbit rows = []
     end.
Proof.
  assert (Hall : Forall (fun r => 0 <= r) (main_ratios orbit rows)).
  { rewrite main_ratios_omap. apply List.Forall_forall. intros r Hr.
    apply list_elem_of_In, list_elem_of_omap in Hr as (row & _ & Hrow).
    unfold appended_ratio in Hrow. destruct (to_rscu row orbit) as [rscu|]; [|discriminate].
    now apply (sigma_ratio_nonneg rscu orbit). }
  split; [exact Hall|]. unfold main_median.
  destruct (main_ratios orbit rows) as [|r rs]; [reflexivity|].
  now apply median_nonneg.
Qed.
End CohortFacts.

(** ** fc_checker.py: what the ratio depends on *)

Section RatioFacts.
Local Open Scope R_scope.
Import fc_checker.

(** Only the grouping that the labels induce matters to the ratio: two
    orbit maps that put the same codons together give the same result. *)
Theorem sigma_ratio_grouping (rscu : list R) (orbit orbit' : codon -> Z) :
  (forall c c', orbit c = orbit c' <-> orbit' c = orbit' c') ->
  sigma_ratio rscu orbit = sigma_ratio rscu orbit'.
Proof.
  intros Hsame.
  assert (Hm : forall c, spec_members rscu orbit (orbit c)
                         = spec_members rscu orbit' (orbit' c)).
  { intros c. unfold spec_members. f_equal. apply filter_ext. intros [v c'].
    apply bool_decide_ext. simpl. apply Hsame. }
  rewrite !sigma_ratio_spec_eq. unfold spec_fc_ratio, spec_intra_set, spec_inter_set.
  rewrite (map_ext (fun vc : R * codon => vc.1 - np.mean (spec_members rscu orbit (orbit vc.2)))
                   (fun vc => vc.1 - np.mean (spec_members rscu orbit' (orbit' vc.2))))
    by (intros vc; now rewrite Hm).
  rewrite (map_ext (fun vc : R * codon => np.mean (spec_members rscu orbit (orbit vc.2)))
                   (fun vc => np.mean (spec_members rscu orbit' (orbit' vc.2))))
    by (intros vc; now rewrite Hm).
  reflexivity.
Qed.

Lemma sigma_ratio_grouping_witness :
  sigma_ratio one_hot_rscu standard_orbit
  = sigma_ratio one_hot_rscu (fun c => (standard_orbit c + 10)%Z).
Proof.
  apply (sigma_ratio_grouping one_hot_rscu standard_orbit
           (fun c => (standard_orbit c + 10)%Z)).
  intros c c'. lia.
Defined.
End RatioFacts.

(** ** fc_checker.py: RSCU is a matter of relative counts *)

Section RscuFacts.
Local Open Scope R_scope.
Import fc_checker.

Lemma foldr_Zadd_scale (k : Z) (l : list Z) :
  foldr Z.add 0%Z (map (Z.mul k) l) = (k * foldr Z.add 0%Z l)%Z.
Proof. induction l as [|x l IH]; simpl; [lia | rewrite IH; lia]. Qed.

Lemma nth_scaled (k : Z) (l : list Z) (i : nat) :
  nth i (map (Z.mul k) l) 0%Z = (k * nth i l 0)%Z.
Proof.
  revert i. induction l as [|x l IH]; intros [|i]; simpl; try lia. apply IH.
Qed.

(** Multiplying every count of an organism by the same non-zero factor
    changes neither its RSCU vector nor what the row loop appends for
    it. *)
Theorem to_rscu_scale (k : Z) (counts : list Z) (orbit : codon -> Z) :
  k <> 0%Z ->
  to_rscu (map (Z.mul k) counts) orbit = to_rscu counts orbit
  /\ appended_ratio orbit (map (Z.mul k) counts) = appended_ratio orbit counts.
Proof.
  intros Hk.
  assert (E : to_rscu (map (Z.mul k) counts) orbit = to_rscu counts orbit).
  { unfold to_rscu. rewrite foldr_Zadd_scale.
    destruct (Z.eqb_spec (foldr Z.add 0%Z counts) 0) as [Hz|Hnz].
    - rewrite Hz, Z.mul_0_r. reflexivity.
    - destruct (Z.eqb_spec (k * foldr Z.add 0%Z counts) 0) as [Hz'|_]; [lia|].
      f_equal. apply map_ext. intros i. f_equal.
      rewrite !nth_freq, nth_scaled, !mult_IZR.
      field. split; apply not_0_IZR; assumption. }
  split; [exact E|]. unfold appended_ratio. now rewrite E.
Qed.

Lemma to_rscu_scale_witness :
  to_rscu (map (Z.mul 3) one_hot) standard_orbit = to_rscu one_hot standard_orbit
  /\ appended_ratio standard_orbit (map (Z.mul 3) one_hot)
     = appended_ratio standard_orbit one_hot.
Proof. apply (to_rscu_scale 3 one_hot standard_orbit). lia. Defined.

Lemma map_nth_seq (l : list Z) :
  map (fun i => nth i l 0%Z) (seq 0 (length l)) = l.
Proof.
  apply nth_ext with (d := 0%Z) (d' := 0%Z); [now rewrite length_map, length_seq|].
  intros i Hi. rewrite length_map, length_seq in Hi. now rewrite nth_map_seq.
Qed.

Lemma sum_freq (total : Z) (l : list Z) :
  np.sum (map (fun c => IZR c / IZR total) l) = IZR (foldr Z.add 0%Z l) / IZR total.
Proof.
  unfold np.sum. induction l as [|c l IH]; simpl.
  - unfold Rdiv. now rewrite Rmult_0_l.
  - rewrite IH, plus_IZR. unfold Rdiv. ring.
Qed.

(** Dividing every RSCU value of a 64-count organism by the label of its
    codon gives back the frequencies, which add up to 1. *)
Theorem rscu_frequencies_sum (counts : list Z) (orbit : codon -> Z) :
  length counts = 64%nat ->
  foldr Z.add 0%Z counts <> 0%Z ->
  (forall c, orbit c <> 0%Z) ->
  exists rscu,
    to_rscu counts orbit = Some rscu
    /\ np.sum (map (fun i => nth i rscu 0 / IZR (orbit (nth i CODON_ORDER UUU)))
                   (seq 0 64)) = 1.
Proof.
  intros Hlen Htot Horbit.
  destruct (to_rscu_nth counts orbit 0) as (rscu & E & _ & _); [assumption | lia |].
  exists rscu. split; [exact E|].
  rewrite (map_ext_in _ (fun i => IZR (nth i counts 0%Z) / IZR (foldr Z.add 0%Z counts))).
  - rewrite <- (map_map (fun i => nth i counts 0%Z)
                        (fun c => IZR c / IZR (foldr Z.add 0%Z counts))).
    rewrite <- Hlen at 1. rewrite map_nth_seq, sum_freq.
    field. now apply not_0_IZR.
  - intros i Hi. apply in_seq in Hi.
    destruct (to_rscu_nth counts orbit i) as (rscu' & E' & _ & Hn); [assumption | lia |].
    replace rscu with rscu' by congruence. rewrite Hn.
    field. split; apply not_0_IZR; [assumption | apply Horbit].
Qed.

Lemma rscu_frequencies_sum_witness :
  exists rscu,
    to_rscu flat_counts standard_orbit = Some rscu
    /\ np.sum (map (fun i => nth i rscu 0 / IZR (standard_orbit (nth i CODON_ORDER UUU)))
                   (seq 0 64)) = 1.
Proof.
  apply (rscu_frequencies_sum flat_counts standard_orbit).
  - reflexivity.
  - vm_compute. discriminate.
  - intros c. destruct c as [[[] []] []]; vm_compute; discriminate.
Defined.
End RscuFacts.

(** ** fc_checker.py: an accepted orbit map covers every codon *)

Section LoadMapFacts.
Import fc_checker.

Lemma all_codons_listed (c : codon) : In c CODON_ORDER.
Proof. destruct c as [[[] []] []]; vm_compute; tauto. Qed.

Lemma CODON_ORDER_NoDup : List.NoDup CODON_ORDER.
Proof.
  apply NoDup_ListNoDup. apply (bool_decide_unpack _). vm_compute. exact I.
Qed.

Lemma dict_get_In {K V : Type} `{EqDecision K} (d : V) (items : list (K * V)) (k : K) :
  In k (map fst items) -> In (k, dict_get d items k) items.
Proof.
  induction items as [|[k0 v] items IH]; simpl; [tauto|].
  intros [->|Hin].
  - rewrite decide_True by reflexivity. now left.
  - destruct (decide (k = k0)) as [->|Hne]; [now left | right; now apply IH].
Qed.

Lemma dict_get_unique {K V : Type} `{EqDecision K} (d : V) (items : list (K * V))
  (k : K) (v : V) :
  List.NoDup (map fst items) -> In (k, v) items -> dict_get d items k = v.
Proof.
  induction items as [|[k0 v0] items IH]; simpl; [tauto|].
  intros Hnd Hin. inversion Hnd as [|? ? Hnotin Hrest]; subst.
  destruct Hin as [[= -> ->]|Hin].
  - now rewrite decide_True.
  - destruct (decide (k = k0)) as [->|Hne]; [|now apply IH].
    exfalso. apply Hnotin. exact (in_map fst _ _ Hin).
Qed.

Lemma dict_get_keys {K V : Type} `{EqDecision K} (d : V) (items : list (K * V)) :
  List.NoDup (map fst items) -> map (dict_get d items) (map fst items) = map snd items.
Proof.
  intros Hnd. rewrite map_map. apply map_ext_in. intros [k v] Hin. simpl.
  now apply dict_get_unique.
Qed.

Lemma rna_names_NoDup : List.NoDup (map rna_name CODON_ORDER).
Proof.
  apply NoDup_ListNoDup. apply (bool_decide_unpack _). vm_compute. exact I.
Qed.

Lemma load_map_keys (rows : list (string * option Z)) (ORBIT : list (string * Z)) :
  mapM (fun r : string * option Z => pair r.1 <$> r.2) rows = Some ORBIT ->
  map fst ORBIT = map fst rows.
Proof.
  rewrite mapM_Some. induction 1 as [|[name label] [name' z] rows ORBIT Hr _ IH];
    [reflexivity|].
  cbn [map fst]. rewrite IH. f_equal.
  cbn [fst snd] in Hr. destruct label; [|discriminate]. now injection Hr as <- _.
Qed.

Lemma main_DEGEN_defined (ORBIT : list (string * Z)) :
  is_Some (main_DEGEN ORBIT) <-> forall c : codon, In (rna_name c) (map fst ORBIT).
Proof.
  unfold main_DEGEN. rewrite mapM_is_Some, List.Forall_forall. split.
  - intros Hall c. specialize (Hall (rna_name c) (in_map _ _ _ (all_codons_listed c))).
    cbn in Hall. apply list_elem_of_In.
    destruct (decide (rna_name c ∈ ORBIT.*1)) as [Hin|Hnot]; [exact Hin|].
    apply not_elem_of_list_to_map_1 in Hnot.
    rewrite Hnot in Hall. now destruct Hall.
  - intros Hall name Hname. apply in_map_iff in Hname as (c & <- & _). cbn.
    apply not_eq_None_Some. intros Hnone.
    apply not_elem_of_list_to_map_2 in Hnone. apply Hnone, list_elem_of_In, Hall.
Qed.

(** [load_map] checks the number of rows, the distinctness of the codon
    texts and that every label is an integer, not which texts they are.
    For a map that it accepts, the lookups [ORBIT[c]] of [main] all
    succeed exactly when every RNA codon name is among the texts, that
    is when the 64 texts are the 64 RNA codon names.  The standard map
    is accepted and looked up without error; the same map with the
    codons spelled as DNA is accepted as well, and [main] then stops
    with a [KeyError]. *)
Theorem load_map_key_check :
  (forall rows ORBIT,
     load_map rows = Some ORBIT ->
     length ORBIT = 64%nat
     /\ map fst ORBIT = map fst rows
     /\ List.NoDup (map fst ORBIT)
     /\ (is_Some (main_DEGEN ORBIT) <-> forall c : codon, In (rna_name c) (map fst rows))
     /\ (is_Some (main_DEGEN ORBIT) <-> map rna_name CODON_ORDER ≡ₚ map fst rows))
  /\ (exists ORBIT, load_map standard_rows = Some ORBIT
                    /\ main_DEGEN ORBIT = Some simple_null_test.real_orbits)
  /\ (exists ORBIT, load_map dna_rows = Some ORBIT /\ main_DEGEN ORBIT = None).
Proof.
  split; [|split].
  - intros rows ORBIT. unfold load_map.
    destruct (decide _) as [[Hlen Hnd]|]; [|discriminate].
    intros HORBIT. pose proof (load_map_keys rows ORBIT HORBIT) as Hkeys.
    apply NoDup_ListNoDup in Hnd.
    assert (Hlen' : length ORBIT = 64%nat).
    { rewrite <- (length_map fst), Hkeys, length_map. exact Hlen. }
    split; [exact Hlen'|]. split; [exact Hkeys|].
    split; [now rewrite Hkeys|].
    rewrite main_DEGEN_defined, Hkeys. split; [reflexivity|].
    split.
    + intros Hall. apply NoDup_Permutation_bis.
      * exact rna_names_NoDup.
      * rewrite !length_map, Hlen. reflexivity.
      * intros name Hname. apply in_map_iff in Hname as (c & <- & _). apply Hall.
    + intros Hperm c. eapply Permutation_in; [exact Hperm|].
      apply in_map, all_codons_listed.
  - eexists. split; vm_compute; reflexivity.
  - eexists. split; vm_compute; reflexivity.
Qed.
End LoadMapFacts.

(** ** simple_null_test.py: the null medians and the p-value *)

Section NullTestFacts.
Local Open Scope R_scope.
Import simple_null_test.
Context {rng : Type} (shuffle : rng -> list Z -> rng * list Z).

Lemma trial_loop_length (trials : nat) (g : rng) (sample_data : list (list Z))
  (null_ratios : list R) :
  (length (trial_loop shuffle trials g sample_data null_ratios)
   <= length null_ratios + trials)%nat.
Proof.
  revert g null_ratios. induction trials as [|n IH]; intros g null_ratios;
    cbn [trial_loop]; [lia|].
  destruct (shuffle g real_orbits) as [g' fake_orbits].
  etransitivity; [apply IH|].
  destruct (omap _ sample_data); [lia|]. rewrite length_app. simpl. lia.
Qed.

Lemma trial_loop_Permutation (trials : nat) (g : rng)
  (sample_data sample_data' : list (list Z)) (null_ratios : list R) :
  sample_data ≡ₚ sample_data' ->
  trial_loop shuffle trials g sample_data null_ratios
  = trial_loop shuffle trials g sample_data' null_ratios.
Proof.
  intros Hp. revert g null_ratios.
  induction trials as [|n IH]; intros g null_ratios; cbn [trial_loop]; [reflexivity|].
  destruct (shuffle g real_orbits) as [g' fake_orbits].
  pose proof (omap_Permutation (row_ratio fake_orbits) _ _ Hp) as Ho.
  destruct (omap (row_ratio fake_orbits) sample_data) as [|r rs] eqn:E.
  - apply Permutation_nil in Ho. rewrite Ho. apply IH.
  - destruct (omap (row_ratio fake_orbits) sample_data') as [|r' rs'] eqn:E'.
    + symmetry in Ho. apply Permutation_nil in Ho. discriminate.
    + rewrite (median_Permutation _ _ Ho). apply IH.
Qed.

(** The order of the sampled rows does not matter to the script: only
    which rows were drawn does.  At most one null median is recorded
    per trial. *)
Theorem run_sample_order (g0 : rng) (sample_data sample_data' : list (list Z)) :
  sample_data ≡ₚ sample_data' ->
  run shuffle g0 sample_data = run shuffle g0 sample_data'
  /\ (length (trial_loop shuffle 1000 g0 sample_data []) <= 1000)%nat.
Proof.
  intros Hp. split.
  - unfold run. now rewrite (trial_loop_Permutation 1000 g0 _ _ [] Hp).
  - apply (trial_loop_length 1000 g0 sample_data []).
Qed.
End NullTestFacts.

Lemma run_sample_order_witness :
  simple_null_test.run no_shuffle tt [one_hot; all_zeros]
  = simple_null_test.run no_shuffle tt [all_zeros; one_hot]
  /\ (length (simple_null_test.trial_loop no_shuffle 1000 tt [one_hot; all_zeros] [])
      <= 1000)%nat.
Proof.
  apply (run_sample_order no_shuffle tt [one_hot; all_zeros] [all_zeros; one_hot]).
  apply perm_swap.
Defined.

Section PValueFacts.
Local Open Scope R_scope.
Import simple_null_test.

Lemma filter_nil_iff {X : Type} (p : X -> bool) (l : list X) :
  List.filter p l = [] <-> Forall (fun x => p x = false) l.
Proof.
  induction l as [|x l IH]; simpl.
  - split; [constructor | reflexivity].
  - destruct (p x) eqn:E.
    + split; [discriminate | intros H; inversion H; congruence].
    + rewrite IH. split; [now constructor | intros H; now inversion H].
Qed.

(** The p-value of simple_null_test.py is a fraction between 0 and 1
    without any correction: it is 0 exactly when every null median is
    below [OBSERVED], and NaN only when no null median was recorded. *)
Theorem p_value_fraction (null_ratios : list R) :
  match p_value null_ratios with
  | None => null_ratios = []
  | Some p =>
      0 <= p <= 1
      /\ (p = 0 <-> Forall (fun n => n < OBSERVED) null_ratios)
  end.
Proof.
  unfold p_value. destruct null_ratios as [|n0 rest] eqn:E; [reflexivity|].
  rewrite <- E. set (hits := List.filter (fun n => np.Rleb OBSERVED n) null_ratios).
  assert (Hlen : 0 < INR (length null_ratios)).
  { apply lt_0_INR. rewrite E. simpl. lia. }
  assert (Hhits : INR (length hits) <= INR (length null_ratios)).
  { apply le_INR, List.filter_length_le. }
  pose proof (pos_INR (length hits)) as Hpos.
  split; [split|].
  - apply Rmult_le_pos; [assumption|]. apply Rlt_le. now apply Rinv_0_lt_compat.
  - apply (Rmult_le_reg_r (INR (length null_ratios))); [assumption|].
    unfold Rdiv. rewrite Rmult_assoc, Rinv_l by lra. lra.
  - assert (Hnone : hits = [] <-> Forall (fun n => n < OBSERVED) null_ratios).
    { unfold hits. rewrite filter_nil_iff. unfold np.Rleb.
      split; intros H; (eapply Forall_impl; [exact H|]); intros n Hn; simpl in *;
        destruct (Rle_dec OBSERVED n); try discriminate; try reflexivity; lra. }
    rewrite <- Hnone. split.
    + intros Hz. apply (Rmult_eq_compat_r (INR (length null_ratios))) in Hz.
      unfold Rdiv in Hz. rewrite Rmult_assoc, Rinv_l, Rmult_0_l, Rmult_1_r in Hz by lra.
      destruct hits; [reflexivity|]. simpl length in Hz. rewrite S_INR in Hz.
      pose proof (pos_INR (length hits)). lra.
    + intros ->. simpl. unfold Rdiv. now rewrite Rmult_0_l.
Qed.
End PValueFacts.

(** ** agg_codon_by_taxid.py: [_parse_int_with_suffix] *)

Section ParseIntFacts.
Local Open Scope Z_scope.
Import agg_codon_by_taxid.
Context (decimal_value : N -> option Z) (int_max_str_digits : nat).

Lemma digit_char_value (d : nat) :
  (d < 10)%nat -> digit_value decimal_value (48 + N.of_nat d) = Some (Z.of_nat d).
Proof.
  intros Hd. unfold digit_value.
  destruct (N.ltb_spec (48 + N.of_nat d) 128) as [_|H]; [|lia].
  destruct (N.leb_spec 48 (48 + N.of_nat d)) as [_|H]; [|lia].
  destruct (N.leb_spec (48 + N.of_nat d) 57) as [_|H]; [|lia].
  cbn [andb]. f_equal. lia.
Qed.

Lemma digit_char_is_digit (d : nat) :
  (d < 10)%nat -> is_digit decimal_value (48 + N.of_nat d) = true.
Proof. intros Hd. unfold is_digit. now rewrite digit_char_value. Qed.

Lemma ascii_digit_inv (c : N) :
  (c < 128)%N -> is_digit decimal_value c = true ->
  exists d, (d < 10)%nat /\ c = (48 + N.of_nat d)%N.
Proof.
  intros Hc. unfold is_digit, digit_value.
  destruct (N.ltb_spec c 128) as [_|H]; [|lia].
  destruct (N.leb_spec 48 c) as [H1|_]; [|discriminate].
  destruct (N.leb_spec c 57) as [H2|_]; [|discriminate].
  intros _. exists (N.to_nat (c - 48)). split; lia.
Qed.

Lemma span_digits_cons (c : N) (rest : list N) :
  is_digit decimal_value c = true ->
  span_digits decimal_value (c :: rest)
  = let '(num, tail) := span_digits decimal_value rest in (c :: num, tail).
Proof. intros Hc. cbn [span_digits]. now rewrite Hc. Qed.

Lemma span_digits_text (ds : list nat) (tail : list N) :
  Forall (fun d => (d < 10)%nat) ds -> no_leading_digit decimal_value tail ->
  span_digits decimal_value (digits_text ds ++ tail) = (digits_text ds, tail).
Proof.
  intros Hds Htail. induction Hds as [|d ds Hd _ IH].
  - destruct tail as [|c tail]; [reflexivity|]. simpl in *. now rewrite Htail.
  - change (digits_text (d :: ds) ++ tail)
      with ((48 + N.of_nat d)%N :: (digits_text ds ++ tail)).
    rewrite span_digits_cons by apply (digit_char_is_digit d Hd).
    now rewrite IH.
Qed.

Lemma span_digits_inv (text num tail : list N) :
  is_ascii text ->
  span_digits decimal_value text = (num, tail) ->
  text = num ++ tail
  /\ exists ds, Forall (fun d => (d < 10)%nat) ds /\ num = digits_text ds.
Proof.
  intros Hascii. revert num tail.
  induction Hascii as [|c text Hc _ IH]; intros num tail; cbn [span_digits].
  - intros [= <- <-]. split; [reflexivity|]. exists []. split; [constructor | reflexivity].
  - destruct (is_digit decimal_value c) eqn:Hd.
    + destruct (span_digits decimal_value text) as [num' tail'] eqn:E. intros [= <- <-].
      destruct (IH num' tail' eq_refl) as (-> & ds & Hds & ->).
      split; [reflexivity|].
      destruct (ascii_digit_inv c Hc Hd) as (d & Hd10 & ->).
      exists (d :: ds). split; [now constructor | reflexivity].
    + intros [= <- <-]. split; [reflexivity|].
      exists []. split; [constructor | reflexivity].
Qed.

Lemma digits_value_from (n : Z) (ds : list nat) :
  Forall (fun d => (d < 10)%nat) ds ->
  foldl (fun n c => 10 * n + default 0 (digit_value decimal_value c)) n (digits_text ds)
  = foldl (fun n d => 10 * n + Z.of_nat d) n ds.
Proof.
  intros Hds. revert n. induction Hds as [|d ds Hd _ IH]; intros n; [reflexivity|].
  change (digits_text (d :: ds)) with ((48 + N.of_nat d)%N :: digits_text ds).
  cbn [foldl]. rewrite (digit_char_value d Hd). apply IH.
Qed.

Lemma int_of_digits_text (ds : list nat) :
  Forall (fun d => (d < 10)%nat) ds ->
  (within_limit int_max_str_digits (length ds) ->
   int_of_digits decimal_value int_max_str_digits (digits_text ds) = Some (digits_number ds))
  /\ (~ within_limit int_max_str_digits (length ds) ->
      int_of_digits decimal_value int_max_str_digits (digits_text ds) = None).
Proof.
  intros Hds. unfold int_of_digits, within_limit, digits_number.
  rewrite (digits_value_from 0 ds Hds).
  unfold digits_text. rewrite length_map.
  destruct (Nat.ltb_spec 0 int_max_str_digits) as [Hpos|Hzero];
    destruct (Nat.ltb_spec int_max_str_digits (length ds)) as [Hlong|Hshort]; cbn [andb];
    split; intros H; try reflexivity; try lia; try tauto.
Qed.

Lemma digits_number_nonneg_from (n : Z) (ds : list nat) :
  0 <= n -> 0 <= foldl (fun n d => 10 * n + Z.of_nat d) n ds.
Proof.
  revert n. induction ds as [|d ds IH]; intros n Hn; [exact Hn|].
  cbn [foldl]. apply IH. lia.
Qed.

Lemma multiplier_pos (suf : list N) : 0 < multiplier suf.
Proof. unfold multiplier. repeat case_bool_decide; lia. Qed.

Lemma parse_by_multiplier (text num suf : list N) :
  fullmatch decimal_value text = Some (num, suf) ->
  _parse_int_with_suffix decimal_value int_max_str_digits text
  = (fun n => n * multiplier suf) <$> int_of_digits decimal_value int_max_str_digits num.
Proof.
  intros E. unfold _parse_int_with_suffix, multiplier. rewrite E.
  destruct (int_of_digits decimal_value int_max_str_digits num) as [n|]; [|reflexivity].
  cbn [fmap option_fmap option_map].
  repeat case_bool_decide; f_equal; lia.
Qed.

Lemma suffix_no_leading_digit (suf : list N) :
  In suf suffixes -> no_leading_digit decimal_value suf.
Proof.
  intros Hsuf. simpl in Hsuf.
  destruct Hsuf as [<-|[<-|[<-|[<-|[<-|[]]]]]]; reflexivity.
Qed.

Lemma fullmatch_text (ds : list nat) (suf : list N) :
  ds <> [] -> Forall (fun d => (d < 10)%nat) ds -> In suf suffixes ->
  fullmatch decimal_value (digits_text ds ++ suf) = Some (digits_text ds, suf).
Proof.
  intros Hne Hds Hsuf. unfold fullmatch.
  rewrite span_digits_text by (assumption || now apply suffix_no_leading_digit).
  destruct ds as [|d ds]; [congruence|].
  change (digits_text (d :: ds)) with ((48 + N.of_nat d)%N :: digits_text ds).
  simpl in Hsuf. destruct Hsuf as [<-|[<-|[<-|[<-|[<-|[]]]]]]; reflexivity.
Qed.

Lemma fullmatch_inv (text num suf : list N) :
  is_ascii text ->
  fullmatch decimal_value text = Some (num, suf) ->
  exists ds, ds <> [] /\ Forall (fun d => (d < 10)%nat) ds /\ In suf suffixes
             /\ num = digits_text ds /\ text = digits_text ds ++ suf.
Proof.
  intros Hascii Hm. unfold fullmatch in Hm.
  destruct (span_digits decimal_value text) as [num' tail] eqn:Hspan.
  destruct (span_digits_inv text num' tail Hascii Hspan) as (Htext & ds & Hds & Hnum).
  exists ds.
  assert (Hcases : num = num' /\ suf = tail /\ num' <> [] /\ In tail suffixes).
  { destruct num' as [|c0 num']; [discriminate|].
    destruct tail as [|c [|c' tail]]; try discriminate.
    - injection Hm as <- <-. repeat split; [discriminate | now left].
    - case_bool_decide as Hc; [|discriminate]. injection Hm as <- <-.
      repeat split; [discriminate|].
      apply list_elem_of_In in Hc. simpl in Hc. simpl.
      destruct Hc as [<-|[<-|[<-|[<-|[]]]]]; tauto. }
  destruct Hcases as (-> & -> & Hne & Hsuf). subst num'.
  split; [intros ->; now apply Hne|].
  split; [exact Hds|]. split; [exact Hsuf|]. split; [reflexivity | exact Htext].
Qed.

Lemma digits_text_inj (ds ds' : list nat) : digits_text ds = digits_text ds' -> ds = ds'.
Proof.
  revert ds'. induction ds as [|d ds IH]; intros [|d' ds'] E; try discriminate;
    [reflexivity|].
  injection E as Hd E. f_equal; [lia | now apply IH].
Qed.

(** On a text of ASCII characters [_parse_int_with_suffix] returns a
    number exactly when the text is one or more digits, no more of them
    than [int] takes, followed by nothing or by one of k, K, m, M; the
    number is the decimal value of the digits times 1, 1000 or 1000000,
    and is never negative.  Every other ASCII text is a [ValueError]. *)
Theorem parse_int_with_suffix_spec (text : list N) (v : Z) :
  is_ascii text ->
  _parse_int_with_suffix decimal_value int_max_str_digits text = Some v
  <-> exists ds suf,
        ds <> [] /\ Forall (fun d => (d < 10)%nat) ds
        /\ within_limit int_max_str_digits (length ds)
        /\ In suf [[]; code_points "k"; code_points "K"; code_points "m"; code_points "M"]
        /\ text = digits_text ds ++ suf
        /\ v = digits_number ds * multiplier suf
        /\ 0 <= v.
Proof.
  intros Hascii. split.
  - intros Hparse.
    destruct (fullmatch decimal_value text) as [[num suf]|] eqn:Hm.
    2:{ unfold _parse_int_with_suffix in Hparse. rewrite Hm in Hparse. discriminate. }
    rewrite (parse_by_multiplier text num suf Hm) in Hparse.
    destruct (fullmatch_inv text num suf Hascii Hm) as (ds & Hne & Hds & Hsuf & -> & ->).
    destruct (int_of_digits_text ds Hds) as [Hin Hout].
    assert (Hlim : within_limit int_max_str_digits (length ds)).
    { unfold within_limit.
      destruct (Nat.eq_dec int_max_str_digits 0%nat) as [?|Hpos]; [now left|].
      destruct (le_lt_dec (length ds) int_max_str_digits) as [?|Hlong]; [now right|].
      rewrite Hout in Hparse; [discriminate|]. unfold within_limit. lia. }
    rewrite (Hin Hlim) in Hparse. injection Hparse as <-.
    exists ds, suf. repeat (split; [assumption || reflexivity|]).
    apply Z.mul_nonneg_nonneg; [apply digits_number_nonneg_from; lia|].
    pose proof (multiplier_pos suf). lia.
  - intros (ds & suf & Hne & Hds & Hlim & Hsuf & -> & -> & _).
    rewrite (parse_by_multiplier _ _ _ (fullmatch_text ds suf Hne Hds Hsuf)).
    now rewrite (proj1 (int_of_digits_text ds Hds) Hlim).
Qed.
End ParseIntFacts.

Lemma parse_int_with_suffix_spec_witness :
  agg_codon_by_taxid._parse_int_with_suffix (fun _ => None) 4300
    (agg_codon_by_taxid.code_points "10k") = Some 10000%Z
  <-> exists ds suf,
        ds <> [] /\ Forall (fun d => (d < 10)%nat) ds
        /\ within_limit 4300 (length ds)
        /\ In suf [[]; agg_codon_by_taxid.code_points "k"; agg_codon_by_taxid.code_points "K";
                   agg_codon_by_taxid.code_points "m"; agg_codon_by_taxid.code_points "M"]
        /\ agg_codon_by_taxid.code_points "10k" = digits_text ds ++ suf
        /\ 10000%Z = (digits_number ds * multiplier suf)%Z
        /\ (0 <= 10000)%Z.
Proof.
  apply (parse_int_with_suffix_spec (fun _ => None) 4300
           (agg_codon_by_taxid.code_points "10k") 10000).
  repeat constructor.
Defined.

(** The sample calls of the docstring and some texts that are refused;
    a digit outside ASCII is taken with the value that Python's tables
    give it. *)
Example parse_int_with_suffix_samples :
  map (fun text => agg_codon_by_taxid._parse_int_with_suffix (fun _ => None) 4300
                     (agg_codon_by_taxid.code_points text))
      ["500"; "10k"; "2M"; "50K"; ""; "k"; "1.5k"; "10kk"; "-5"]%string
  = [Some 500; Some 10000; Some 2000000; Some 50000; None; None; None; None; None]%Z
  /\ agg_codon_by_taxid._parse_int_with_suffix
       (fun c => if (c =? 1635)%N then Some 3%Z else None) 4300
       [1635; 107]%N = Some 3000%Z.
Proof. split; vm_compute; reflexivity. Qed.

(** ** agg_codon_by_taxid.py: column totals, keys and conservation *)

Section TaxidColumns.
Local Open Scope Z_scope.
Import agg_codon_by_taxid.

Lemma codon_columns_NoDup : List.NoDup _codon_columns.
Proof. apply NoDup_ListNoDup. apply (bool_decide_unpack _). vm_compute. exact I. Qed.

Lemma acc_get_insert (acc : gmap string Z) (c c' : string) (v : Z) :
  acc_get (<[c := v]> acc) c' = if decide (c = c') then v else acc_get acc c'.
Proof.
  unfold acc_get. destruct (decide (c = c')) as [->|Hne].
  - now rewrite lookup_insert_eq.
  - now rewrite lookup_insert_ne.
Qed.

Lemma codon_loop_get_other (row : in_row) (c : string) (cols : list string)
  (acc : gmap string Z) :
  ~ In c cols ->
  acc_get (foldl (fun a c => <[c := acc_get a c + cell row c]> a) acc cols) c
  = acc_get acc c.
Proof. intros Hc. unfold acc_get. now rewrite codon_loop_other. Qed.

(** The 64 additions of the loop body add the row's cell to every codon
    entry once. *)
Lemma codon_loop_at (row : in_row) (c : string) (cols : list string)
  (acc : gmap string Z) :
  List.NoDup cols -> In c cols ->
  acc_get (foldl (fun a c => <[c := acc_get a c + cell row c]> a) acc cols) c
  = acc_get acc c + cell row c.
Proof.
  intros Hnd. revert acc. induction Hnd as [|c0 cols Hnotin Hnd IH]; intros acc Hin;
    [destruct Hin|].
  cbn [foldl]. destruct Hin as [->|Hin].
  - rewrite codon_loop_get_other by assumption.
    rewrite acc_get_insert. now rewrite decide_True.
  - rewrite IH by assumption. rewrite acc_get_insert.
    rewrite decide_False; [reflexivity|]. intros ->. contradiction.
Qed.

Lemma update_acc_codon (row : in_row) (acc : gmap string Z) (c : string) :
  In c _codon_columns ->
  acc_get (update_acc _codon_columns row acc) c = acc_get acc c + cell row c.
Proof.
  intros Hc.
  assert (Hne : c <> "#CDS"%string).
  { intros ->. now apply CDS_not_a_codon_column. }
  unfold update_acc.
  set (acc1 := match acc !! "#CDS"%string with Some _ => acc | None => _ end).
  rewrite acc_get_insert, decide_False by congruence.
  rewrite (codon_loop_at row c _codon_columns acc1 codon_columns_NoDup Hc).
  f_equal. unfold acc1. destruct (acc !! "#CDS"%string); [reflexivity|].
  rewrite acc_get_insert. now rewrite decide_False by congruence.
Qed.

Lemma new_acc_get (cols : list string) (c : string) : acc_get (new_acc cols) c = 0.
Proof.
  unfold acc_get, new_acc.
  destruct (list_to_map (map (fun c => (c, 0)) cols) !! c) as [v|] eqn:E; [|reflexivity].
  apply elem_of_list_to_map_2, list_elem_of_In, in_map_iff in E as (c' & [= _ <-] & _).
  reflexivity.
Qed.

Lemma foldr_Zadd_app (l1 l2 : list Z) :
  foldr Z.add 0 (l1 ++ l2) = foldr Z.add 0 l1 + foldr Z.add 0 l2.
Proof. induction l1 as [|x l1 IH]; simpl; [reflexivity | rewrite IH; lia]. Qed.

Lemma column_total_snoc (k : string * string) (c : string) (seen : list in_row)
  (row : in_row) :
  column_total k c (seen ++ [row])
  = column_total k c seen + if bool_decide (key_of row = k) then cell row c else 0.
Proof.
  unfold column_total, with_key. rewrite List.filter_app, map_app, foldr_Zadd_app.
  f_equal. simpl. destruct (bool_decide (key_of row = k)); simpl; lia.
Qed.

Lemma column_total_unseen (k : string * string) (c : string) (seen : list in_row) :
  (forall r, In r seen -> key_of r <> k) -> column_total k c seen = 0.
Proof.
  intros Hk. unfold column_total, with_key.
  induction seen as [|r seen IH]; [reflexivity|].
  simpl. rewrite bool_decide_eq_false_2 by (apply Hk; now left).
  apply IH. intros r' Hr'. apply Hk. now right.
Qed.

Lemma columns_ok_step (seen : list in_row) (row : in_row)
  (counts : list ((string * string) * gmap string Z)) :
  counts_ok seen counts -> columns_ok seen counts ->
  columns_ok (seen ++ [row]) (counts_step _codon_columns row counts).
Proof.
  intros (Hnd & Hcover & _) Hcols k acc c Hin Hc.
  rewrite column_total_snoc.
  destruct (In_counts_step row k acc counts Hnd Hin)
    as [[Hk Hin']|[Hk [[Hn Ha]|(a0 & Hin' & Ha)]]].
  - rewrite bool_decide_eq_false_2 by congruence.
    rewrite (Hcols k acc c Hin' Hc). lia.
  - rewrite bool_decide_eq_true_2 by congruence.
    rewrite Ha, update_acc_codon, new_acc_get by assumption.
    rewrite column_total_unseen; [reflexivity|].
    intros r Hr E. apply Hn. rewrite <- E. now apply Hcover.
  - rewrite bool_decide_eq_true_2 by congruence.
    rewrite Ha, update_acc_codon, (Hcols k a0 c Hin' Hc) by assumption. reflexivity.
Qed.

Lemma columns_ok_loop (rest seen : list in_row)
  (counts : list ((string * string) * gmap string Z)) :
  counts_ok seen counts -> columns_ok seen counts ->
  columns_ok (seen ++ rest)
    (foldl (fun counts row => counts_step _codon_columns row counts) counts rest).
Proof.
  revert seen counts. induction rest as [|row rest IH]; intros seen counts Hok Hcols; simpl.
  - now rewrite app_nil_r.
  - replace (seen ++ row :: rest) with ((seen ++ [row]) ++ rest)
      by now rewrite <- app_assoc.
    apply IH; [now apply counts_ok_step | now apply columns_ok_step].
Qed.

Lemma aggregate_columns_ok (rows : list in_row) : columns_ok rows (aggregate rows).
Proof.
  apply (columns_ok_loop rows [] []).
  - split; [constructor|]. split; [intros r []|intros k acc []].
  - intros k acc c [].
Qed.

(** In every written row each codon field is the sum of that column
    over the input rows with the row's key, and [#Codons] is the sum of
    these 64 totals. *)
Theorem written_row_columns (rows : list in_row) (out : out_row) :
  In out (main rows) ->
  o_codons out
  = map (fun c => column_total (o_Taxid out, o_Organelle out) c rows) _codon_columns
  /\ o_Codons out
     = foldr Z.add 0
         (map (fun c => column_total (o_Taxid out, o_Organelle out) c rows) _codon_columns).
Proof.
  unfold main. rewrite in_map_iff. intros ([[taxid org] acc] & <- & Hin).
  assert (E : map (acc_get acc) _codon_columns
              = map (fun c => column_total (taxid, org) c rows) _codon_columns).
  { apply map_ext_in. intros c Hc. exact (aggregate_columns_ok rows (taxid, org) acc c Hin Hc). }
  cbn [write_row o_codons o_Codons o_Taxid o_Organelle fst snd].
  now rewrite E.
Qed.

Lemma written_row_columns_witness :
  let out := hd (write_row (("", "")%string, ∅)) (main sample_in_rows) in
  o_codons out
  = map (fun c => column_total (o_Taxid out, o_Organelle out) c sample_in_rows)
        _codon_columns
  /\ o_Codons out
     = foldr Z.add 0
         (map (fun c => column_total (o_Taxid out, o_Organelle out) c sample_in_rows)
              _codon_columns).
Proof.
  apply (written_row_columns sample_in_rows).
  vm_compute. left. reflexivity.
Defined.

Lemma keys_of_loop (k : string * string) (rest : list in_row)
  (counts : list ((string * string) * gmap string Z)) :
  In k (map fst (foldl (fun counts row => counts_step _codon_columns row counts)
                       counts rest))
  <-> In k (map fst counts) \/ In k (map key_of rest).
Proof.
  revert counts. induction rest as [|row rest IH]; intros counts; simpl.
  - tauto.
  - rewrite IH, In_keys_counts_step. intuition.
Qed.

Lemma sum_lengths_flat_map {X Y : Type} (f : X -> list Y) (l : list X) :
  foldr Z.add 0 (map (fun x => Z.of_nat (length (f x))) l)
  = Z.of_nat (length (flat_map f l)).
Proof.
  induction l as [|x l IH]; [reflexivity|].
  cbn [map foldr flat_map]. rewrite IH, length_app. lia.
Qed.

(** The written rows have distinct keys, which are exactly the keys of
    the input rows; their [#CDS] fields add up to the number of input
    rows, so no input row is lost or counted twice. *)
Theorem written_keys (rows : list in_row) :
  List.NoDup (map (fun out => (o_Taxid out, o_Organelle out)) (main rows))
  /\ (forall k, In k (map (fun out => (o_Taxid out, o_Organelle out)) (main rows))
                <-> In k (map key_of rows))
  /\ foldr Z.add 0 (map o_CDS (main rows)) = Z.of_nat (length rows).
Proof.
  destruct (aggregate_ok rows) as (Hnd & Hcover & Hcds).
  assert (Hkeys : map (fun out => (o_Taxid out, o_Organelle out)) (main rows)
                  = map fst (aggregate rows)).
  { unfold main. rewrite map_map. apply map_ext. now intros [[taxid org] acc]. }
  rewrite Hkeys. split; [exact Hnd|]. split.
  - intros k. unfold aggregate. rewrite keys_of_loop. simpl. tauto.
  - unfold main. rewrite map_map.
    rewrite (map_ext_in _ (fun item => Z.of_nat (length (with_key key_of item.1 rows)))).
    + rewrite <- (map_map fst (fun k => Z.of_nat (length (with_key key_of k rows)))).
      rewrite sum_lengths_flat_map. f_equal. apply Permutation_length.
      apply with_key_partition; [exact Hnd|]. intros r Hr. now apply Hcover.
    + intros [k acc] Hin. cbn [write_row o_CDS fst snd]. exact (Hcds k acc Hin).
Qed.
End TaxidColumns.

(** ** paired_fc_analysis.py: [convert_dna_to_rna] *)

Section ConvertFacts.
Import paired_fc_analysis.

(** Converting twice is converting once; the length is kept; the result
    holds no T; a text without T is left as it is. *)
Theorem convert_dna_to_rna_idempotent (codon : string) :
  convert_dna_to_rna (convert_dna_to_rna codon) = convert_dna_to_rna codon
  /\ String.length (convert_dna_to_rna codon) = String.length codon
  /\ ~ In "T"%char (String.list_ascii_of_string (convert_dna_to_rna codon))
  /\ (~ In "T"%char (String.list_ascii_of_string codon) ->
      convert_dna_to_rna codon = codon).
Proof.
  induction codon as [|c codon (IH1 & IH2 & IH3 & IH4)]; [simpl; tauto|].
  cbn [convert_dna_to_rna String.length String.list_ascii_of_string].
  destruct (decide (c = "T"%char)) as [->|Hc].
  - rewrite decide_False by discriminate. rewrite IH1, IH2.
    repeat split; try reflexivity.
    + intros [E|Hin]; [discriminate | contradiction].
    + intros Hin. exfalso. apply Hin. now left.
  - rewrite decide_False by assumption. rewrite IH1, IH2.
    repeat split; try reflexivity.
    + intros [E|Hin]; [congruence | contradiction].
    + intros Hin. f_equal. apply IH4. intros H. apply Hin. now right.
Qed.

(** Two different texts without U stay different after the conversion:
    renaming DNA columns to RNA never makes two columns collide. *)
Theorem convert_dna_to_rna_injective (codon codon' : string) :
  ~ In "U"%char (String.list_ascii_of_string codon) ->
  ~ In "U"%char (String.list_ascii_of_string codon') ->
  codon <> codon' ->
  convert_dna_to_rna codon <> convert_dna_to_rna codon'.
Proof.
  revert codon'. induction codon as [|c codon IH]; intros [|c' codon'] Hu Hu' Hne;
    cbn [convert_dna_to_rna]; try discriminate; [congruence|].
  cbn [String.list_ascii_of_string] in Hu, Hu'.
  intros [= Hc Hrest].
  assert (Hcc : c = c').
  { destruct (decide (c = "T"%char)) as [->|H1], (decide (c' = "T"%char)) as [->|H2];
      try reflexivity; try assumption.
    - exfalso. apply Hu'. left. now symmetry.
    - exfalso. apply Hu. left. exact Hc. }
  subst c'. apply (IH codon').
  - intros H. apply Hu. now right.
  - intros H. apply Hu'. now right.
  - congruence.
  - exact Hrest.
Qed.

Lemma convert_dna_to_rna_injective_witness :
  convert_dna_to_rna "TTA" <> convert_dna_to_rna "TTG".
Proof.
  apply (convert_dna_to_rna_injective "TTA" "TTG").
  - simpl. intros [H|[H|[H|[]]]]; discriminate.
  - simpl. intros [H|[H|[H|[]]]]; discriminate.
  - discriminate.
Defined.
End ConvertFacts.

(** ** fix_hive_header.py: which frames are accepted and what is written *)

Section FixHeaderFacts.
Import fix_hive_header.
Context {cell : Type}.

Lemma FIXED_HEADER_length : length FIXED_HEADER = 76%nat.
Proof. reflexivity. Qed.

Lemma take_all (n : nat) (row : list cell) : length row = n -> take n row = row.
Proof. intros <-. apply firstn_all. Qed.

(** A frame with at least one row is accepted exactly when it has 76 or
    77 columns; the written header is [FIXED_HEADER], every written row
    consists of the first 76 cells of its input row and is as long as
    the header; a frame that was written is accepted again and written
    unchanged. *)
Theorem main_fixes_header (body : list (list cell)) (ncols : nat) :
  body <> [] ->
  Forall (fun row => length row = ncols) body ->
  (main body = None <-> ncols <> 76%nat /\ ncols <> 77%nat)
  /\ forall header rows,
       main body = Some (header, rows) ->
       header = FIXED_HEADER
       /\ rows = map (take 76) body
       /\ Forall (fun row => length row = length header) rows
       /\ main rows = Some (header, rows).
Proof.
  intros Hne Hrect. destruct body as [|first rest]; [congruence|].
  assert (Hfirst : length first = ncols) by now inversion Hrect.
  unfold main at 1 2. rewrite Hfirst, FIXED_HEADER_length.
  change (76 + 1)%nat with 77%nat.
  destruct (Nat.eqb_spec ncols 77) as [->|H77].
  - cbn [Nat.sub Nat.eqb]. split; [split; [discriminate | intros [_ H]; congruence]|].
    intros header rows [= <- <-].
    assert (Hrows : map (fun row : list cell => take 76 row ++ drop 77 row) (first :: rest)
                    = map (take 76) (first :: rest)).
    { apply map_ext_in. intros row Hrow.
      rewrite List.Forall_forall in Hrect. specialize (Hrect row Hrow).
      rewrite (skipn_all2 row) by lia. apply app_nil_r. }
    change ((take 76 first ++ drop 77 first)
              :: map (fun row : list cell => take 76 row ++ drop 77 row) rest)
      with (map (fun row : list cell => take 76 row ++ drop 77 row) (first :: rest)).
    rewrite Hrows. split; [reflexivity|]. split; [reflexivity|].
    assert (Hlen : Forall (fun row : list cell => length row = 76%nat)
                     (map (take 76) (first :: rest))).
    { apply List.Forall_map. eapply Forall_impl; [exact Hrect|].
      intros row Hrow. cbv beta in *. rewrite length_take, Hrow. reflexivity. }
    split; [exact Hlen|].
    cbn [map]. unfold main. rewrite length_take, Hfirst, FIXED_HEADER_length. reflexivity.
  - destruct (Nat.eqb_spec ncols 76) as [->|H76].
    + split; [split; [discriminate | intros [H _]; congruence]|].
      intros header rows [= <- <-].
      assert (Hrows : map (take 76) (first :: rest) = first :: rest).
      { rewrite <- (map_id (first :: rest)) at 2. apply map_ext_in. intros row Hrow.
        rewrite List.Forall_forall in Hrect. apply take_all. now apply Hrect. }
      rewrite Hrows. split; [reflexivity|]. split; [reflexivity|].
      split; [exact Hrect|].
      unfold main. rewrite Hfirst, FIXED_HEADER_length. reflexivity.
    + split; [split; [tauto | reflexivity]|]. intros header rows [=].
Qed.

End FixHeaderFacts.

Lemma main_fixes_header_witness :
  (fix_hive_header.main [repeat 7%nat 77; repeat 8%nat 77] = None
   <-> 77%nat <> 76%nat /\ 77%nat <> 77%nat)
  /\ forall header rows,
       fix_hive_header.main [repeat 7%nat 77; repeat 8%nat 77] = Some (header, rows) ->
       header = fix_hive_header.FIXED_HEADER
       /\ rows = map (take 76) [repeat 7%nat 77; repeat 8%nat 77]
       /\ Forall (fun row => length row = length header) rows
       /\ fix_hive_header.main rows = Some (header, rows).
Proof.
  apply (main_fixes_header [repeat 7%nat 77; repeat 8%nat 77] 77).
  - discriminate.
  - repeat constructor.
Defined.


(** ** fc_checker.py: [read_cutg] names the columns by position *)

Section ReadCutgFacts.
Import fc_checker fix_hive_header.

Lemma nth_map_default {X Y : Type} (f : X -> Y) (l : list X) (dx : X) (dy : Y) (j : nat) :
  (j < length l)%nat -> nth j (map f l) dy = f (nth j l dx).
Proof.
  intros Hj. rewrite (nth_indep _ dy (f dx)) by now rewrite length_map.
  apply map_nth.
Qed.

Lemma FIXED_CODONS_order (j : nat) :
  (j < 64)%nat ->
  nth j FIXED_CODONS EmptyString = dna_name (header_codon (nth j CODON_ORDER UUU)).
Proof.
  intros Hj.
  assert (Hall : forallb (fun j => bool_decide (nth j FIXED_CODONS EmptyString
                   = dna_name (header_codon (nth j CODON_ORDER UUU)))) (seq 0 64) = true)
    by (vm_compute; reflexivity).
  rewrite forallb_forall in Hall.
  apply (bool_decide_eq_true_1 _), Hall, in_seq. lia.
Qed.

(** For a table whose last 64 columns are the codon columns in the order
    of [FIXED_HEADER], the count that [read_cutg] files under the j-th
    codon of [CODON_ORDER] is the cell of the column that stands at
    that place in the header, the one of [header_codon]: the value read
    as UCU is the count of CTT.  Only 8 codons, UUN and GGN, get their
    own column. *)
Theorem read_cutg_by_position (other_columns : list string)
  (value : string -> option Z) (j : nat) :
  (j < 64)%nat ->
  length (read_cutg_row (map value (other_columns ++ FIXED_CODONS))) = 64%nat
  /\ nth j (read_cutg_row (map value (other_columns ++ FIXED_CODONS))) 0%Z
     = default 0%Z (value (dna_name (header_codon (nth j CODON_ORDER UUU))))
  /\ length (List.filter (fun c => bool_decide (header_codon c = c)) CODON_ORDER) = 8%nat.
Proof.
  intros Hj.
  assert (E : read_cutg_row (map value (other_columns ++ FIXED_CODONS))
              = map (default 0%Z) (map value FIXED_CODONS)).
  { unfold read_cutg_row. rewrite length_map, length_app.
    change (length FIXED_CODONS) with 64%nat.
    replace (length other_columns + 64 - 64)%nat with (length other_columns) by lia.
    rewrite map_app, <- (length_map value other_columns).
    now rewrite drop_app_length. }
  rewrite E. split; [now rewrite !length_map|]. split; [|reflexivity].
  rewrite map_map.
  rewrite (nth_map_default _ FIXED_CODONS EmptyString) by (change (length FIXED_CODONS) with 64%nat; lia).
  now rewrite FIXED_CODONS_order.
Qed.

Lemma read_cutg_by_position_witness :
  length (read_cutg_row (map (fun name => if bool_decide (name = "CTT"%string)
                                          then Some 9%Z else None)
                             (["Species"]%string ++ FIXED_CODONS))) = 64%nat
  /\ nth 4 (read_cutg_row (map (fun name => if bool_decide (name = "CTT"%string)
                                            then Some 9%Z else None)
                               (["Species"]%string ++ FIXED_CODONS))) 0%Z
     = default 0%Z ((fun name => if bool_decide (name = "CTT"%string)
                                 then Some 9%Z else None)
                      (dna_name (header_codon (nth 4 CODON_ORDER UUU))))
  /\ length (List.filter (fun c => bool_decide (header_codon c = c)) CODON_ORDER) = 8%nat.
Proof.
  apply (read_cutg_by_position ["Species"]%string
           (fun name => if bool_decide (name = "CTT"%string) then Some 9%Z else None) 4).
  lia.
Defined.

Lemma read_cutg_row_named (columns : list string) (value : string -> option Z) (j : nat) :
  (j < length (drop (length columns - 64) columns))%nat ->
  nth j (read_cutg_row (map value columns)) 0%Z
  = default 0%Z (value (nth j (drop (length columns - 64) columns) EmptyString)).
Proof.
  intros Hj. unfold read_cutg_row.
  rewrite length_map, skipn_map, map_map.
  exact (nth_map_default (fun name => default 0%Z (value name)) _ EmptyString 0%Z j Hj).
Qed.

Lemma fieldnames_order (j : nat) :
  (j < 62)%nat ->
  nth j (drop (length agg_codon_by_taxid.fieldnames - 64) agg_codon_by_taxid.fieldnames)
      EmptyString
  = dna_name (nth (j + 2) CODON_ORDER UUU).
Proof.
  intros Hj.
  assert (Hall : forallb (fun j => bool_decide
                   (nth j (drop (length agg_codon_by_taxid.fieldnames - 64)
                                agg_codon_by_taxid.fieldnames) EmptyString
                    = dna_name (nth (j + 2) CODON_ORDER UUU))) (seq 0 62) = true)
    by (vm_compute; reflexivity).
  rewrite forallb_forall in Hall.
  apply (bool_decide_eq_true_1 _), Hall, in_seq. lia.
Qed.

(** A table written by agg_codon_by_taxid.py has 68 columns, the codon
    columns standing before [#CDS] and [#Codons].  [read_cutg] takes its
    last 64 columns: the count it files under the j-th codon of
    [CODON_ORDER] is the cell of the codon two places further on, and
    the counts it files under GGA and GGG are the cells [#CDS] and
    [#Codons]. *)
Theorem read_cutg_after_aggregation (value : string -> option Z) (j : nat) :
  (j < 62)%nat ->
  nth j (read_cutg_row (map value agg_codon_by_taxid.fieldnames)) 0%Z
  = default 0%Z (value (dna_name (nth (j + 2) CODON_ORDER UUU)))
  /\ nth 62 (read_cutg_row (map value agg_codon_by_taxid.fieldnames)) 0%Z
     = default 0%Z (value "#CDS"%string)
  /\ nth 63 (read_cutg_row (map value agg_codon_by_taxid.fieldnames)) 0%Z
     = default 0%Z (value "#Codons"%string)
  /\ nth 62 CODON_ORDER UUU = (ntG, ntG, ntA)
  /\ nth 63 CODON_ORDER UUU = (ntG, ntG, ntG).
Proof.
  intros Hj.
  assert (Hlen : length (drop (length agg_codon_by_taxid.fieldnames - 64)
                           agg_codon_by_taxid.fieldnames) = 64%nat) by reflexivity.
  split; [|split; [|split; [|split; reflexivity]]].
  - rewrite read_cutg_row_named by (rewrite Hlen; lia).
    now rewrite fieldnames_order.
  - rewrite read_cutg_row_named by (rewrite Hlen; lia). reflexivity.
  - rewrite read_cutg_row_named by (rewrite Hlen; lia). reflexivity.
Qed.

Lemma read_cutg_after_aggregation_witness :
  nth 0 (read_cutg_row (map (fun name => if bool_decide (name = "TTA"%string)
                                          then Some 9%Z else None)
                            agg_codon_by_taxid.fieldnames)) 0%Z
  = default 0%Z ((fun name => if bool_decide (name = "TTA"%string)
                              then Some 9%Z else None)
                   (dna_name (nth (0 + 2) CODON_ORDER UUU)))
  /\ nth 62 (read_cutg_row (map (fun name => if bool_decide (name = "TTA"%string)
                                              then Some 9%Z else None)
                                agg_codon_by_taxid.fieldnames)) 0%Z
     = default 0%Z ((fun name => if bool_decide (name = "TTA"%string)
                                 then Some 9%Z else None) "#CDS"%string)
  /\ nth 63 (read_cutg_row (map (fun name => if bool_decide (name = "TTA"%string)
                                              then Some 9%Z else None)
                                agg_codon_by_taxid.fieldnames)) 0%Z
     = default 0%Z ((fun name => if bool_decide (name = "TTA"%string)
                                 then Some 9%Z else None) "#Codons"%string)
  /\ nth 62 CODON_ORDER UUU = (ntG, ntG, ntA)
  /\ nth 63 CODON_ORDER UUU = (ntG, ntG, ntG).
Proof.
  apply (read_cutg_after_aggregation
           (fun name => if bool_decide (name = "TTA"%string) then Some 9%Z else None) 0).
  lia.
Defined.
End ReadCutgFacts.

(** ** simple_null_test.py and fc_checker.py compute the same ratio *)

Section NullTestAgreement.
Local Open Scope R_scope.
Import fc_checker simple_null_test.

Lemma grouped_pairs {K T V : Type} `{EqDecision K} (key : T -> K) (val : T -> V)
  (groups : list (K * list V)) (items : list T) :
  grouped key val groups items
  = grouped fst snd groups (map (fun t => (key t, val t)) items).
Proof.
  revert groups. induction items as [|t items IH]; intros groups; [reflexivity|].
  unfold grouped in *. cbn [map foldl]. apply IH.
Qed.

Lemma map_fst_combine_eq {X Y : Type} (l1 : list X) (l2 : list Y) :
  length l1 = length l2 -> map fst (combine l1 l2) = l1.
Proof.
  revert l2. induction l1 as [|x l1 IH]; intros [|y l2] Hlen;
    simpl in *; try discriminate; [reflexivity|].
  f_equal. apply IH. lia.
Qed.

Lemma map_snd_combine_eq {X Y : Type} (l1 : list X) (l2 : list Y) :
  length l1 = length l2 -> map snd (combine l1 l2) = l2.
Proof.
  revert l2. induction l1 as [|x l1 IH]; intros [|y l2] Hlen;
    simpl in *; try discriminate; [reflexivity|].
  f_equal. apply IH. lia.
Qed.

(** The dictionary [dict(zip(CODON_ORDER, fake))] gives the codons, in
    codon order, the labels [fake]. *)
Lemma labels_in_codon_order (fake : list Z) :
  length fake = 64%nat ->
  map (dict_get 0%Z (combine CODON_ORDER fake)) CODON_ORDER = fake.
Proof.
  intros Hlen.
  assert (Hfst : map fst (combine CODON_ORDER fake) = CODON_ORDER)
    by (apply map_fst_combine_eq; now rewrite Hlen).
  pose proof (dict_get_keys 0%Z (combine CODON_ORDER fake)) as Hkeys.
  rewrite Hfst, map_snd_combine_eq in Hkeys by now rewrite Hlen.
  apply Hkeys, CODON_ORDER_NoDup.
Qed.

Lemma nth_zip_with {X Y W : Type} (f : X -> Y -> W) (l : list X) (k : list Y)
  (dx : X) (dy : Y) (d : W) (i : nat) :
  (i < length l)%nat -> (i < length k)%nat ->
  nth i (zip_with f l k) d = f (nth i l dx) (nth i k dy).
Proof.
  revert k i. induction l as [|x l IH]; intros [|y k] [|i] Hl Hk;
    simpl in *; try lia; [reflexivity|].
  apply IH; lia.
Qed.

Lemma enumerate_from {X Y : Type} (d : Y) (xs : list X) (pre ys : list Y) :
  length ys = length xs ->
  map (fun io : nat * X => (io.2, nth io.1 (pre ++ ys) d))
      (combine (seq (length pre) (length xs)) xs)
  = combine xs ys.
Proof.
  revert pre ys. induction xs as [|x xs IH]; intros pre [|y ys] Hlen;
    simpl in *; try discriminate; [reflexivity|].
  f_equal.
  - rewrite app_nth2 by lia. now rewrite Nat.sub_diag.
  - specialize (IH (pre ++ [y]) ys). rewrite length_app, Nat.add_1_r in IH.
    rewrite <- app_assoc in IH. apply IH. lia.
Qed.

Lemma enumerate_pairs {X Y : Type} (d : Y) (xs : list X) (ys : list Y) :
  length ys = length xs ->
  map (fun io : nat * X => (io.2, nth io.1 ys d)) (enumerate xs) = combine xs ys.
Proof. intros Hlen. exact (enumerate_from d xs [] ys Hlen). Qed.

Lemma combine_swap_map {X Y W : Type} (f : Y -> W) (xs : list X) (ys : list Y) :
  map (fun vc : X * Y => (f vc.2, vc.1)) (combine xs ys) = combine (map f ys) xs.
Proof.
  revert ys. induction xs as [|x xs IH]; intros [|y ys]; simpl; try reflexivity.
  now rewrite IH.
Qed.

Lemma with_key_fst_combine {X Y : Type} `{EqDecision X} (k : X)
  (xs : list X) (ys : list Y) :
  length xs = length ys ->
  map fst (with_key fst k (combine xs ys))
  = List.filter (fun x => bool_decide (x = k)) xs.
Proof.
  revert ys. induction xs as [|x xs IH]; intros [|y ys] Hlen;
    simpl in *; try reflexivity; try discriminate.
  unfold with_key in *. simpl.
  destruct (bool_decide (x = k)); simpl; rewrite IH by lia; reflexivity.
Qed.

(** Every label of a rearrangement of [real_orbits] has at least two
    codons, so that the test [len(values) > 1] of the script drops no
    group. *)
Lemma shuffled_groups_all_multi (fake : list Z) (rscu : list R) :
  fake ≡ₚ real_orbits -> length rscu = 64%nat ->
  List.filter (fun vs : list R => (1 <? length vs)%nat)
              (values (grouped fst snd [] (combine fake rscu)))
  = values (grouped fst snd [] (combine fake rscu)).
Proof.
  intros Hperm Hrscu.
  assert (Hlen : length fake = 64%nat) by now rewrite (Permutation_length Hperm).
  apply forallb_filter_id. rewrite values_grouped.
  apply forallb_forall. intros vs Hvs.
  apply in_map_iff in Hvs as (k & <- & Hk).
  apply In_keys_grouped in Hk as [[]|Hk].
  rewrite map_fst_combine_eq in Hk by congruence.
  apply Nat.ltb_lt. rewrite length_map, <- (length_map fst).
  rewrite with_key_fst_combine by congruence.
  rewrite (length_filter_Permutation _ _ _ Hperm).
  destruct real_orbits_facts as (_ & _ & _ & Hall).
  rewrite forallb_forall in Hall.
  assert (Hin : In k real_orbits) by (eapply Permutation_in; eassumption).
  specialize (Hall k Hin). apply andb_prop in Hall as [Hall _].
  apply Nat.leb_le in Hall. lia.
Qed.

Lemma length_intra {K : Type} `{EqDecision K} (items : list (K * R)) :
  length (intra (grouped fst snd [] items)) = length items.
Proof.
  unfold intra.
  rewrite (Permutation_length
             (grouped_traversal fst snd (fun vs x => x - np.mean vs) items)).
  apply length_map.
Qed.

Lemma length_inter {K : Type} `{EqDecision K} (items : list (K * R)) :
  length (inter (grouped fst snd [] items)) = length items.
Proof.
  unfold inter.
  rewrite (Permutation_length
             (grouped_traversal fst snd (fun vs _ => np.mean vs) items)).
  apply length_map.
Qed.

(** For a row of 64 counts and shuffled labels [fake], the body of the
    row loop of simple_null_test.py appends exactly the ratio that the
    row loop of [fc_checker.main] appends under the orbit map that
    gives the i-th codon of [CODON_ORDER] the i-th label, and skips the
    row exactly when that loop does. *)
Theorem row_ratio_agrees_with_fc_checker (fake row : list Z) :
  fake ≡ₚ real_orbits ->
  length row = 64%nat ->
  row_ratio fake row = appended_ratio (dict_get 0%Z (combine CODON_ORDER fake)) row.
Proof.
  intros Hperm Hrow.
  assert (Hlen : length fake = 64%nat) by now rewrite (Permutation_length Hperm).
  set (orbit := dict_get 0%Z (combine CODON_ORDER fake)).
  unfold row_ratio, appended_ratio, to_rscu.
  destruct (foldr Z.add 0%Z row =? 0)%Z; [reflexivity|].
  set (freq := map (fun c => IZR c / IZR (foldr Z.add 0%Z row)) row).
  assert (Hfreq : length freq = 64%nat) by (unfold freq; now rewrite length_map).
  set (rscu := zip_with (fun f o => f * IZR o) freq fake).
  assert (Hlrscu : length rscu = 64%nat).
  { unfold rscu. rewrite length_zip_with, Hfreq, Hlen. reflexivity. }
  assert (Hrscu : map (fun i => nth i freq 0 * IZR (orbit (nth i CODON_ORDER UUU))) (seq 0 64)
                  = rscu).
  { apply (nth_ext _ _ 0 0).
    - now rewrite length_map, length_seq, Hlrscu.
    - intros i Hi. rewrite length_map, length_seq in Hi.
      rewrite nth_map_seq by assumption.
      unfold rscu. rewrite (nth_zip_with _ freq fake 0 0%Z) by lia.
      assert (Hlabel : orbit (nth i CODON_ORDER UUU) = nth i fake 0%Z).
      { rewrite <- (nth_map_default orbit CODON_ORDER UUU 0%Z i Hi).
        unfold orbit. now rewrite (labels_in_codon_order fake Hlen). }
      now rewrite Hlabel. }
  rewrite Hrscu. unfold sigma_ratio, build_groups.
  change (foldl _ [] (enumerate fake))
    with (grouped snd (fun io : nat * Z => nth io.1 rscu 0) [] (enumerate fake)).
  change (foldl _ [] (combine rscu CODON_ORDER))
    with (grouped (fun vc : R * codon => orbit vc.2) fst [] (combine rscu CODON_ORDER)).
  rewrite (grouped_pairs snd), (grouped_pairs (fun vc : R * codon => orbit vc.2)).
  rewrite (enumerate_pairs 0 fake rscu) by congruence.
  rewrite (combine_swap_map orbit rscu CODON_ORDER).
  unfold orbit. rewrite (labels_in_codon_order fake Hlen).
  rewrite (shuffled_groups_all_multi fake rscu Hperm Hlrscu).
  set (groups := grouped fst snd [] (combine fake rscu)).
  change (flat_map (fun vs => map (fun v => v - np.mean vs) vs) (values groups))
    with (intra groups).
  rewrite (flat_map_ext _ (fun vs : list R => map (fun _ => np.mean vs) vs))
    by (intros vs; apply repeat_as_map).
  change (flat_map (fun vs : list R => map (fun _ => np.mean vs) vs) (values groups))
    with (inter groups).
  unfold groups. rewrite length_intra, length_inter, length_combine, Hlen, Hlrscu.
  reflexivity.
Qed.

Lemma row_ratio_agrees_with_fc_checker_witness :
  row_ratio real_orbits one_hot
  = appended_ratio (dict_get 0%Z (combine CODON_ORDER real_orbits)) one_hot.
Proof.
  apply (row_ratio_agrees_with_fc_checker real_orbits one_hot); reflexivity.
Defined.
End NullTestAgreement.

(** ** orbit_by_orbit_analysis.py: the coefficient of variation of a family *)

Section WithinOrbitFacts.
Local Open Scope R_scope.
Import orbit_by_orbit_analysis.

Lemma mean_freqs (row : data_row) (family_codons : list string) :
  foldr Z.add 0%Z (counts row family_codons) <> 0%Z ->
  counts row family_codons <> [] ->
  np.mean (freqs row family_codons) = 1 / INR (length (counts row family_codons)).
Proof.
  intros Htot Hne. unfold np.mean, freqs. rewrite sum_freq, length_map.
  assert (Hn : INR (length (counts row family_codons)) <> 0).
  { apply not_0_INR. destruct (counts row family_codons); [congruence | discriminate]. }
  field. split; [exact Hn | now apply not_0_IZR].
Qed.

Lemma std_nonneg (ddof : nat) (l : list R) : 0 <= np.std ddof l.
Proof. unfold np.std. apply sqrt_pos. Qed.

Lemma variance_cases (row : data_row) (family_codons : list string) :
  match calculate_within_orbit_variance row family_codons with
  | None =>
      (length (counts row family_codons) <= 1)%nat
      \/ foldr Z.add 0%Z (counts row family_codons) = 0%Z
  | Some cv =>
      (2 <= length (counts row family_codons))%nat
      /\ foldr Z.add 0%Z (counts row family_codons) <> 0%Z
      /\ np.mean (freqs row family_codons) = 1 / INR (length (counts row family_codons))
      /\ cv = INR (length (counts row family_codons)) * np.std 1 (freqs row family_codons)
      /\ 0 <= cv
  end.
Proof.
  unfold calculate_within_orbit_variance.
  destruct (Nat.leb_spec (length family_codons) 1) as [Hfam|Hfam].
  { left. pose proof (length_omap_le (fun codon => row !! codon) family_codons).
    unfold counts. lia. }
  destruct (Nat.leb_spec (length (counts row family_codons)) 1) as [Hlen|Hlen];
    [left; exact Hlen|].
  destruct (Z.eqb_spec (foldr Z.add 0%Z (counts row family_codons)) 0) as [Htot|Htot];
    [right; exact Htot|].
  cbn [orb].
  assert (Hne : counts row family_codons <> []).
  { intros E. rewrite E in Hlen. simpl in Hlen. lia. }
  pose proof (mean_freqs row family_codons Htot Hne) as Hmean.
  assert (Hn : 0 < INR (length (counts row family_codons))) by (apply lt_0_INR; lia).
  rewrite Hmean.
  destruct (Req_dec_T (1 / INR (length (counts row family_codons))) 0) as [E|_].
  { exfalso. pose proof (Rdiv_lt_0_compat 1 _ Rlt_0_1 Hn). lra. }
  split; [lia|]. split; [exact Htot|]. split; [reflexivity|].
  pose proof (std_nonneg 1 (freqs row family_codons)) as Hstd.
  split.
  - field. lra.
  - unfold Rdiv. rewrite Rmult_1_l, Rinv_inv.
    apply Rmult_le_pos; lra.
Qed.

(** The function returns NaN exactly when fewer than two of the family's
    codons are columns of the row or their counts add up to zero: the
    tests on [len(family_codons)] and on [mean_freq == 0] never decide.
    Otherwise the frequencies average to 1/n and the value returned is
    n times their standard deviation, which is not negative. *)
Theorem within_orbit_variance_cases (row : data_row) (family_codons : list string) :
  (calculate_within_orbit_variance row family_codons = None
   <-> (length (counts row family_codons) <= 1)%nat
       \/ foldr Z.add 0%Z (counts row family_codons) = 0%Z)
  /\ (calculate_within_orbit_variance row family_codons
      = Some (INR (length (counts row family_codons))
              * np.std 1 (freqs row family_codons))
      \/ calculate_within_orbit_variance row family_codons = None)
  /\ match calculate_within_orbit_variance row family_codons with
     | Some cv =>
         np.mean (freqs row family_codons) = 1 / INR (length (counts row family_codons))
         /\ 0 <= cv
     | None => True
     end.
Proof.
  pose proof (variance_cases row family_codons) as Hcases.
  destruct (calculate_within_orbit_variance row family_codons) as [cv|].
  - destruct Hcases as (Hlen & Htot & Hmean & Hcv & Hpos).
    split; [split; [discriminate | intros [H|H]; [lia | contradiction]]|].
    split; [left; now rewrite Hcv | split; assumption].
  - split; [split; [intros _; exact Hcases | reflexivity]|].
    split; [now right | exact I].
Qed.

Lemma Forall_all_equal {X : Type} (l : list X) (c : X) :
  In c l -> (forall a b, In a l -> In b l -> a = b) -> Forall (fun x => x = c) l.
Proof.
  intros Hc Hall. apply List.Forall_forall. intros x Hx. now apply Hall.
Qed.

(** The coefficient of variation is 0 exactly when it is defined and
    all the counts of the family's codons in the row are equal. *)
Theorem within_orbit_variance_zero_iff (row : data_row) (family_codons : list string) :
  calculate_within_orbit_variance row family_codons = Some 0
  <-> calculate_within_orbit_variance row family_codons <> None
      /\ forall c c', In c (counts row family_codons) ->
                      In c' (counts row family_codons) -> c = c'.
Proof.
  pose proof (variance_cases row family_codons) as Hcases.
  destruct (calculate_within_orbit_variance row family_codons) as [cv|];
    [|split; [discriminate | intros [H _]; congruence]].
  destruct Hcases as (Hlen & Htot & _ & Hcv & _).
  assert (Hn : 0 < INR (length (counts row family_codons))) by (apply lt_0_INR; lia).
  assert (HT : IZR (foldr Z.add 0%Z (counts row family_codons)) <> 0)
    by now apply not_0_IZR.
  split.
  - intros [= ->]. split; [discriminate|]. intros c c' Hc Hc'.
    assert (Hstd : np.std 1 (freqs row family_codons) = 0) by nra.
    destruct (Z.eq_dec c c') as [E|Hne]; [exact E|]. exfalso.
    revert Hstd.
    apply (std_nonzero 1
             (IZR c / IZR (foldr Z.add 0%Z (counts row family_codons)))
             (IZR c' / IZR (foldr Z.add 0%Z (counts row family_codons)))).
    + unfold freqs. apply in_map_iff. now exists c.
    + unfold freqs. apply in_map_iff. now exists c'.
    + intros E. apply Hne, eq_IZR.
      apply (Rmult_eq_reg_r (/ IZR (foldr Z.add 0%Z (counts row family_codons))));
        [exact E | now apply Rinv_neq_0_compat].
    + unfold freqs. rewrite length_map. lia.
  - intros [_ Hall]. f_equal. rewrite Hcv.
    destruct (counts row family_codons) as [|c0 cs] eqn:E; [simpl in Hlen; lia|].
    rewrite (std_const 1 (IZR c0 / IZR (foldr Z.add 0%Z (c0 :: cs)))); [ring|].
    unfold freqs. rewrite E. apply List.Forall_map, List.Forall_forall.
    intros c Hc. f_equal. f_equal. apply Hall; [exact Hc | now left].
Qed.

Lemma counts_scaled (k : Z) (row : data_row) (family_codons : list string) :
  counts (Z.mul k <$> row) family_codons = map (Z.mul k) (counts row family_codons).
Proof.
  unfold counts, data_row in *. induction family_codons as [|c cols IH]; [reflexivity|].
  cbn [omap list_omap]. rewrite (lookup_fmap (Z.mul k) row c).
  destruct (row !! c); cbn [fmap option_fmap option_map map]; now rewrite IH.
Qed.

(** Multiplying every count of the row by the same non-zero factor does
    not change the coefficient of variation. *)
Theorem within_orbit_variance_scale (k : Z) (row : data_row)
  (family_codons : list string) :
  k <> 0%Z ->
  calculate_within_orbit_variance (Z.mul k <$> row) family_codons
  = calculate_within_orbit_variance row family_codons.
Proof.
  intros Hk. unfold calculate_within_orbit_variance.
  assert (Hfreqs : foldr Z.add 0%Z (counts row family_codons) <> 0%Z ->
                   freqs (Z.mul k <$> row) family_codons = freqs row family_codons).
  { intros Htot. unfold freqs. rewrite counts_scaled, foldr_Zadd_scale, map_map.
    apply map_ext. intros c. rewrite !mult_IZR. field.
    split; apply not_0_IZR; assumption. }
  rewrite counts_scaled, length_map, foldr_Zadd_scale.
  destruct (length family_codons <=? 1)%nat; [reflexivity|].
  destruct (length (counts row family_codons) <=? 1)%nat; [reflexivity|].
  destruct (Z.eqb_spec (foldr Z.add 0%Z (counts row family_codons)) 0) as [Hz|Hnz].
  - rewrite Hz, Z.mul_0_r. reflexivity.
  - destruct (Z.eqb_spec (k * foldr Z.add 0%Z (counts row family_codons)) 0) as [Hz'|_];
      [lia|].
    cbn [orb]. now rewrite Hfreqs.
Qed.

Lemma within_orbit_variance_scale_witness :
  calculate_within_orbit_variance
    (Z.mul 3 <$> ({["AAA"%string := 5%Z]} ∪ {["AAG"%string := 7%Z]})) ["AAA"; "AAG"]%string
  = calculate_within_orbit_variance
      ({["AAA"%string := 5%Z]} ∪ {["AAG"%string := 7%Z]}) ["AAA"; "AAG"]%string.
Proof.
  apply (within_orbit_variance_scale 3). lia.
Defined.
End WithinOrbitFacts.

(** ** The zero test on the rounded divisor *)

Section RoundedDivisor.
Import fc_checker.
#[local] Set Warnings "-inexact-float".

(** C8: the test [den == 0] of [sigma_ratio] is made on a rounded
    double and misses an inter set without spread.  The organism
    [flat_counts] has, under the standard map, the RSCU value 12/252 for
    every codon; also in the program its RSCU vector is 64 times the
    same double.  The inter set of a constant vector has the sample
    standard deviation 0.  The program finds the means of the five
    groups by pairwise sums of 2, 6, 18 and 20 equal doubles, which
    round differently: [den] is 9.4e-18, the ratio 0.4711504628255072
    is finite and is appended to the ratios of the cohort.  In
    paired_fc_analysis.py every orbit mean is exactly 1 in exact
    arithmetic, so that sigma_inter is 0 for every row; for the organism
    with the counts 1, ..., 64 the program finds orbit means that differ
    in the last bits and returns the ratio 3.5e15. *)
Theorem zero_sigma_inter_not_excluded :
  (forall x : R, np.std 1 (inter (build_groups (repeat x 64) standard_orbit)) = 0%R)
  /\ to_rscu flat_counts standard_orbit = Some (repeat (12 / 252)%R 64)
  /\ fc_checker64.to_rscu flat_counts standard_orbit = Some (repeat (12 / 252)%float 64)
  /\ fc_checker64.den (repeat (12 / 252)%float 64) standard_orbit
     = 9.4156209606678621e-18%float
  /\ fc_checker64.sigma_ratio (repeat (12 / 252)%float 64) standard_orbit
     = 0.47115046282550721%float
  /\ fc_checker64.main_ratios standard_orbit [flat_counts] = [0.47115046282550721%float]
  /\ (forall (row : string -> Z) (families : list (list string)),
        Forall (fun m => m = 1%R)
               (foldl (paired_fc_analysis.family_step row) ([], []) families).2)
  /\ paired_fc_analysis64.sigma_inter
       (paired_fc_analysis64.calculate_fc_compliance ramp_row standard_orbit_map
          agg_codon_by_taxid._codon_columns)
     = 1.4043333874306804e-16%float
  /\ paired_fc_analysis64.fc_ratio
       (paired_fc_analysis64.calculate_fc_compliance ramp_row standard_orbit_map
          agg_codon_by_taxid._codon_columns)
     = 3503801593230386.5%float.
Proof.
  split.
  { intros x. apply (std_const 1 x), build_groups_const.
    apply List.Forall_forall. intros y Hy. now apply repeat_spec in Hy. }
  split; [exact to_rscu_flat_counts|].
  split; [vm_compute; reflexivity|].
  split; [vm_compute; reflexivity|].
  split; [vm_compute; reflexivity|].
  split; [vm_compute; reflexivity|].
  split.
  { intros row families. apply orbit_means_all_one. constructor. }
  split; vm_compute; reflexivity.
Qed.
End RoundedDivisor.
